(** * Deadmanswitch/crypto: key derivation, text cipher and stream cipher

    A model of src/native.ts and src/browser.ts (and of the variant
    browser.ts with the [base64Encoded] flag), of the stream interfaces of
    src/types.native.ts, and of the test doubles of the round-trip test,
    with the properties the specification states about them and further
    properties of the code. *)

From Stdlib Require Import Ascii String.
From Stdlib Require Import List Arith NArith ZArith Lia Bool ZifyNat ZifyN.
From Stdlib Require Strings.Byte.
Import ListNotations.
Open Scope N_scope.

(** * Part I.  The model *)

(** ** Bytes and JavaScript strings *)

(** A [Buffer] / [Uint8Array] is a sequence of bytes. *)
Definition byte := Byte.byte.
Definition bytes := list byte.

Definition b2n (b : byte) : N := Byte.to_N b.

(** Storing a number into a byte array keeps its low eight bits. *)
Definition n2b (n : N) : byte :=
  match Byte.of_N (n mod 256) with
  | Some b => b
  | None => Byte.x00
  end.

(** A JavaScript [string] is a sequence of 16-bit UTF-16 code units. *)
Definition code_unit := N.
Definition jsstring := list code_unit.

(** String literals of the source, as code units. *)
Definition lit (s : string) : jsstring := map N_of_ascii (list_ascii_of_string s).

Definition is_high_surrogate (u : N) : bool := (0xD800 <=? u) && (u <=? 0xDBFF).
Definition is_low_surrogate (u : N) : bool := (0xDC00 <=? u) && (u <=? 0xDFFF).

(** [String.prototype.isWellFormed]: every surrogate is half of a pair. *)
Fixpoint isWellFormed (s : jsstring) : bool :=
  match s with
  | [] => true
  | u :: s' =>
      if is_high_surrogate u then
        match s' with
        | l :: s'' => is_low_surrogate l && isWellFormed s''
        | [] => false
        end
      else (u <? 0x10000) && negb (is_low_surrogate u) && isWellFormed s'
  end.

(** ** UTF-8 (the ['utf8'] encoding of [Buffer], [TextEncoder])

    Encoding replaces an unpaired surrogate by U+FFFD; decoding replaces
    every ill-formed sequence by U+FFFD. *)

Module Utf8.

Definition encode_code_point (c : N) : bytes :=
  if c <? 0x80 then [n2b c]
  else if c <? 0x800 then
    [n2b (N.lor 0xC0 (N.shiftr c 6));
     n2b (N.lor 0x80 (N.land c 0x3F))]
  else if c <? 0x10000 then
    [n2b (N.lor 0xE0 (N.shiftr c 12));
     n2b (N.lor 0x80 (N.land (N.shiftr c 6) 0x3F));
     n2b (N.lor 0x80 (N.land c 0x3F))]
  else
    [n2b (N.lor 0xF0 (N.shiftr c 18));
     n2b (N.lor 0x80 (N.land (N.shiftr c 12) 0x3F));
     n2b (N.lor 0x80 (N.land (N.shiftr c 6) 0x3F));
     n2b (N.lor 0x80 (N.land c 0x3F))].

(** U+FFFD, what an unpaired surrogate is encoded as. *)
Definition replacement_char : N := 0xFFFD.

Definition combine_surrogates (h l : N) : N :=
  0x10000 + N.shiftl (h - 0xD800) 10 + (l - 0xDC00).

(** [Buffer.from(s, 'utf8')] and [new TextEncoder().encode(s)]. *)
Fixpoint encode (s : jsstring) : bytes :=
  match s with
  | [] => []
  | u :: s' =>
      if is_high_surrogate u then
        match s' with
        | l :: s'' =>
            if is_low_surrogate l
            then encode_code_point (combine_surrogates u l) ++ encode s''
            else encode_code_point replacement_char ++ encode s'
        | [] => encode_code_point replacement_char
        end
      else if is_low_surrogate u
      then encode_code_point replacement_char ++ encode s'
      else encode_code_point u ++ encode s'
  end.

(** The decoder is the streaming UTF-8 decoder: a code point under
    construction, the number of continuation bytes still expected, and
    the range allowed for the next continuation byte. *)
Record state := mk_state {
  st_cp : N;
  st_need : N;
  st_lower : N;
  st_upper : N
}.

Definition init : state := mk_state 0 0 0x80 0xBF.

(** Code units of one decoded code point. *)
Definition units_of_code_point (c : N) : jsstring :=
  if c <? 0x10000 then [c]
  else [0xD800 + N.shiftr (c - 0x10000) 10;
        0xDC00 + N.land (c - 0x10000) 0x3FF].

(** A byte met when no sequence is open. *)
Definition start (b : N) : state * jsstring :=
  if b <=? 0x7F then (init, [b])
  else if (0xC2 <=? b) && (b <=? 0xDF) then
    (mk_state (N.land b 0x1F) 1 0x80 0xBF, [])
  else if (0xE0 <=? b) && (b <=? 0xEF) then
    (mk_state (N.land b 0xF) 2
       (if b =? 0xE0 then 0xA0 else 0x80)
       (if b =? 0xED then 0x9F else 0xBF), [])
  else if (0xF0 <=? b) && (b <=? 0xF4) then
    (mk_state (N.land b 0x7) 3
       (if b =? 0xF0 then 0x90 else 0x80)
       (if b =? 0xF4 then 0x8F else 0xBF), [])
  else (init, [replacement_char]).

Definition step (st : state) (byt : byte) : state * jsstring :=
  let b := b2n byt in
  if st_need st =? 0 then start b
  else if (st_lower st <=? b) && (b <=? st_upper st) then
    let cp := N.lor (N.shiftl (st_cp st) 6) (N.land b 0x3F) in
    if st_need st =? 1 then (init, units_of_code_point cp)
    else (mk_state cp (st_need st - 1) 0x80 0xBF, [])
  else
    (* an ill-formed sequence: U+FFFD, and the byte is read again *)
    let '(st', out) := start b in (st', replacement_char :: out).

Fixpoint run (st : state) (bs : bytes) : state * jsstring :=
  match bs with
  | [] => (st, [])
  | b :: bs' =>
      let '(st1, o1) := step st b in
      let '(st2, o2) := run st1 bs' in
      (st2, o1 ++ o2)
  end.

(** End of input: a sequence left open becomes U+FFFD. *)
Definition flush (st : state) : jsstring :=
  if st_need st =? 0 then [] else [replacement_char].

(** [buf.toString('utf8')]. *)
Definition decode (bs : bytes) : jsstring :=
  let '(st, out) := run init bs in out ++ flush st.

End Utf8.

(** ** Base64 (the ['base64'] encoding of [Buffer]) *)

Module Base64.

Definition pad : N := 61.  (* '=' *)

Definition char (v : N) : N :=
  if v <? 26 then 65 + v
  else if v <? 52 then 97 + (v - 26)
  else if v <? 62 then 48 + (v - 52)
  else if v =? 62 then 43
  else 47.

(** [buf.toString('base64')]. *)
Fixpoint encode (bs : bytes) : jsstring :=
  match bs with
  | [] => []
  | [a] =>
      [char (N.shiftr (b2n a) 2);
       char (N.shiftl (N.land (b2n a) 3) 4);
       pad; pad]
  | [a; b] =>
      [char (N.shiftr (b2n a) 2);
       char (N.lor (N.shiftl (N.land (b2n a) 3) 4) (N.shiftr (b2n b) 4));
       char (N.shiftl (N.land (b2n b) 15) 2);
       pad]
  | a :: b :: c :: rest =>
      [char (N.shiftr (b2n a) 2);
       char (N.lor (N.shiftl (N.land (b2n a) 3) 4) (N.shiftr (b2n b) 4));
       char (N.lor (N.shiftl (N.land (b2n b) 15) 2) (N.shiftr (b2n c) 6));
       char (N.land (b2n c) 63)]
      ++ encode rest
  end.

(** The value of a base64 character; the URL-safe [-] and [_] count too. *)
Definition unbase64 (c : N) : option N :=
  if (65 <=? c) && (c <=? 90) then Some (c - 65)
  else if (97 <=? c) && (c <=? 122) then Some (c - 71)
  else if (48 <=? c) && (c <=? 57) then Some (c + 4)
  else if (c =? 43) || (c =? 45) then Some 62
  else if (c =? 47) || (c =? 95) then Some 63
  else None.

(** The decoder reads the low eight bits of every code unit.  It is
    lenient: a character outside the alphabet is skipped, and the first
    [=] ends the input. *)
Fixpoint sextets (s : jsstring) : list N :=
  match s with
  | [] => []
  | u :: s' =>
      let c := u mod 256 in
      if c =? pad then []
      else match unbase64 c with
           | Some v => v :: sextets s'
           | None => sextets s'
           end
  end.

(** Four sextets give three bytes; a last group of three gives two bytes,
    of two gives one byte, and a single left-over sextet is dropped. *)
Fixpoint bytes_of_sextets (l : list N) : bytes :=
  match l with
  | a :: b :: c :: d :: rest =>
      [n2b (N.lor (N.shiftl a 2) (N.shiftr b 4));
       n2b (N.lor (N.shiftl (N.land b 15) 4) (N.shiftr c 2));
       n2b (N.lor (N.shiftl (N.land c 3) 6) d)]
      ++ bytes_of_sextets rest
  | [a; b; c] =>
      [n2b (N.lor (N.shiftl a 2) (N.shiftr b 4));
       n2b (N.lor (N.shiftl (N.land b 15) 4) (N.shiftr c 2))]
  | [a; b] =>
      [n2b (N.lor (N.shiftl a 2) (N.shiftr b 4))]
  | _ => []
  end.

(** [Buffer.from(s, 'base64')]. *)
Definition decode (s : jsstring) : bytes := bytes_of_sextets (sextets s).

End Base64.

(** ** Encodings and [Buffer] *)

Inductive Encoding := utf8 | base64.

Module Buffer.
Definition from (s : jsstring) (enc : Encoding) : bytes :=
  match enc with
  | utf8 => Utf8.encode s
  | base64 => Base64.decode s
  end.

Definition toString (b : bytes) (enc : Encoding) : jsstring :=
  match enc with
  | utf8 => Utf8.decode b
  | base64 => Base64.encode b
  end.
End Buffer.

(** ** [TextDecoder]

    [new TextDecoder()] is the UTF-8 decoder with its defaults: ill-formed
    input becomes U+FFFD ([fatal] is off), and a byte order mark at the
    start of the input is not part of the result ([ignoreBOM] is off). *)

Module TextDecoder.
Definition byte_order_mark : N := 0xFEFF.

(** [new TextDecoder().decode(buf)] *)
Definition decode (bs : bytes) : jsstring :=
  match Utf8.decode bs with
  | u :: s => if u =? byte_order_mark then s else u :: s
  | [] => []
  end.
End TextDecoder.

(** ** Errors and results *)

Inductive error :=
| NotSupported (what : string)
| TypeError (what : string)
| UnknownCipher
| InvalidKeyLength
| InvalidIV
| WrongFinalBlockLength
| BadDecrypt
| EncodingChanged
| SourceFailure (code : N).

Inductive result (A : Type) :=
| Ok (a : A)
| Throw (e : error).
Arguments Ok {A} a.
Arguments Throw {A} e.

Definition bind {A B} (r : result A) (k : A -> result B) : result B :=
  match r with
  | Ok a => k a
  | Throw e => Throw e
  end.

Notation "x <- r ;; k" := (bind r (fun x => k))
  (at level 61, r at next level, right associativity).
Notation "' p <- r ;; k" := (bind r (fun p => k))
  (at level 61, p pattern, r at next level, right associativity).

(** ** The platform

    The cryptographic primitives are not part of the repository: AES and
    PBKDF2 come from the crypto provider of the runtime.  They are taken
    as an interface; what is modelled is everything the providers build
    around them that the repository relies on (CBC chaining, padding,
    update/final buffering, the string decoders).  The cipher objects are
    those of Node's crypto module, whose interface react-native-quick-crypto
    reproduces and which the round-trip test of the repository puts in its
    place. *)

Inductive Digest := SHA1 | SHA256 | SHA384 | SHA512.

Class Platform := {
  (** the AES block cipher: key, 16-byte block *)
  aes_encrypt_block : bytes -> bytes -> bytes;
  aes_decrypt_block : bytes -> bytes -> bytes;
  (** PBKDF2-HMAC: digest, password, salt, iterations, length in bytes *)
  pbkdf2_hmac : Digest -> bytes -> bytes -> N -> N -> bytes;
  (** which entry points the runtime provides *)
  has_pbkdf2Sync : bool;
  has_createCipheriv : bool;
  has_createDecipheriv : bool;
  has_subtle_importKey : bool
}.

(** ** [StringDecoder]: turns the byte chunks a cipher produces into text *)

Module StringDecoder.

Inductive t :=
| B64 (pending : bytes)      (* bytes of an incomplete 3-byte group *)
| U8 (st : Utf8.state).      (* an incomplete UTF-8 sequence *)

Definition create (enc : Encoding) : t :=
  match enc with
  | base64 => B64 []
  | utf8 => U8 Utf8.init
  end.

Definition encoding (d : t) : Encoding :=
  match d with
  | B64 _ => base64
  | U8 _ => utf8
  end.

Definition write (d : t) (buf : bytes) : t * jsstring :=
  match d with
  | B64 pending =>
      let all := pending ++ buf in
      let n := (length all / 3 * 3)%nat in
      (B64 (skipn n all), Base64.encode (firstn n all))
  | U8 st =>
      let '(st', out) := Utf8.run st buf in (U8 st', out)
  end.

Definition end_ (d : t) (buf : bytes) : jsstring :=
  match d with
  | B64 pending => Base64.encode (pending ++ buf)
  | U8 st =>
      let '(st', out) := Utf8.run st buf in out ++ Utf8.flush st'
  end.

End StringDecoder.

Definition Encoding_eqb (a b : Encoding) : bool :=
  match a, b with
  | utf8, utf8 | base64, base64 => true
  | _, _ => false
  end.

(** ** Cipher contexts ([createCipheriv] / [createDecipheriv]) *)

Module Cipher.

Inductive direction := Encrypt | Decrypt.

Record t := mk {
  dir : direction;
  key : bytes;
  chain : bytes;                        (* IV, then the last cipher block *)
  buf : bytes;                          (* input not processed yet *)
  decoder : option StringDecoder.t      (* the [_decoder] field *)
}.

Definition block_size : nat := 16.

Definition xor_bits (x y : byte) : byte :=
  let '(a0, (a1, (a2, (a3, (a4, (a5, (a6, a7))))))) := Byte.to_bits x in
  let '(b0, (b1, (b2, (b3, (b4, (b5, (b6, b7))))))) := Byte.to_bits y in
  Byte.of_bits (xorb a0 b0, (xorb a1 b1, (xorb a2 b2, (xorb a3 b3,
               (xorb a4 b4, (xorb a5 b5, (xorb a6 b6, xorb a7 b7))))))).

Definition xor_block (a b : bytes) : bytes :=
  map (fun p => xor_bits (fst p) (snd p)) (combine a b).

Section WithPlatform.
Context {P : Platform}.

(** CBC over [n] whole blocks of [data]: output and new chain value. *)
Fixpoint encrypt_blocks (k ch : bytes) (n : nat) (data : bytes)
  : bytes * bytes :=
  match n with
  | O => ([], ch)
  | S n' =>
      let c := aes_encrypt_block k (xor_block (firstn block_size data) ch) in
      let '(out, ch') := encrypt_blocks k c n' (skipn block_size data) in
      (c ++ out, ch')
  end.

Fixpoint decrypt_blocks (k ch : bytes) (n : nat) (data : bytes)
  : bytes * bytes :=
  match n with
  | O => ([], ch)
  | S n' =>
      let c := firstn block_size data in
      let p := xor_block (aes_decrypt_block k c) ch in
      let '(out, ch') := decrypt_blocks k c n' (skipn block_size data) in
      (p ++ out, ch')
  end.

(** Only the algorithm the repository uses is modelled. *)
Definition create (d : direction) (algorithm : string) (k iv : bytes)
  : result t :=
  if negb (String.eqb algorithm "aes-256-cbc") then Throw UnknownCipher
  else if negb (length k =? 32)%nat then Throw InvalidKeyLength
  else if negb (length iv =? 16)%nat then Throw InvalidIV
  else Ok (mk d k iv [] None).

(** The provider's update on bytes.  Encryption emits every whole block;
    decryption keeps the last whole block back, since it may hold the
    padding. *)
Definition transform (c : t) (input : bytes) : t * bytes :=
  let data := buf c ++ input in
  match dir c with
  | Encrypt =>
      let n := (length data / block_size)%nat in
      let '(out, ch) := encrypt_blocks (key c) (chain c) n data in
      (mk Encrypt (key c) ch (skipn (n * block_size) data) (decoder c), out)
  | Decrypt =>
      let n := ((length data - 1) / block_size)%nat in
      let '(out, ch) := decrypt_blocks (key c) (chain c) n data in
      (mk Decrypt (key c) ch (skipn (n * block_size) data) (decoder c), out)
  end.

(** PKCS#7: [n] bytes of value [n], with [1 <= n <= 16]. *)
Definition pkcs7_pad (rest : bytes) : bytes :=
  let n := (block_size - length rest)%nat in
  rest ++ repeat (n2b (N.of_nat n)) n.

Definition pkcs7_unpad (blk : bytes) : result bytes :=
  let n := N.to_nat (b2n (last blk Byte.x00)) in
  if (n =? 0)%nat || (block_size <? n)%nat then Throw BadDecrypt
  else if forallb (fun b => b2n b =? N.of_nat n) (skipn (block_size - n) blk)
  then Ok (firstn (block_size - n) blk)
  else Throw BadDecrypt.

(** The provider's final on bytes. *)
Definition finish (c : t) : result bytes :=
  match dir c with
  | Encrypt =>
      Ok (aes_encrypt_block (key c) (xor_block (pkcs7_pad (buf c)) (chain c)))
  | Decrypt =>
      if negb (length (buf c) =? block_size)%nat
      then Throw WrongFinalBlockLength
      else pkcs7_unpad (xor_block (aes_decrypt_block (key c) (buf c)) (chain c))
  end.

(** The decoder of a context is created on first use and its encoding
    cannot change afterwards. *)
Definition getDecoder (d : option StringDecoder.t) (enc : Encoding)
  : result StringDecoder.t :=
  match d with
  | None => Ok (StringDecoder.create enc)
  | Some d' =>
      if Encoding_eqb (StringDecoder.encoding d') enc then Ok d'
      else Throw EncodingChanged
  end.

(** [cipher.update(data, inputEncoding, outputEncoding)] *)
Definition update (c : t) (data : jsstring)
    (inputEncoding outputEncoding : Encoding) : result (t * jsstring) :=
  let '(c1, ret) := transform c (Buffer.from data inputEncoding) in
  d <- getDecoder (decoder c1) outputEncoding ;;
  let '(d', s) := StringDecoder.write d ret in
  Ok (mk (dir c1) (key c1) (chain c1) (buf c1) (Some d'), s).

(** [cipher.final(outputEncoding)] *)
Definition final (c : t) (outputEncoding : Encoding) : result jsstring :=
  ret <- finish c ;;
  d <- getDecoder (decoder c) outputEncoding ;;
  Ok (StringDecoder.end_ d ret).

End WithPlatform.
End Cipher.

(** ** The two crypto providers, as far as the repository calls them *)

Module QuickCrypto.
Section WithPlatform.
Context {P : Platform}.

Definition digest_of_name (name : string) : option Digest :=
  if String.eqb name "sha1" then Some SHA1
  else if String.eqb name "sha256" then Some SHA256
  else if String.eqb name "sha384" then Some SHA384
  else if String.eqb name "sha512" then Some SHA512
  else None.

(** A password given as a string is taken as its UTF-8 bytes. *)
Definition pbkdf2Sync (password : jsstring) (salt : bytes)
    (iterations keylen : N) (digest : string) : result bytes :=
  match digest_of_name digest with
  | Some d => Ok (pbkdf2_hmac d (Utf8.encode password) salt iterations keylen)
  | None => Throw (NotSupported digest)
  end.

Definition createCipheriv := Cipher.create Cipher.Encrypt.
Definition createDecipheriv := Cipher.create Cipher.Decrypt.
End WithPlatform.
End QuickCrypto.

Module Subtle.
Section WithPlatform.
Context {P : Platform}.

Record CryptoKey := mk_key {
  ck_algorithm : string;
  ck_data : bytes;
  ck_usages : list string
}.

Definition hash_of_name (name : string) : option Digest :=
  if String.eqb name "SHA-1" then Some SHA1
  else if String.eqb name "SHA-256" then Some SHA256
  else if String.eqb name "SHA-384" then Some SHA384
  else if String.eqb name "SHA-512" then Some SHA512
  else None.

Definition has_usage (u : string) (k : CryptoKey) : bool :=
  existsb (String.eqb u) (ck_usages k).

(** [importKey('raw', keyData, { name }, false, usages)] *)
Definition importKey (format : string) (keyData : bytes) (name : string)
    (usages : list string) : result CryptoKey :=
  if negb (String.eqb format "raw") then Throw (NotSupported format)
  else if String.eqb name "PBKDF2" then Ok (mk_key name keyData usages)
  else if String.eqb name "AES-CBC" then
    if (length keyData =? 16)%nat || (length keyData =? 24)%nat
       || (length keyData =? 32)%nat
    then Ok (mk_key name keyData usages)
    else Throw InvalidKeyLength
  else Throw (NotSupported name).

(** [deriveBits({ name: 'PBKDF2', salt, iterations, hash }, key, length)],
    [length] in bits. *)
Definition deriveBits (name : string) (salt : bytes) (iterations : N)
    (hash : string) (k : CryptoKey) (length : N) : result bytes :=
  if negb (String.eqb name "PBKDF2" && String.eqb (ck_algorithm k) "PBKDF2"
           && has_usage "deriveBits" k && (length mod 8 =? 0))
  then Throw (NotSupported name)
  else match hash_of_name hash with
       | Some d => Ok (pbkdf2_hmac d (ck_data k) salt iterations (length / 8))
       | None => Throw (NotSupported hash)
       end.

(** [encrypt({ name: 'AES-CBC', iv }, key, data)]: CBC with PKCS#7
    padding, in one call. *)
Definition encrypt (name : string) (iv : bytes) (k : CryptoKey)
    (data : bytes) : result bytes :=
  if negb (String.eqb name "AES-CBC" && String.eqb (ck_algorithm k) "AES-CBC"
           && has_usage "encrypt" k)
  then Throw (NotSupported name)
  else if negb (length iv =? 16)%nat then Throw InvalidIV
  else
    let c := Cipher.mk Cipher.Encrypt (ck_data k) iv [] None in
    let '(c1, body) := Cipher.transform c data in
    last_block <- Cipher.finish c1 ;;
    Ok (body ++ last_block).

(** [decrypt({ name: 'AES-CBC', iv }, key, data)]: the inverse, in one
    call; it fails when [data] is not a whole number of blocks or the
    padding is not that of PKCS#7. *)
Definition decrypt (name : string) (iv : bytes) (k : CryptoKey)
    (data : bytes) : result bytes :=
  if negb (String.eqb name "AES-CBC" && String.eqb (ck_algorithm k) "AES-CBC"
           && has_usage "decrypt" k)
  then Throw (NotSupported name)
  else if negb (length iv =? 16)%nat then Throw InvalidIV
  else
    let c := Cipher.mk Cipher.Decrypt (ck_data k) iv [] None in
    let '(c1, body) := Cipher.transform c data in
    last_block <- Cipher.finish c1 ;;
    Ok (body ++ last_block).
End WithPlatform.
End Subtle.

(** ** Stream endpoints (src/types.native.ts)

    The fields of the two interfaces, and behind them what the
    repository's test doubles keep: the data a source reads from, and the
    chunks a sink has received. *)

(** A [number] given as a buffer size: a size, or [NaN]. *)
Inductive number :=
| Size (n : N)
| NaN.

Record ReadStream := mk_rs {
  rs_path : string;
  rs_encoding : Encoding;
  rs_bufferSize : option number;
  rs_closed : bool;
  rs_tick : N;
  rs_opened : bool;          (* [open()] was called *)
  rs_buffer : bytes          (* the data behind the source *)
}.

Record WriteStream := mk_ws {
  ws_id : string;
  ws_encoding : Encoding;
  ws_append : bool;
  ws_chunks : list bytes     (* what the sink received, write by write *)
}.

(** [bufferSize?: number]: [None] is an omitted argument.  Zero and [NaN]
    are the numbers that are not truthy. *)
Definition truthy (n : option number) : bool :=
  match n with
  | Some (Size v) => negb (v =? 0)
  | Some NaN => false
  | None => false
  end.

Definition set_bufferSize (v : option number) (r : ReadStream) : ReadStream :=
  mk_rs (rs_path r) (rs_encoding r) v (rs_closed r) (rs_tick r)
        (rs_opened r) (rs_buffer r).

Definition set_rs_encoding (e : Encoding) (r : ReadStream) : ReadStream :=
  mk_rs (rs_path r) e (rs_bufferSize r) (rs_closed r) (rs_tick r)
        (rs_opened r) (rs_buffer r).

Definition rs_open (r : ReadStream) : ReadStream :=
  mk_rs (rs_path r) (rs_encoding r) (rs_bufferSize r) (rs_closed r) (rs_tick r)
        true (rs_buffer r).

Definition set_ws_encoding (e : Encoding) (w : WriteStream) : WriteStream :=
  mk_ws (ws_id w) e (ws_append w) (ws_chunks w).

Definition set_append (a : bool) (w : WriteStream) : WriteStream :=
  mk_ws (ws_id w) (ws_encoding w) a (ws_chunks w).

(** [write(data)]: the sink takes the text in its current encoding. *)
Definition ws_write (data : jsstring) (w : WriteStream) : WriteStream :=
  mk_ws (ws_id w) (ws_encoding w) (ws_append w)
        (ws_chunks w ++ [Buffer.from data (ws_encoding w)]).

(** What a stream operation does, in order. *)
Inductive action :=
| Opened                        (* inputStream.open() *)
| Updated (chunk : jsstring)    (* cipher.update(chunk, ...) *)
| Finalized                     (* cipher.final(...) *)
| Written (data : jsstring)     (* outputStream.write(data) *)
| Closed                        (* outputStream.close() *)
| Resolved                      (* resolve() *)
| Rejected (e : error)          (* reject(e) *)
| Logged (e : error).           (* console.error(e) *)

(** A stream operation in flight: the cipher context, the two endpoints,
    what was done so far, and the promise ([None] while pending; once
    settled it does not change). *)
Record operation := mk_op {
  op_cipher : Cipher.t;
  op_input : ReadStream;
  op_output : WriteStream;
  op_trace : list action;
  op_promise : option (result unit)
}.

Definition settle (r : result unit) (p : option (result unit))
  : option (result unit) :=
  match p with
  | None => Some r
  | Some _ => p
  end.

(** A source delivers chunks and then exactly one terminal signal. *)
Inductive terminal :=
| EndOfData
| SourceError (err : error).

(** ** src/native.ts *)

Module Native.
Section WithPlatform.
Context {P : Platform}.

Definition alg : string := "aes-256-cbc".
Definition defaultIterations : N := 100000.
Definition bytesize : N := 32.

(** [randomBytes] is the one entry point of the provider whose result
    is not a function of its arguments: it is given as what it returns
    for the size asked, [None] when the provider has none. *)
Definition nativeGenerateIvv (randomBytes : option (N -> bytes))
  : result jsstring :=
  match randomBytes with
  | None => Throw (NotSupported "nativeCrypto.randomBytes is not supported")
  | Some random => Ok (Buffer.toString (random 16) base64)
  end.

Definition nativeGenerateKey (password ivv : jsstring) : result jsstring :=
  if negb has_pbkdf2Sync
  then Throw (NotSupported "nativeCrypto.pbkdf2Sync is not supported")
  else
    let decodedSalt := Buffer.from ivv base64 in
    result <- QuickCrypto.pbkdf2Sync password decodedSalt
                defaultIterations bytesize "sha256" ;;
    Ok (Buffer.toString result base64).

Definition nativeGenerateHash (password ivv : jsstring) : result jsstring :=
  key <- nativeGenerateKey password ivv ;;
  nativeGenerateKey key ivv.

Definition nativeEncryptText (key ivv text : jsstring) : result jsstring :=
  if negb has_createCipheriv
  then Throw (NotSupported "nativeCrypto.createCipheriv is not supported")
  else
    cipher <- QuickCrypto.createCipheriv alg
                (Buffer.from key base64) (Buffer.from ivv base64) ;;
    '(cipher, encrypted) <- Cipher.update cipher text utf8 base64 ;;
    final <- Cipher.final cipher base64 ;;
    Ok (encrypted ++ final).

Definition nativeDecryptText (key ivv text : jsstring) : result jsstring :=
  if negb has_createDecipheriv
  then Throw (NotSupported "nativeCrypto.createDecipheriv is not supported")
  else
    cipher <- QuickCrypto.createDecipheriv "aes-256-cbc"
                (Buffer.from key base64) (Buffer.from ivv base64) ;;
    '(cipher, decrypted) <- Cipher.update cipher text base64 utf8 ;;
    final <- Cipher.final cipher utf8 ;;
    Ok (decrypted ++ final).

(** The executor of the promise of [nativeEncryptStream]: [Throw e] is
    the [catch] branch, which rejects with [e] before either endpoint
    was touched. *)
Definition nativeEncryptStream (key ivv : jsstring)
    (inputStream : ReadStream) (outputStream : WriteStream)
    (bufferSize : option number) : result operation :=
  if negb has_createCipheriv
  then Throw (NotSupported "nativeCrypto.createCipheriv is not supported")
  else
    cipher <- QuickCrypto.createCipheriv alg
                (Buffer.from key base64) (Buffer.from ivv base64) ;;
    let inputStream :=
      set_bufferSize (if truthy bufferSize then bufferSize
                      else rs_bufferSize inputStream) inputStream in
    let inputStream := set_rs_encoding base64 inputStream in
    let outputStream := set_ws_encoding utf8 outputStream in
    let outputStream := set_append false outputStream in
    let inputStream := rs_open inputStream in
    Ok (mk_op cipher inputStream outputStream [Opened] None).

(** The [onData] handler.  When [update] throws, the handler stops
    there: it is an async function, and nothing awaits it. *)
Definition encrypt_onData (op : operation) (chunk : jsstring) : operation :=
  match Cipher.update (op_cipher op) chunk utf8 base64 with
  | Ok (cipher, encryptedChunk) =>
      mk_op cipher (op_input op) (ws_write encryptedChunk (op_output op))
            (op_trace op ++ [Updated chunk; Written encryptedChunk])
            (op_promise op)
  | Throw _ =>
      mk_op (op_cipher op) (op_input op) (op_output op)
            (op_trace op ++ [Updated chunk]) (op_promise op)
  end.

Definition onEnd (outputEncoding : Encoding) (op : operation) : operation :=
  match Cipher.final (op_cipher op) outputEncoding with
  | Ok final =>
      if (0 <? length final)%nat then
        mk_op (op_cipher op) (op_input op) (ws_write final (op_output op))
              (op_trace op ++ [Finalized; Written final; Closed; Resolved])
              (settle (Ok tt) (op_promise op))
      else
        mk_op (op_cipher op) (op_input op) (op_output op)
              (op_trace op ++ [Finalized; Closed; Resolved])
              (settle (Ok tt) (op_promise op))
  | Throw _ =>
      mk_op (op_cipher op) (op_input op) (op_output op)
            (op_trace op ++ [Finalized]) (op_promise op)
  end.

Definition encrypt_onEnd : operation -> operation := onEnd base64.

Definition onError (op : operation) (err : error) : operation :=
  mk_op (op_cipher op) (op_input op) (op_output op)
        (op_trace op ++ [Logged err; Rejected err])
        (settle (Throw err) (op_promise op)).

(** The same for [nativeDecryptStream], whose [catch] branch logs the
    error before it rejects. *)
Definition nativeDecryptStream (key ivv : jsstring)
    (inputStream : ReadStream) (outputStream : WriteStream)
    (bufferSize : option number) : result operation :=
  if negb has_createDecipheriv
  then Throw (NotSupported "nativeCrypto.createDecipheriv is not supported")
  else
    decipher <- QuickCrypto.createDecipheriv alg
                  (Buffer.from key base64) (Buffer.from ivv base64) ;;
    let inputStream :=
      set_bufferSize (if truthy bufferSize then bufferSize
                      else rs_bufferSize inputStream) inputStream in
    let inputStream := set_rs_encoding utf8 inputStream in
    let outputStream := set_ws_encoding base64 outputStream in
    let outputStream := set_append false outputStream in
    let inputStream := rs_open inputStream in
    Ok (mk_op decipher inputStream outputStream [Opened] None).

Definition decrypt_onData (op : operation) (chunk : jsstring) : operation :=
  match Cipher.update (op_cipher op) chunk base64 utf8 with
  | Ok (decipher, decryptedChunk) =>
      mk_op decipher (op_input op) (ws_write decryptedChunk (op_output op))
            (op_trace op ++ [Updated chunk; Written decryptedChunk])
            (op_promise op)
  | Throw _ =>
      mk_op (op_cipher op) (op_input op) (op_output op)
            (op_trace op ++ [Updated chunk]) (op_promise op)
  end.

Definition decrypt_onEnd : operation -> operation := onEnd utf8.

(** The handlers, driven by what a source delivers. *)
Definition encrypt_deliver (op : operation) (chunks : list jsstring)
    (t : terminal) : operation :=
  let op' := fold_left encrypt_onData chunks op in
  match t with
  | EndOfData => encrypt_onEnd op'
  | SourceError err => onError op' err
  end.

Definition decrypt_deliver (op : operation) (chunks : list jsstring)
    (t : terminal) : operation :=
  let op' := fold_left decrypt_onData chunks op in
  match t with
  | EndOfData => decrypt_onEnd op'
  | SourceError err => onError op' err
  end.

End WithPlatform.
End Native.

(** ** src/browser.ts *)

Module Browser.
Section WithPlatform.
Context {P : Platform}.

Definition browserGenerateKey (password ivv : jsstring) : result jsstring :=
  if negb has_subtle_importKey
  then Throw (NotSupported "browserCrypto.subtle.importKey is not supported")
  else
    let iterations := 100000 in
    let bytesize := 32 in
    let keyData := Utf8.encode password in
    importedKey <- Subtle.importKey "raw" keyData "PBKDF2"
                     ["deriveBits"; "deriveKey"]%string ;;
    derivedBits <- Subtle.deriveBits "PBKDF2" (Buffer.from ivv base64)
                     iterations "SHA-256" importedKey (bytesize * 8) ;;
    Ok (Buffer.toString derivedBits base64).

Definition browserGenerateHash (password ivv : jsstring) : result jsstring :=
  key <- browserGenerateKey password ivv ;;
  result <- browserGenerateKey key ivv ;;
  Ok result.

(** The value of the result is what the [event] callback receives. *)
Definition browserEncryptText (key ivv text : jsstring) : result jsstring :=
  if negb has_subtle_importKey
  then Throw (NotSupported "browserCrypto.subtle.importKey is not supported")
  else
    importedKey <- Subtle.importKey "raw" (Buffer.from key base64) "AES-CBC"
                     ["encrypt"]%string ;;
    encryptedText <- Subtle.encrypt "AES-CBC" (Buffer.from ivv base64)
                       importedKey (Utf8.encode text) ;;
    Ok (Buffer.toString encryptedText base64).

(** Here too the value of the result is what [event] receives. *)
Definition browserDecryptText (key ivv text : jsstring) : result jsstring :=
  if negb has_subtle_importKey
  then Throw (NotSupported "browserCrypto.subtle.importKey is not supported")
  else
    importedKey <- Subtle.importKey "raw" (Buffer.from key base64) "AES-CBC"
                     ["decrypt"]%string ;;
    decryptedText <- Subtle.decrypt "AES-CBC" (Buffer.from ivv base64)
                       importedKey (Buffer.from text base64) ;;
    Ok (TextDecoder.decode decryptedText).

End WithPlatform.
End Browser.

(** ** browser.ts, the variant with the [base64Encoded] flag and
    [browserInit] *)

Module BrowserVariant.

(** [string | Uint8Array] *)
Inductive value :=
| Str (s : jsstring)
| U8Array (b : bytes).

(** Decimal digits of a byte value. *)
Definition decimal (n : N) : jsstring :=
  if n <? 10 then [48 + n]
  else if n <? 100 then [48 + n / 10; 48 + n mod 10]
  else [48 + n / 100; 48 + (n / 10) mod 10; 48 + n mod 10].

Definition comma : N := 44.

(** [Uint8Array.prototype.toString]: the elements joined by commas. *)
Fixpoint join_decimal (b : bytes) : jsstring :=
  match b with
  | [] => []
  | [x] => decimal (b2n x)
  | x :: rest => decimal (b2n x) ++ comma :: join_decimal rest
  end.

Definition toString (v : value) : jsstring :=
  match v with
  | Str s => s
  | U8Array b => join_decimal b
  end.

(** [let browserCrypto: Crypto]: the crypto object of the module, [None]
    while it is [undefined], which it is until [browserInit] is called.
    The functions below take it as their first argument. *)
Definition browserInit (crypto : Platform) (browserCrypto : option Platform)
  : option Platform :=
  Some crypto.

(** [browserCrypto.subtle] when [browserCrypto] is [undefined]. *)
Definition undefined_browserCrypto : error :=
  TypeError "Cannot read properties of undefined (reading 'subtle')".

Definition browserGenerateKey (browserCrypto : option Platform)
    (password : value) (ivv : jsstring) (base64Encoded : bool) : result value :=
  match browserCrypto with
  | None => Throw undefined_browserCrypto
  | Some crypto =>
      if negb has_subtle_importKey
      then Throw (NotSupported "browserCrypto.subtle.importKey is not supported")
      else
        let iterations := 100000 in
        let bytesize := 32 in
        let keyData := match password with
                       | U8Array b => b
                       | Str s => Utf8.encode s
                       end in
        importedKey <- Subtle.importKey "raw" keyData "PBKDF2"
                         ["deriveBits"; "deriveKey"]%string ;;
        derivedBits <- Subtle.deriveBits "PBKDF2" (Buffer.from ivv base64)
                         iterations "SHA-256" importedKey (bytesize * 8) ;;
        Ok (if base64Encoded
            then Str (Buffer.toString derivedBits base64)
            else U8Array derivedBits)
  end.

Definition browserGenerateHash (browserCrypto : option Platform)
    (password ivv : jsstring) (base64Encoded : bool) : result jsstring :=
  key <- browserGenerateKey browserCrypto (Str password) ivv base64Encoded ;;
  result <- browserGenerateKey browserCrypto key ivv base64Encoded ;;
  Ok (toString result).

(** The key is raw bytes or their base64 text. *)
Definition browserDecryptText (browserCrypto : option Platform)
    (key : value) (ivv text : jsstring) : result jsstring :=
  match browserCrypto with
  | None => Throw undefined_browserCrypto
  | Some crypto =>
      if negb has_subtle_importKey
      then Throw (NotSupported "browserCrypto.subtle.importKey is not supported")
      else
        importedKey <- Subtle.importKey "raw"
                         (match key with
                          | U8Array b => b
                          | Str s => Buffer.from s base64
                          end) "AES-CBC" ["decrypt"]%string ;;
        decryptedText <- Subtle.decrypt "AES-CBC" (Buffer.from ivv base64)
                           importedKey (Buffer.from text base64) ;;
        Ok (TextDecoder.decode decryptedText)
  end.

End BrowserVariant.

(** ** The test doubles of tests/roundtrip.test.ts *)

Module Mock.

(** [typeof data === 'string' ? Buffer.from(data) : data] *)
Definition buffer_of (data : jsstring + bytes) : bytes :=
  match data with
  | inl s => Buffer.from s utf8
  | inr b => b
  end.

(** [new MockReadStream(data)] *)
Definition ReadStream_new (data : jsstring + bytes) : ReadStream :=
  mk_rs "mock-path" utf8 (Some (Size 1024)) false 0 false (buffer_of data).

(** [new MockWriteStream()] *)
Definition WriteStream_new : WriteStream :=
  mk_ws "mock-write-id" utf8 false [].

Definition substring (s : jsstring) (i j : nat) : jsstring :=
  firstn (j - i) (skipn i s).

(** The loop of [open()]: [for (i = 0; i < length; i += chunkSize)]. *)
Fixpoint chunks_from (fuel : nat) (s : jsstring) (i chunkSize : nat)
  : list jsstring :=
  match fuel with
  | O => []
  | S fuel' =>
      if (i <? length s)%nat
      then substring s i (i + chunkSize)
           :: chunks_from fuel' s (i + chunkSize) chunkSize
      else []
  end.

(** [this.bufferSize || 1024] *)
Definition chunkSize (r : ReadStream) : N :=
  match rs_bufferSize r with
  | Some (Size n) => if n =? 0 then 1024 else n
  | Some NaN => 1024
  | None => 1024
  end.

(** What an opened source delivers. *)
Definition open (r : ReadStream) : list jsstring * terminal :=
  let dataToPush := Buffer.toString (rs_buffer r) (rs_encoding r) in
  (chunks_from (length dataToPush) dataToPush 0 (N.to_nat (chunkSize r)), EndOfData).

Definition getBuffer (w : WriteStream) : bytes := concat (ws_chunks w).

Definition getString (w : WriteStream) : jsstring :=
  Buffer.toString (getBuffer w) utf8.

Section WithPlatform.
Context {P : Platform}.

(** Step 1 of the round-trip test: encrypt [data] through the streams. *)
Definition encrypt_stream (key iv : jsstring) (data : jsstring + bytes)
    (bufferSize : option number) : result operation :=
  op <- Native.nativeEncryptStream key iv (ReadStream_new data)
          WriteStream_new bufferSize ;;
  let '(chunks, t) := open (op_input op) in
  Ok (Native.encrypt_deliver op chunks t).

(** Step 2: decrypt what step 1 left in its sink. *)
Definition decrypt_stream (key iv : jsstring) (encryptedData : bytes)
    (bufferSize : option number) : result operation :=
  op <- Native.nativeDecryptStream key iv (ReadStream_new (inr encryptedData))
          WriteStream_new bufferSize ;;
  let '(chunks, t) := open (op_input op) in
  Ok (Native.decrypt_deliver op chunks t).

End WithPlatform.
End Mock.

(** ** A small platform to run the model on

    A block "cipher" that XORs every byte with the first key byte, and a
    "derivation" that takes the first bytes of password and salt.  It has
    the shape the laws below ask of a platform, which is all the examples
    need. *)

Module Toy.
Definition encrypt_block (k blk : bytes) : bytes :=
  map (fun x => Cipher.xor_bits x (hd Byte.x00 k)) blk.

Definition derive (_ : Digest) (password salt : bytes) (_ keylen : N) : bytes :=
  firstn (N.to_nat keylen)
         (password ++ salt ++ repeat Byte.x00 (N.to_nat keylen)).

Definition platform : Platform :=
  Build_Platform encrypt_block encrypt_block derive true true true true.

(** A 32-byte key and a 16-byte IV, in base64. *)
Definition key : jsstring := lit "dGVzdEtleTEyMzQ1Njc4OTBhYmNkZWZnaGlqa2xtbm8=".
Definition ivv : jsstring := lit "MTIzNDU2Nzg5MDEyMzQ1Ng==".

(** Another IVV of 16 bytes, and a provider of random bytes that counts. *)
Definition other_ivv : jsstring := lit "QUJDREVGR0hJSktMTU5PUA==".
Definition counting_bytes (n : N) : bytes :=
  map (fun i => n2b (N.of_nat i)) (seq 0 (N.to_nat n)).
End Toy.

(** ** What is asked of a platform

    AES with a 256-bit key is a permutation of 16-byte blocks, and PBKDF2
    returns as many bytes as it is asked for. *)

Class PlatformLaws (P : Platform) : Prop := {
  aes_encrypt_length : forall k b,
    length k = 32%nat -> length b = 16%nat ->
    length (aes_encrypt_block k b) = 16%nat;
  aes_decrypt_encrypt : forall k b,
    length k = 32%nat -> length b = 16%nat ->
    aes_decrypt_block k (aes_encrypt_block k b) = b;
  pbkdf2_length : forall d password salt iterations keylen,
    length (pbkdf2_hmac d password salt iterations keylen) = N.to_nat keylen
}.

(** ** A cipher context, seen from the bytes it was given

    What [update] and [final] do step by step is compared below with these
    functions of the whole input. *)

Module Session.
Section WithPlatform.
Context {P : Platform}.
Variables (k iv : bytes).

(** Encryption of the whole blocks of the input [I]. *)
Definition enc_blocks (I : bytes) : bytes * bytes :=
  Cipher.encrypt_blocks k iv (length I / 16) I.

(** The context after [I] went through [update]. *)
Definition enc_ctx (I : bytes) (d : option StringDecoder.t) : Cipher.t :=
  Cipher.mk Cipher.Encrypt k (snd (enc_blocks I))
            (skipn (length I / 16 * 16) I) d.

(** AES-256-CBC with PKCS#7 padding, of a whole message. *)
Definition cbc_encrypt (I : bytes) : bytes :=
  fst (enc_blocks I)
  ++ aes_encrypt_block k
       (Cipher.xor_block (Cipher.pkcs7_pad (skipn (length I / 16 * 16) I))
                         (snd (enc_blocks I))).

(** Decryption keeps the last block back. *)
Definition dec_blocks (C : bytes) : bytes * bytes :=
  Cipher.decrypt_blocks k iv ((length C - 1) / 16) C.

Definition dec_ctx (C : bytes) (d : option StringDecoder.t) : Cipher.t :=
  Cipher.mk Cipher.Decrypt k (snd (dec_blocks C))
            (skipn ((length C - 1) / 16 * 16) C) d.

(** The bytes that came out of the provider's update so far. *)
Definition produced (d : Cipher.direction) (I : bytes) : bytes :=
  match d with
  | Cipher.Encrypt => fst (enc_blocks I)
  | Cipher.Decrypt => fst (dec_blocks I)
  end.

Definition ctx (d : Cipher.direction) : bytes -> option StringDecoder.t -> Cipher.t :=
  match d with
  | Cipher.Encrypt => enc_ctx
  | Cipher.Decrypt => dec_ctx
  end.
End WithPlatform.

(** A string decoder after the bytes [X] were written to it, and the
    text it has returned. *)
Definition decoder_after (enc : Encoding) (X : bytes) : StringDecoder.t :=
  match enc with
  | base64 => StringDecoder.B64 (skipn (length X / 3 * 3) X)
  | utf8 => StringDecoder.U8 (fst (Utf8.run Utf8.init X))
  end.

Definition text_after (enc : Encoding) (X : bytes) : jsstring :=
  match enc with
  | base64 => Base64.encode (firstn (length X / 3 * 3) X)
  | utf8 => snd (Utf8.run Utf8.init X)
  end.

(** The [_decoder] field of a context whose update produced [X]. *)
Definition decoder_ok (enc : Encoding) (X : bytes)
    (d : option StringDecoder.t) : Prop :=
  (d = None /\ X = []) \/ d = Some (decoder_after enc X).

(** [c] is a context of direction [dir] for key [k] and IV [iv] that was
    given the bytes [I] and asked for text in [enc]. *)
Definition tracks {P : Platform} (dir : Cipher.direction) (k iv : bytes)
    (enc : Encoding) (I : bytes) (c : Cipher.t) : Prop :=
  exists d, c = ctx k iv dir I d /\ decoder_ok enc (produced k iv dir I) d.
End Session.

(** ** Keys and salts of the data model

    A key is the base64 text of 32 bytes, an IVV (salt) the base64 text of
    16 bytes. *)

Definition valid_key (key : jsstring) : Prop :=
  length (Buffer.from key base64) = 32%nat.

Definition valid_ivv (ivv : jsstring) : Prop :=
  length (Buffer.from ivv base64) = 16%nat.

(** ** Stream operations, seen from what the source delivered *)

Module Run.
Section WithPlatform.
Context {P : Platform}.

(** The two [onData] handlers differ in their encodings only. *)
Definition onData (inEnc outEnc : Encoding) (op : operation)
    (chunk : jsstring) : operation :=
  match Cipher.update (op_cipher op) chunk inEnc outEnc with
  | Ok (c, out) =>
      mk_op c (op_input op) (ws_write out (op_output op))
            (op_trace op ++ [Updated chunk; Written out]) (op_promise op)
  | Throw _ =>
      mk_op (op_cipher op) (op_input op) (op_output op)
            (op_trace op ++ [Updated chunk]) (op_promise op)
  end.

(** The text returned by the [update] of each chunk in turn, for a
    context that was given [I] before. *)
Inductive feeds (dir : Cipher.direction) (k iv : bytes)
    (inEnc outEnc : Encoding) : bytes -> list jsstring -> list jsstring -> Prop :=
| feeds_nil I : feeds dir k iv inEnc outEnc I [] []
| feeds_cons I c cs w ws :
    Session.text_after outEnc
      (Session.produced k iv dir (I ++ Buffer.from c inEnc))
    = Session.text_after outEnc (Session.produced k iv dir I) ++ w ->
    feeds dir k iv inEnc outEnc (I ++ Buffer.from c inEnc) cs ws ->
    feeds dir k iv inEnc outEnc I (c :: cs) (w :: ws).
End WithPlatform.

(** What the handlers of the chunks [cs] do when their updates return
    the texts [ws]. *)
Definition data_actions (cs ws : list jsstring) : list action :=
  concat (map (fun p => [Updated (fst p); Written (snd p)]) (combine cs ws)).

Definition write_all (ws : list jsstring) (w : WriteStream) : WriteStream :=
  fold_left (fun w d => ws_write d w) ws w.

(** The bytes a source gives to the cipher, chunk by chunk. *)
Definition input_bytes (inEnc : Encoding) (cs : list jsstring) : bytes :=
  concat (map (fun c => Buffer.from c inEnc) cs).

(** The texts written to the sink, as a trace records them. *)
Fixpoint written (t : list action) : list jsstring :=
  match t with
  | [] => []
  | Written d :: t' => d :: written t'
  | _ :: t' => written t'
  end.

Definition is_final (a : action) : bool :=
  match a with Finalized => true | _ => false end.

Definition is_close (a : action) : bool :=
  match a with Closed => true | _ => false end.
End Run.

(** ** Key derivation, in the words of the specification

    [deriveKey(password, salt)]: password-based key derivation, HMAC-SHA256
    based, 100000 iterations, 32-byte output, over the UTF-8 bytes of the
    password, with [salt] decoded from base64 as the derivation salt; the
    key is returned as base64 text. *)

Definition deriveKey {P : Platform} (password salt : jsstring) : jsstring :=
  Base64.encode
    (pbkdf2_hmac SHA256 (Utf8.encode password) (Base64.decode salt) 100000 32).

(** [deriveFingerprint(password, salt)]: [k1 = deriveKey(password, salt)],
    then [deriveKey(k1, salt)]. *)
Definition deriveFingerprint {P : Platform} (password salt : jsstring) : jsstring :=
  deriveKey (deriveKey password salt) salt.

(** ** Strings that are not well formed

    [String.prototype.toWellFormed]: the string with every surrogate that
    is not half of a pair replaced by U+FFFD. *)

Fixpoint toWellFormed (s : jsstring) : jsstring :=
  match s with
  | [] => []
  | u :: s' =>
      if is_high_surrogate u then
        match s' with
        | l :: s'' =>
            if is_low_surrogate l then u :: l :: toWellFormed s''
            else Utf8.replacement_char :: toWellFormed s'
        | [] => [Utf8.replacement_char]
        end
      else if is_low_surrogate u then Utf8.replacement_char :: toWellFormed s'
      else u :: toWellFormed s'
  end.

(** The values a string can hold: 16-bit code units. *)
Definition code_units (s : jsstring) : Prop :=
  forallb (fun u => u <? 0x10000) s = true.

(** ** Comma-separated decimal byte values

    What the specification calls the default string rendering of a
    [Uint8Array]: the decimal numerals of its bytes, with a comma between
    two of them.  A numeral has digits only, no leading zero, and the value
    it stands for. *)




(** ** Auxiliary notions of the proofs *)

(** The four sextets of a group of three bytes, and the last sextet of a
    short group. *)
Definition s1 (a : N) := N.shiftr a 2.
Definition s2 (a b : N) := N.lor (N.shiftl (N.land a 3) 4) (N.shiftr b 4).
Definition s3 (b c : N) := N.lor (N.shiftl (N.land b 15) 2) (N.shiftr c 6).
Definition s4 (c : N) := N.land c 63.
Definition s2' (a : N) := N.shiftl (N.land a 3) 4.
Definition s3' (b : N) := N.shiftl (N.land b 15) 2.

(** A Unicode scalar value: a code point that is not a surrogate. *)
Definition is_scalar (c : N) : Prop :=
  c < 0x110000 /\ ~ (0xD800 <= c <= 0xDFFF).

(** * Part II.  Properties *)

(** ** Bytes and bit arithmetic *)

Ltac div_mod_lia :=
  zify; Z.to_euclidean_division_equations; lia.

Lemma b2n_lt (b : byte) : b2n b < 256.
Proof. unfold b2n. pose proof (Byte.to_N_bounded b). lia. Qed.

Lemma b2n_n2b_mod (n : N) : b2n (n2b n) = n mod 256.
Proof.
  unfold n2b, b2n.
  destruct (Byte.of_N (n mod 256)) as [b|] eqn:E.
  - now apply Byte.to_of_N.
  - apply Byte.of_N_None_iff in E.
    assert (n mod 256 < 256) by (apply N.mod_lt; discriminate). lia.
Qed.

Lemma b2n_n2b (n : N) : n < 256 -> b2n (n2b n) = n.
Proof. intros H. rewrite b2n_n2b_mod. now apply N.mod_small. Qed.

Lemma n2b_b2n (b : byte) : n2b (b2n b) = b.
Proof.
  unfold n2b, b2n.
  rewrite N.mod_small by apply b2n_lt.
  now rewrite Byte.of_to_N.
Qed.

Lemma b2n_inj (a b : byte) : b2n a = b2n b -> a = b.
Proof. intros H. rewrite <- (n2b_b2n a), <- (n2b_b2n b). now rewrite H. Qed.

Lemma land_mul_pow2_low (h l k : N) : l < 2 ^ k -> N.land (h * 2 ^ k) l = 0.
Proof.
  intros Hl. apply N.bits_inj. intros m.
  rewrite N.land_spec, N.bits_0.
  destruct (N.lt_ge_cases m k) as [Hm|Hm].
  - now rewrite N.mul_pow2_bits_low.
  - rewrite <- (N.mod_small l (2 ^ k)) by assumption.
    rewrite N.mod_pow2_bits_high by assumption.
    apply andb_false_r.
Qed.

Lemma lor_mul_pow2_add (h l k : N) :
  l < 2 ^ k -> N.lor (h * 2 ^ k) l = h * 2 ^ k + l.
Proof.
  intros Hl. pose proof (land_mul_pow2_low h l k Hl) as H0.
  now rewrite N.add_nocarry_lxor, N.lxor_lor.
Qed.

Lemma lor_shiftl_add (a b k : N) :
  b < 2 ^ k -> N.lor (N.shiftl a k) b = a * 2 ^ k + b.
Proof. intros. rewrite N.shiftl_mul_pow2. now apply lor_mul_pow2_add. Qed.

Lemma land_mask (a k : N) : N.land a (2 ^ k - 1) = a mod 2 ^ k.
Proof.
  rewrite <- N.land_ones. f_equal.
  rewrite N.ones_equiv. now rewrite N.pred_sub.
Qed.

(** A property of the numbers below a bound, checked by running it. *)
Lemma forall_below (P : N -> bool) (n : nat) :
  forallb P (map N.of_nat (seq 0 n)) = true ->
  forall v, v < N.of_nat n -> P v = true.
Proof.
  intros H v Hv. rewrite forallb_forall in H. apply H.
  apply in_map_iff. exists (N.to_nat v). split.
  - apply N2Nat.id.
  - apply in_seq. lia.
Qed.

Ltac bits_to_arith :=
  repeat rewrite N.shiftr_div_pow2;
  repeat rewrite N.shiftl_mul_pow2;
  change 3 with (2 ^ 2 - 1) in *;
  change 7 with (2 ^ 3 - 1) in *;
  change 15 with (2 ^ 4 - 1) in *;
  change 31 with (2 ^ 5 - 1) in *;
  change 63 with (2 ^ 6 - 1) in *;
  change 1023 with (2 ^ 10 - 1) in *;
  repeat rewrite land_mask.

(** ** Base64 *)

Lemma list_ind3 {A} (P : list A -> Prop) :
  P [] -> (forall a, P [a]) -> (forall a b, P [a; b]) ->
  (forall a b c rest, P rest -> P (a :: b :: c :: rest)) ->
  forall l, P l.
Proof.
  intros H0 H1 H2 H3.
  fix IH 1. intros [|a [|b [|c rest]]];
    [apply H0 | apply H1 | apply H2 | apply H3; apply IH].
Qed.

Lemma unbase64_char (v : N) : v < 64 -> Base64.unbase64 (Base64.char v) = Some v.
Proof.
  intros Hv.
  apply (forall_below
           (fun v => match Base64.unbase64 (Base64.char v) with
                     | Some w => w =? v
                     | None => false
                     end) 64) in Hv; [|vm_compute; reflexivity].
  destruct (Base64.unbase64 (Base64.char v)); [|discriminate].
  apply N.eqb_eq in Hv. now subst.
Qed.

Lemma char_not_pad (v : N) : v < 64 -> (Base64.char v =? Base64.pad) = false.
Proof.
  intros Hv.
  apply (forall_below (fun v => negb (Base64.char v =? Base64.pad)) 64) in Hv;
    [|vm_compute; reflexivity].
  now apply negb_true_iff in Hv.
Qed.

Lemma char_lt_128 (v : N) : v < 64 -> Base64.char v < 128.
Proof.
  intros Hv.
  apply (forall_below (fun v => Base64.char v <? 128) 64) in Hv;
    [|vm_compute; reflexivity].
  now apply N.ltb_lt in Hv.
Qed.

Lemma sextets_char (v : N) (s : jsstring) :
  v < 64 -> Base64.sextets (Base64.char v :: s) = v :: Base64.sextets s.
Proof.
  intros Hv. cbn [Base64.sextets]. cbv zeta.
  rewrite (N.mod_small (Base64.char v) 256)
    by (pose proof (char_lt_128 v Hv); lia).
  now rewrite char_not_pad, unbase64_char.
Qed.

Lemma sextets_pad (s : jsstring) : Base64.sextets (Base64.pad :: s) = [].
Proof. reflexivity. Qed.

Lemma s1_val a : s1 a = a / 4.
Proof. unfold s1. now bits_to_arith. Qed.

Lemma s2_val a b : b < 256 -> s2 a b = (a mod 4) * 16 + b / 16.
Proof.
  intros. unfold s2. bits_to_arith.
  rewrite lor_mul_pow2_add; [reflexivity|]. change (2 ^ 4) with 16. div_mod_lia.
Qed.

Lemma s3_val b c : c < 256 -> s3 b c = (b mod 16) * 4 + c / 64.
Proof.
  intros. unfold s3. bits_to_arith.
  rewrite lor_mul_pow2_add; [reflexivity|].
  change (2 ^ 6) with 64. change (2 ^ 2) with 4. div_mod_lia.
Qed.

Lemma s4_val c : s4 c = c mod 64.
Proof. unfold s4. now bits_to_arith. Qed.

Lemma s2'_val a : s2' a = (a mod 4) * 16.
Proof. unfold s2'. now bits_to_arith. Qed.

Lemma s3'_val b : s3' b = (b mod 16) * 4.
Proof. unfold s3'. now bits_to_arith. Qed.

Lemma s1_lt a : a < 256 -> s1 a < 64.
Proof. intros. rewrite s1_val. div_mod_lia. Qed.
Lemma s2_lt a b : b < 256 -> s2 a b < 64.
Proof. intros. rewrite s2_val by assumption. div_mod_lia. Qed.
Lemma s3_lt b c : c < 256 -> s3 b c < 64.
Proof. intros. rewrite s3_val by assumption. div_mod_lia. Qed.
Lemma s4_lt c : s4 c < 64.
Proof. rewrite s4_val. div_mod_lia. Qed.
Lemma s2'_lt a : s2' a < 64.
Proof. rewrite s2'_val. div_mod_lia. Qed.
Lemma s3'_lt b : s3' b < 64.
Proof. rewrite s3'_val. div_mod_lia. Qed.

Ltac sextet_lt :=
  solve [ apply s1_lt; assumption | apply s2_lt; assumption
        | apply s3_lt; assumption | apply s4_lt
        | apply s2'_lt | apply s3'_lt ].

(** Putting sextets back together. *)
Lemma join1 (x y : N) : x < 64 -> y < 64 ->
  N.lor (N.shiftl x 2) (N.shiftr y 4) = x * 4 + y / 16.
Proof.
  intros. bits_to_arith. rewrite lor_mul_pow2_add; [reflexivity|].
  change (2 ^ 4) with 16. change (2 ^ 2) with 4. div_mod_lia.
Qed.

Lemma join2 (x y : N) : x < 64 -> y < 64 ->
  N.lor (N.shiftl (N.land x 15) 4) (N.shiftr y 2) = (x mod 16) * 16 + y / 4.
Proof.
  intros. bits_to_arith. rewrite lor_mul_pow2_add; [reflexivity|].
  change (2 ^ 4) with 16. change (2 ^ 2) with 4. div_mod_lia.
Qed.

Lemma join3 (x y : N) : x < 64 -> y < 64 ->
  N.lor (N.shiftl (N.land x 3) 6) y = (x mod 4) * 64 + y.
Proof.
  intros. bits_to_arith. rewrite lor_mul_pow2_add; [reflexivity|].
  change (2 ^ 6) with 64. lia.
Qed.

Lemma encode_group (a b c : byte) (rest : bytes) :
  Base64.encode (a :: b :: c :: rest) =
  [Base64.char (s1 (b2n a)); Base64.char (s2 (b2n a) (b2n b));
   Base64.char (s3 (b2n b) (b2n c)); Base64.char (s4 (b2n c))]
  ++ Base64.encode rest.
Proof. reflexivity. Qed.

Lemma bytes_of_group (a b c : byte) (l : list N) :
  Base64.bytes_of_sextets
    (s1 (b2n a) :: s2 (b2n a) (b2n b) :: s3 (b2n b) (b2n c) :: s4 (b2n c) :: l)
  = a :: b :: c :: Base64.bytes_of_sextets l.
Proof.
  pose proof (b2n_lt a). pose proof (b2n_lt b). pose proof (b2n_lt c).
  cbn [Base64.bytes_of_sextets app].
  rewrite join1, join2, join3
    by sextet_lt.
  rewrite s1_val, s2_val, s3_val, s4_val by assumption.
  f_equal; [|f_equal; [|f_equal]].
  - apply b2n_inj. rewrite b2n_n2b_mod. div_mod_lia.
  - apply b2n_inj. rewrite b2n_n2b_mod. div_mod_lia.
  - apply b2n_inj. rewrite b2n_n2b_mod. div_mod_lia.
Qed.

Lemma sextets_encode_group (a b c : byte) (s : jsstring) :
  Base64.sextets
    ([Base64.char (s1 (b2n a)); Base64.char (s2 (b2n a) (b2n b));
      Base64.char (s3 (b2n b) (b2n c)); Base64.char (s4 (b2n c))] ++ s)
  = s1 (b2n a) :: s2 (b2n a) (b2n b) :: s3 (b2n b) (b2n c) :: s4 (b2n c)
    :: Base64.sextets s.
Proof.
  pose proof (b2n_lt a). pose proof (b2n_lt b). pose proof (b2n_lt c).
  cbn [app].
  rewrite !sextets_char
    by sextet_lt.
  reflexivity.
Qed.

Lemma decode_encode_1 (a : byte) : Base64.decode (Base64.encode [a]) = [a].
Proof.
  pose proof (b2n_lt a).
  unfold Base64.decode. cbn [Base64.encode].
  fold (s1 (b2n a)). fold (s2' (b2n a)).
  rewrite !sextets_char by sextet_lt.
  rewrite sextets_pad. cbn [Base64.bytes_of_sextets].
  rewrite join1 by sextet_lt.
  rewrite s1_val, s2'_val.
  f_equal. apply b2n_inj. rewrite b2n_n2b_mod. div_mod_lia.
Qed.

Lemma decode_encode_2 (a b : byte) : Base64.decode (Base64.encode [a; b]) = [a; b].
Proof.
  pose proof (b2n_lt a). pose proof (b2n_lt b).
  unfold Base64.decode. cbn [Base64.encode].
  fold (s1 (b2n a)). fold (s2 (b2n a) (b2n b)). fold (s3' (b2n b)).
  rewrite !sextets_char
    by sextet_lt.
  rewrite sextets_pad. cbn [Base64.bytes_of_sextets].
  rewrite join1, join2
    by sextet_lt.
  rewrite s1_val, s2_val, s3'_val by assumption.
  f_equal; [|f_equal].
  - apply b2n_inj. rewrite b2n_n2b_mod. div_mod_lia.
  - apply b2n_inj. rewrite b2n_n2b_mod. div_mod_lia.
Qed.

Theorem decode_encode (a : bytes) : Base64.decode (Base64.encode a) = a.
Proof.
  induction a as [|x|x y|x y z rest IH] using list_ind3.
  - reflexivity.
  - apply decode_encode_1.
  - apply decode_encode_2.
  - rewrite encode_group. unfold Base64.decode in *.
    rewrite sextets_encode_group, bytes_of_group. now rewrite IH.
Qed.

Lemma encode_app (a b : bytes) :
  (length a mod 3 = 0)%nat ->
  Base64.encode (a ++ b) = Base64.encode a ++ Base64.encode b.
Proof.
  induction a as [|x|x y|x y z rest IH] using list_ind3; intros Hlen.
  - reflexivity.
  - discriminate.
  - discriminate.
  - cbn [app]. rewrite !encode_group. rewrite <- app_assoc. f_equal. apply IH.
    cbn [length] in Hlen.
    replace (S (S (S (length rest)))) with (length rest + 1 * 3)%nat in Hlen by lia.
    now rewrite Nat.Div0.mod_add in Hlen.
Qed.

(** Cutting an encoding after [k] groups of four characters. *)
Lemma encode_firstn_skipn (k : nat) (p : bytes) :
  firstn (4 * k) (Base64.encode p) = Base64.encode (firstn (3 * k) p) /\
  skipn (4 * k) (Base64.encode p) = Base64.encode (skipn (3 * k) p).
Proof.
  revert p. induction k as [|k IH]; intros p.
  - split; reflexivity.
  - replace (4 * S k)%nat with (S (S (S (S (4 * k))))) by lia.
    replace (3 * S k)%nat with (S (S (S (3 * k)))) by lia.
    destruct p as [|x [|y [|z rest]]].
    + split; reflexivity.
    + cbn [Base64.encode firstn skipn]. rewrite firstn_nil, skipn_nil.
      split; reflexivity.
    + cbn [Base64.encode firstn skipn]. rewrite firstn_nil, skipn_nil.
      split; reflexivity.
    + rewrite encode_group. cbn [app firstn skipn].
      destruct (IH rest) as [IH1 IH2]. rewrite IH1, IH2.
      split; [|reflexivity].
      now rewrite encode_group.
Qed.

Lemma encode_length (p : bytes) :
  length (Base64.encode p) = (4 * ((length p + 2) / 3))%nat.
Proof.
  induction p as [|x|x y|x y z rest IH] using list_ind3; try reflexivity.
  rewrite encode_group. cbn [app length]. rewrite IH.
  replace (S (S (S (length rest))) + 2)%nat with (length rest + 2 + 1 * 3)%nat by lia.
  rewrite Nat.div_add by discriminate. lia.
Qed.

(** Every character of an encoding is ASCII. *)
Lemma encode_ascii (p : bytes) : Forall (fun u => u < 128) (Base64.encode p).
Proof.
  induction p as [|x|x y|x y z rest IH] using list_ind3.
  - constructor.
  - pose proof (b2n_lt x). cbn [Base64.encode].
    fold (s1 (b2n x)). fold (s2' (b2n x)).
    repeat constructor; try (apply char_lt_128; sextet_lt);
      unfold Base64.pad; lia.
  - pose proof (b2n_lt x). pose proof (b2n_lt y). cbn [Base64.encode].
    fold (s1 (b2n x)). fold (s2 (b2n x) (b2n y)). fold (s3' (b2n y)).
    repeat constructor;
      try (apply char_lt_128; sextet_lt);
      unfold Base64.pad; lia.
  - pose proof (b2n_lt x). pose proof (b2n_lt y). pose proof (b2n_lt z).
    rewrite encode_group. cbn [app].
    repeat (constructor; [apply char_lt_128; sextet_lt|]).
    exact IH.
Qed.

(** ** UTF-8 *)

Lemma lor_C0 x : x < 64 -> N.lor 0xC0 x = 192 + x.
Proof. intros. change 0xC0 with (3 * 2 ^ 6). now rewrite lor_mul_pow2_add. Qed.

Lemma lor_80 x : x < 64 -> N.lor 0x80 x = 128 + x.
Proof. intros. change 0x80 with (2 * 2 ^ 6). now rewrite lor_mul_pow2_add. Qed.

Lemma lor_E0 x : x < 32 -> N.lor 0xE0 x = 224 + x.
Proof. intros. change 0xE0 with (7 * 2 ^ 5). now rewrite lor_mul_pow2_add. Qed.

Lemma lor_F0 x : x < 16 -> N.lor 0xF0 x = 240 + x.
Proof. intros. change 0xF0 with (15 * 2 ^ 4). now rewrite lor_mul_pow2_add. Qed.

Lemma land_3F x : N.land x 0x3F = x mod 64.
Proof. change 0x3F with (2 ^ 6 - 1). now rewrite land_mask. Qed.

Lemma land_1F x : N.land x 0x1F = x mod 32.
Proof. change 0x1F with (2 ^ 5 - 1). now rewrite land_mask. Qed.

Lemma land_0F x : N.land x 0xF = x mod 16.
Proof. change 0xF with (2 ^ 4 - 1). now rewrite land_mask. Qed.

Lemma land_07 x : N.land x 0x7 = x mod 8.
Proof. change 0x7 with (2 ^ 3 - 1). now rewrite land_mask. Qed.

Lemma land_3FF x : N.land x 0x3FF = x mod 1024.
Proof. change 0x3FF with (2 ^ 10 - 1). now rewrite land_mask. Qed.

Lemma lor_shiftl_6 a b : N.lor (N.shiftl a 6) (N.land b 0x3F) = a * 64 + b mod 64.
Proof.
  rewrite land_3F, lor_shiftl_add; [reflexivity|].
  change (2 ^ 6) with 64. apply N.mod_lt. discriminate.
Qed.

Ltac decide_tests :=
  repeat match goal with
    | |- context [?a <=? ?b] =>
        (replace (a <=? b) with true by (symmetry; apply N.leb_le; div_mod_lia))
        || (replace (a <=? b) with false by (symmetry; apply N.leb_gt; div_mod_lia))
    | |- context [?a <? ?b] =>
        (replace (a <? b) with true by (symmetry; apply N.ltb_lt; div_mod_lia))
        || (replace (a <? b) with false by (symmetry; apply N.ltb_ge; div_mod_lia))
    | |- context [?a =? ?b] =>
        (replace (a =? b) with true by (symmetry; apply N.eqb_eq; div_mod_lia))
        || (replace (a =? b) with false by (symmetry; apply N.eqb_neq; div_mod_lia))
    end.

Lemma run_cons st b bs :
  Utf8.run st (b :: bs) =
  (fst (Utf8.run (fst (Utf8.step st b)) bs),
   snd (Utf8.step st b) ++ snd (Utf8.run (fst (Utf8.step st b)) bs)).
Proof.
  cbn [Utf8.run]. destruct (Utf8.step st b) as [st1 o1].
  cbn [fst snd]. now destruct (Utf8.run st1 bs).
Qed.

Lemma run_app st a b :
  Utf8.run st (a ++ b) =
  (fst (Utf8.run (fst (Utf8.run st a)) b),
   snd (Utf8.run st a) ++ snd (Utf8.run (fst (Utf8.run st a)) b)).
Proof.
  revert st. induction a as [|x a IH]; intros st.
  - cbn [app Utf8.run fst snd]. now destruct (Utf8.run st b).
  - cbn [app]. rewrite !run_cons. rewrite IH. cbn [fst snd].
    now rewrite app_assoc.
Qed.

(** One step on the first byte of a sequence. *)
Lemma step_init_ascii (c : N) :
  c < 0x80 -> Utf8.step Utf8.init (n2b c) = (Utf8.init, [c]).
Proof.
  intros Hc. unfold Utf8.step. rewrite b2n_n2b by lia.
  cbn [Utf8.st_need Utf8.init]. change (0 =? 0) with true. cbv iota.
  unfold Utf8.start. now decide_tests.
Qed.

Lemma step_continue (cp need lo hi b : N) :
  need <> 0 -> lo <= b <= hi -> b < 256 ->
  Utf8.step (Utf8.mk_state cp need lo hi) (n2b b) =
  if need =? 1 then (Utf8.init, Utf8.units_of_code_point (cp * 64 + b mod 64))
  else (Utf8.mk_state (cp * 64 + b mod 64) (need - 1) 0x80 0xBF, []).
Proof.
  intros Hn Hb Hb'. unfold Utf8.step. rewrite b2n_n2b by assumption.
  cbn [Utf8.st_need Utf8.st_lower Utf8.st_upper Utf8.st_cp].
  rewrite lor_shiftl_6.
  replace (need =? 0) with false by (symmetry; now apply N.eqb_neq).
  replace (lo <=? b) with true by (symmetry; apply N.leb_le; lia).
  replace (b <=? hi) with true by (symmetry; apply N.leb_le; lia).
  reflexivity.
Qed.

Lemma run_encode_code_point (c : N) (rest : bytes) :
  is_scalar c ->
  Utf8.run Utf8.init (Utf8.encode_code_point c ++ rest) =
  (fst (Utf8.run Utf8.init rest),
   Utf8.units_of_code_point c ++ snd (Utf8.run Utf8.init rest)).
Proof.
  intros [Hc Hs]. unfold Utf8.encode_code_point.
  destruct (N.ltb_spec c 0x80) as [H1|H1].
  { cbn [app]. rewrite run_cons, step_init_ascii by assumption.
    cbn [fst snd]. unfold Utf8.units_of_code_point. now decide_tests. }
  destruct (N.ltb_spec c 0x800) as [H2|H2].
  { cbn [app]. rewrite !N.shiftr_div_pow2, land_3F.
    change (2 ^ 6) with 64.
    rewrite lor_C0, lor_80 by div_mod_lia.
    rewrite run_cons.
    assert (E1 : Utf8.step Utf8.init (n2b (192 + c / 64)) =
                 (Utf8.mk_state (c / 64) 1 0x80 0xBF, [])).
    { unfold Utf8.step. rewrite b2n_n2b by div_mod_lia.
      cbn [Utf8.st_need Utf8.init]. change (0 =? 0) with true. cbv iota.
      unfold Utf8.start. rewrite land_1F. decide_tests. cbn [andb].
      do 2 f_equal. div_mod_lia. }
    rewrite E1. cbn [fst snd]. rewrite run_cons.
    rewrite step_continue by div_mod_lia.
    change (1 =? 1) with true. cbv iota. cbn [fst snd app].
    replace (c / 64 * 64 + (128 + c mod 64) mod 64) with c by div_mod_lia.
    reflexivity. }
  destruct (N.ltb_spec c 0x10000) as [H3|H3].
  { cbn [app]. rewrite !N.shiftr_div_pow2, !land_3F.
    change (2 ^ 6) with 64. change (2 ^ 12) with 4096.
    rewrite lor_E0, !lor_80 by div_mod_lia.
    rewrite run_cons.
    assert (E1 : Utf8.step Utf8.init (n2b (224 + c / 4096)) =
                 (Utf8.mk_state (c / 4096) 2
                    (if c / 4096 =? 0 then 0xA0 else 0x80)
                    (if c / 4096 =? 13 then 0x9F else 0xBF), [])).
    { unfold Utf8.step. rewrite b2n_n2b by div_mod_lia.
      cbn [Utf8.st_need Utf8.init]. change (0 =? 0) with true. cbv iota.
      unfold Utf8.start. rewrite land_0F.
      replace (224 + c / 4096 <=? 127) with false
        by (symmetry; apply N.leb_gt; div_mod_lia).
      replace (194 <=? 224 + c / 4096) with true
        by (symmetry; apply N.leb_le; div_mod_lia).
      replace (224 + c / 4096 <=? 223) with false
        by (symmetry; apply N.leb_gt; div_mod_lia).
      replace (224 <=? 224 + c / 4096) with true
        by (symmetry; apply N.leb_le; div_mod_lia).
      replace (224 + c / 4096 <=? 239) with true
        by (symmetry; apply N.leb_le; div_mod_lia).
      cbn [andb].
      replace ((224 + c / 4096) mod 16) with (c / 4096) by div_mod_lia.
      replace (224 + c / 4096 =? 224) with (c / 4096 =? 0)
        by (destruct (N.eqb_spec (c / 4096) 0);
            symmetry; [apply N.eqb_eq | apply N.eqb_neq]; lia).
      replace (224 + c / 4096 =? 237) with (c / 4096 =? 13)
        by (destruct (N.eqb_spec (c / 4096) 13);
            symmetry; [apply N.eqb_eq | apply N.eqb_neq]; lia).
      reflexivity. }
    rewrite E1. cbn [fst snd]. rewrite run_cons.
    rewrite step_continue.
    2: discriminate.
    2: { destruct (N.eqb_spec (c / 4096) 0); destruct (N.eqb_spec (c / 4096) 13);
         div_mod_lia. }
    2: div_mod_lia.
    change (2 =? 1) with false. cbv iota. cbn [fst snd app].
    rewrite run_cons. change (2 - 1) with 1.
    rewrite step_continue by div_mod_lia.
    change (1 =? 1) with true. cbv iota. cbn [fst snd app].
    replace ((c / 4096 * 64 + (128 + (c / 64) mod 64) mod 64) * 64
             + (128 + c mod 64) mod 64) with c by div_mod_lia.
    unfold Utf8.units_of_code_point.
    replace (c <? 65536) with true by (symmetry; apply N.ltb_lt; lia).
    reflexivity. }
  cbn [app]. rewrite !N.shiftr_div_pow2, !land_3F.
  change (2 ^ 6) with 64. change (2 ^ 12) with 4096. change (2 ^ 18) with 262144.
  rewrite lor_F0, !lor_80 by div_mod_lia.
  rewrite run_cons.
  assert (E1 : Utf8.step Utf8.init (n2b (240 + c / 262144)) =
               (Utf8.mk_state (c / 262144) 3
                  (if c / 262144 =? 0 then 0x90 else 0x80)
                  (if c / 262144 =? 4 then 0x8F else 0xBF), [])).
  { unfold Utf8.step. rewrite b2n_n2b by div_mod_lia.
    cbn [Utf8.st_need Utf8.init]. change (0 =? 0) with true. cbv iota.
    unfold Utf8.start. rewrite land_07.
    replace (240 + c / 262144 <=? 127) with false
      by (symmetry; apply N.leb_gt; div_mod_lia).
    replace (194 <=? 240 + c / 262144) with true
      by (symmetry; apply N.leb_le; div_mod_lia).
    replace (240 + c / 262144 <=? 223) with false
      by (symmetry; apply N.leb_gt; div_mod_lia).
    replace (224 <=? 240 + c / 262144) with true
      by (symmetry; apply N.leb_le; div_mod_lia).
    replace (240 + c / 262144 <=? 239) with false
      by (symmetry; apply N.leb_gt; div_mod_lia).
    replace (240 <=? 240 + c / 262144) with true
      by (symmetry; apply N.leb_le; div_mod_lia).
    replace (240 + c / 262144 <=? 244) with true
      by (symmetry; apply N.leb_le; div_mod_lia).
    cbn [andb].
    replace ((240 + c / 262144) mod 8) with (c / 262144) by div_mod_lia.
    replace (240 + c / 262144 =? 240) with (c / 262144 =? 0)
      by (destruct (N.eqb_spec (c / 262144) 0);
          symmetry; [apply N.eqb_eq | apply N.eqb_neq]; lia).
    replace (240 + c / 262144 =? 244) with (c / 262144 =? 4)
      by (destruct (N.eqb_spec (c / 262144) 4);
          symmetry; [apply N.eqb_eq | apply N.eqb_neq]; lia).
    reflexivity. }
  rewrite E1. cbn [fst snd]. rewrite run_cons.
  rewrite step_continue.
  2: discriminate.
  2: { destruct (N.eqb_spec (c / 262144) 0); destruct (N.eqb_spec (c / 262144) 4);
       div_mod_lia. }
  2: div_mod_lia.
  change (3 =? 1) with false. cbv iota. cbn [fst snd app].
  rewrite run_cons. change (3 - 1) with 2.
  rewrite step_continue by div_mod_lia.
  change (2 =? 1) with false. cbv iota. cbn [fst snd app].
  rewrite run_cons. change (2 - 1) with 1.
  rewrite step_continue by div_mod_lia.
  change (1 =? 1) with true. cbv iota. cbn [fst snd app].
  replace (((c / 262144 * 64 + (128 + (c / 4096) mod 64) mod 64) * 64
            + (128 + (c / 64) mod 64) mod 64) * 64
           + (128 + c mod 64) mod 64) with c by div_mod_lia.
  reflexivity.
Qed.

Lemma units_bmp (c : N) : c < 0x10000 -> Utf8.units_of_code_point c = [c].
Proof.
  intros. unfold Utf8.units_of_code_point.
  now replace (c <? 65536) with true by (symmetry; apply N.ltb_lt; lia).
Qed.

Lemma surrogate_bounds (h l : N) :
  is_high_surrogate h = true -> is_low_surrogate l = true ->
  0xD800 <= h <= 0xDBFF /\ 0xDC00 <= l <= 0xDFFF.
Proof.
  unfold is_high_surrogate, is_low_surrogate.
  rewrite !andb_true_iff, !N.leb_le. tauto.
Qed.

Lemma combine_val (h l : N) :
  Utf8.combine_surrogates h l = 0x10000 + (h - 0xD800) * 1024 + (l - 0xDC00).
Proof. unfold Utf8.combine_surrogates. now rewrite N.shiftl_mul_pow2. Qed.

Lemma units_combine (h l : N) :
  is_high_surrogate h = true -> is_low_surrogate l = true ->
  Utf8.units_of_code_point (Utf8.combine_surrogates h l) = [h; l].
Proof.
  intros Hh Hl. destruct (surrogate_bounds h l Hh Hl) as [Bh Bl].
  rewrite combine_val. unfold Utf8.units_of_code_point.
  replace (_ <? 65536) with false by (symmetry; apply N.ltb_ge; lia).
  rewrite N.shiftr_div_pow2, land_3FF. change (2 ^ 10) with 1024.
  f_equal; [|f_equal]; div_mod_lia.
Qed.

Lemma combine_scalar (h l : N) :
  is_high_surrogate h = true -> is_low_surrogate l = true ->
  is_scalar (Utf8.combine_surrogates h l).
Proof.
  intros Hh Hl. destruct (surrogate_bounds h l Hh Hl) as [Bh Bl].
  rewrite combine_val. unfold is_scalar. lia.
Qed.

(** The shape of a well-formed string. *)
Lemma isWellFormed_cases (s : jsstring) :
  isWellFormed s = true ->
  s = [] \/
  (exists h l s', s = h :: l :: s' /\ is_high_surrogate h = true /\
                  is_low_surrogate l = true /\ isWellFormed s' = true) \/
  (exists u s', s = u :: s' /\ is_high_surrogate u = false /\
                is_low_surrogate u = false /\ u < 0x10000 /\
                isWellFormed s' = true).
Proof.
  destruct s as [|u s']; [now left|]. intros H. right.
  cbn [isWellFormed] in H.
  destruct (is_high_surrogate u) eqn:Hu.
  - left. destruct s' as [|l s'']; [discriminate|].
    apply andb_true_iff in H as [H1 H2]. now exists u, l, s''.
  - right. apply andb_true_iff in H as [H1 H2].
    apply andb_true_iff in H1 as [H0 H1].
    apply negb_true_iff in H1. apply N.ltb_lt in H0.
    now exists u, s'.
Qed.

(** Decoding the encoding of a well-formed string gives the string back
    and leaves the decoder where it started. *)
Lemma run_encode (s : jsstring) (rest : bytes) :
  isWellFormed s = true ->
  Utf8.run Utf8.init (Utf8.encode s ++ rest) =
  (fst (Utf8.run Utf8.init rest), s ++ snd (Utf8.run Utf8.init rest)).
Proof.
  remember (length s) as n eqn:Hn. revert s Hn.
  induction n as [n IH] using lt_wf_ind. intros s Hn Hwf.
  destruct (isWellFormed_cases s Hwf)
    as [-> | [(h & l & s' & -> & Hh & Hl & Hs') | (u & s' & -> & Hh & Hl & Hu & Hs')]].
  - cbn [Utf8.encode app]. now destruct (Utf8.run Utf8.init rest).
  - cbn [Utf8.encode]. rewrite Hh, Hl. rewrite <- app_assoc.
    rewrite run_encode_code_point by now apply combine_scalar.
    rewrite (IH (length s')) by (cbn [length] in Hn; first [lia | reflexivity | assumption]).
    cbn [fst snd]. now rewrite units_combine.
  - cbn [Utf8.encode]. rewrite Hh, Hl. rewrite <- app_assoc.
    assert (Hsc : is_scalar u).
    { unfold is_scalar. split; [lia|]. intros [A B].
      unfold is_high_surrogate, is_low_surrogate in Hh, Hl.
      apply andb_false_iff in Hh. apply andb_false_iff in Hl.
      rewrite !N.leb_gt in Hh, Hl. lia. }
    rewrite run_encode_code_point by assumption.
    rewrite (IH (length s')) by (cbn [length] in Hn; first [lia | reflexivity | assumption]).
    cbn [fst snd]. now rewrite units_bmp.
Qed.

Theorem utf8_decode_encode (s : jsstring) :
  isWellFormed s = true -> Utf8.decode (Utf8.encode s) = s.
Proof.
  intros Hwf. unfold Utf8.decode.
  rewrite <- (app_nil_r (Utf8.encode s)).
  rewrite run_encode by assumption.
  cbn. now rewrite !app_nil_r.
Qed.

(** ASCII text: one byte per character, either way. *)
Lemma encode_ascii_text (s : jsstring) :
  Forall (fun u => u < 128) s -> Utf8.encode s = map n2b s.
Proof.
  induction 1 as [|u s Hu _ IH]; [reflexivity|].
  cbn [Utf8.encode map].
  unfold is_high_surrogate, is_low_surrogate.
  replace (55296 <=? u) with false by (symmetry; apply N.leb_gt; lia).
  replace (56320 <=? u) with false by (symmetry; apply N.leb_gt; lia).
  cbn [andb]. unfold Utf8.encode_code_point.
  replace (u <? 128) with true by (symmetry; apply N.ltb_lt; lia).
  cbn [app]. now rewrite IH.
Qed.

Lemma ascii_wellFormed (s : jsstring) :
  Forall (fun u => u < 128) s -> isWellFormed s = true.
Proof.
  induction 1 as [|u s Hu _ IH]; [reflexivity|].
  cbn [isWellFormed]. unfold is_high_surrogate, is_low_surrogate.
  replace (55296 <=? u) with false by (symmetry; apply N.leb_gt; lia).
  replace (56320 <=? u) with false by (symmetry; apply N.leb_gt; lia).
  cbn [andb negb]. rewrite IH.
  now replace (u <? 65536) with true by (symmetry; apply N.ltb_lt; lia).
Qed.

Lemma run_ascii_bytes (bs : bytes) :
  Forall (fun b => b2n b < 128) bs ->
  Utf8.run Utf8.init bs = (Utf8.init, map b2n bs).
Proof.
  induction 1 as [|b bs Hb _ IH]; [reflexivity|].
  rewrite run_cons.
  assert (E : Utf8.step Utf8.init b = (Utf8.init, [b2n b])).
  { rewrite <- (n2b_b2n b) at 1. now apply step_init_ascii. }
  rewrite E. cbn [fst snd]. now rewrite IH.
Qed.

Lemma ascii_bytes_of_text (s : jsstring) :
  Forall (fun u => u < 128) s -> Forall (fun b => b2n b < 128) (map n2b s).
Proof.
  induction 1 as [|u s Hu _ IH]; constructor; [|assumption].
  rewrite b2n_n2b; lia.
Qed.

(** ** Lists cut into pieces *)

Lemma firstn_app_exact {A} (n : nat) (a b : list A) :
  length a = n -> firstn n (a ++ b) = a.
Proof.
  intros <-. rewrite firstn_app, Nat.sub_diag, firstn_all.
  cbn. apply app_nil_r.
Qed.

Lemma skipn_app_exact {A} (n : nat) (a b : list A) :
  length a = n -> skipn n (a ++ b) = b.
Proof.
  intros <-. rewrite skipn_app, Nat.sub_diag, skipn_all. reflexivity.
Qed.

Lemma firstn_add {A} (n m : nat) (l : list A) :
  firstn (n + m) l = firstn n l ++ firstn m (skipn n l).
Proof.
  revert l. induction n as [|n IH]; intros [|x l]; cbn; try reflexivity.
  - now rewrite firstn_nil.
  - now rewrite IH.
Qed.

Lemma firstn_app_le {A} (n : nat) (a b : list A) :
  (n <= length a)%nat -> firstn n (a ++ b) = firstn n a.
Proof.
  intros H. rewrite firstn_app.
  replace (n - length a)%nat with 0%nat by lia.
  cbn. apply app_nil_r.
Qed.

Lemma skipn_app_le {A} (n : nat) (a b : list A) :
  (n <= length a)%nat -> skipn n (a ++ b) = skipn n a ++ b.
Proof.
  intros H. rewrite skipn_app.
  now replace (n - length a)%nat with 0%nat by lia.
Qed.

Lemma Forall_firstn {A} (Q : A -> Prop) (n : nat) (l : list A) :
  Forall Q l -> Forall Q (firstn n l).
Proof.
  intros H. revert n. induction H as [|x l Hx _ IH]; intros [|n]; cbn;
    try constructor; auto.
Qed.

Lemma Forall_skipn {A} (Q : A -> Prop) (n : nat) (l : list A) :
  Forall Q l -> Forall Q (skipn n l).
Proof.
  intros H. revert n. induction H as [|x l Hx Hl IH]; intros [|n]; cbn;
    try constructor; auto.
Qed.

(** ** XOR of blocks *)

Lemma xor_bits_cancel (a b : byte) :
  Cipher.xor_bits (Cipher.xor_bits a b) b = a.
Proof.
  unfold Cipher.xor_bits.
  rewrite <- (Byte.of_bits_to_bits a) at 2.
  destruct (Byte.to_bits a) as (a0 & a1 & a2 & a3 & a4 & a5 & a6 & a7).
  destruct (Byte.to_bits b) as (b0 & b1 & b2 & b3 & b4 & b5 & b6 & b7).
  rewrite Byte.to_bits_of_bits.
  rewrite !xorb_assoc, !xorb_nilpotent, !xorb_false_r. reflexivity.
Qed.

Lemma xor_block_length (a b : bytes) :
  length a = length b -> length (Cipher.xor_block a b) = length a.
Proof.
  intros H. unfold Cipher.xor_block.
  rewrite length_map, length_combine. lia.
Qed.

Lemma xor_block_cancel (a b : bytes) :
  length a = length b -> Cipher.xor_block (Cipher.xor_block a b) b = a.
Proof.
  revert b. induction a as [|x a IH]; intros [|y b] H; try discriminate.
  - reflexivity.
  - unfold Cipher.xor_block in *. cbn [combine map fst snd].
    rewrite xor_bits_cancel. f_equal. apply IH. now injection H.
Qed.

(** ** CBC over whole blocks *)

Section Blocks.
Context {P : Platform} {L : PlatformLaws P}.
Variable k : bytes.
Hypothesis Hk : length k = 32%nat.

Lemma encrypt_blocks_fst_length (n : nat) : forall ch data,
  length ch = 16%nat -> (16 * n <= length data)%nat ->
  length (fst (Cipher.encrypt_blocks k ch n data)) = (16 * n)%nat /\
  length (snd (Cipher.encrypt_blocks k ch n data)) = 16%nat.
Proof.
  induction n as [|n IH]; intros ch data Hch Hd.
  - cbn. split; [reflexivity | assumption].
  - cbn [Cipher.encrypt_blocks].
    set (c := aes_encrypt_block k _).
    assert (Hc : length c = 16%nat).
    { apply aes_encrypt_length; [assumption|].
      rewrite xor_block_length; unfold Cipher.block_size;
        rewrite length_firstn; lia. }
    specialize (IH c (skipn Cipher.block_size data) Hc).
    destruct (Cipher.encrypt_blocks k c n (skipn Cipher.block_size data))
      as [out ch'].
    cbn [fst snd] in *.
    rewrite length_app, Hc.
    destruct IH as [IH1 IH2].
    { rewrite length_skipn. unfold Cipher.block_size. lia. }
    split; [lia | assumption].
Qed.

(** Every whole block that was encrypted decrypts to what it was, and
    both directions end with the same chain value. *)
Lemma decrypt_encrypt_blocks (n : nat) : forall ch data tail,
  length ch = 16%nat -> (16 * n <= length data)%nat ->
  Cipher.decrypt_blocks k ch n
    (fst (Cipher.encrypt_blocks k ch n data) ++ tail) =
  (firstn (16 * n) data, snd (Cipher.encrypt_blocks k ch n data)).
Proof.
  induction n as [|n IH]; intros ch data tail Hch Hd.
  - reflexivity.
  - cbn [Cipher.encrypt_blocks Cipher.decrypt_blocks].
    set (blk := firstn Cipher.block_size data).
    set (c := aes_encrypt_block k (Cipher.xor_block blk ch)).
    assert (Hblk : length blk = 16%nat).
    { unfold blk, Cipher.block_size. rewrite length_firstn. lia. }
    assert (Hx : length (Cipher.xor_block blk ch) = 16%nat).
    { rewrite xor_block_length; lia. }
    assert (Hc : length c = 16%nat) by now apply aes_encrypt_length.
    specialize (IH c (skipn Cipher.block_size data) tail Hc).
    destruct (Cipher.encrypt_blocks k c n (skipn Cipher.block_size data))
      as [out ch'].
    cbn [fst snd] in *.
    rewrite <- app_assoc.
    rewrite (firstn_app_exact Cipher.block_size c) by exact Hc.
    rewrite (skipn_app_exact Cipher.block_size c) by exact Hc.
    rewrite IH by (rewrite length_skipn; unfold Cipher.block_size; lia).
    unfold c. rewrite aes_decrypt_encrypt by assumption.
    rewrite xor_block_cancel by lia.
    f_equal. unfold blk, Cipher.block_size.
    replace (16 * S n)%nat with (16 + 16 * n)%nat by lia.
    now rewrite firstn_add.
Qed.
End Blocks.

(** The two loops do not look past the blocks they are asked for, and a
    run of [n + m] blocks is a run of [n] followed by a run of [m]. *)
Section Loops.
Context {P : Platform}.

Lemma encrypt_blocks_app (k : bytes) (n : nat) : forall ch data more,
  (16 * n <= length data)%nat ->
  Cipher.encrypt_blocks k ch n (data ++ more) = Cipher.encrypt_blocks k ch n data.
Proof.
  induction n as [|n IH]; intros ch data more Hd; [reflexivity|].
  cbn [Cipher.encrypt_blocks]. unfold Cipher.block_size.
  rewrite firstn_app_le, skipn_app_le by lia.
  rewrite IH by (rewrite length_skipn; lia). reflexivity.
Qed.

Lemma decrypt_blocks_app (k : bytes) (n : nat) : forall ch data more,
  (16 * n <= length data)%nat ->
  Cipher.decrypt_blocks k ch n (data ++ more) = Cipher.decrypt_blocks k ch n data.
Proof.
  induction n as [|n IH]; intros ch data more Hd; [reflexivity|].
  cbn [Cipher.decrypt_blocks]. unfold Cipher.block_size.
  rewrite firstn_app_le, skipn_app_le by lia.
  rewrite IH by (rewrite length_skipn; lia). reflexivity.
Qed.

Lemma encrypt_blocks_add (k : bytes) (n m : nat) : forall ch data,
  Cipher.encrypt_blocks k ch (n + m) data =
  (fst (Cipher.encrypt_blocks k ch n data)
     ++ fst (Cipher.encrypt_blocks k (snd (Cipher.encrypt_blocks k ch n data)) m
               (skipn (16 * n) data)),
   snd (Cipher.encrypt_blocks k (snd (Cipher.encrypt_blocks k ch n data)) m
          (skipn (16 * n) data))).
Proof.
  induction n as [|n IH]; intros ch data.
  - cbn [Nat.add Cipher.encrypt_blocks fst snd app Nat.mul skipn].
    now destruct (Cipher.encrypt_blocks k ch m data).
  - cbn [Nat.add Cipher.encrypt_blocks]. rewrite IH.
    unfold Cipher.block_size.
    destruct (Cipher.encrypt_blocks k _ n (skipn 16 data)) as [o1 c1].
    cbn [fst snd].
    replace (16 * S n)%nat with (16 * n + 16)%nat by lia.
    rewrite <- skipn_skipn. now rewrite app_assoc.
Qed.

Lemma decrypt_blocks_add (k : bytes) (n m : nat) : forall ch data,
  Cipher.decrypt_blocks k ch (n + m) data =
  (fst (Cipher.decrypt_blocks k ch n data)
     ++ fst (Cipher.decrypt_blocks k (snd (Cipher.decrypt_blocks k ch n data)) m
               (skipn (16 * n) data)),
   snd (Cipher.decrypt_blocks k (snd (Cipher.decrypt_blocks k ch n data)) m
          (skipn (16 * n) data))).
Proof.
  induction n as [|n IH]; intros ch data.
  - cbn [Nat.add Cipher.decrypt_blocks fst snd app Nat.mul skipn].
    now destruct (Cipher.decrypt_blocks k ch m data).
  - cbn [Nat.add Cipher.decrypt_blocks]. rewrite IH.
    unfold Cipher.block_size.
    destruct (Cipher.decrypt_blocks k _ n (skipn 16 data)) as [o1 c1].
    cbn [fst snd].
    replace (16 * S n)%nat with (16 * n + 16)%nat by lia.
    rewrite <- skipn_skipn. now rewrite app_assoc.
Qed.
End Loops.

(** ** String decoders, seen from all the bytes written to them *)

Lemma decoder_after_nil (enc : Encoding) :
  Session.decoder_after enc [] = StringDecoder.create enc.
Proof. now destruct enc. Qed.

Lemma text_after_nil (enc : Encoding) : Session.text_after enc [] = [].
Proof. now destruct enc. Qed.

Lemma decoder_after_encoding (enc : Encoding) (X : bytes) :
  StringDecoder.encoding (Session.decoder_after enc X) = enc.
Proof. now destruct enc. Qed.

Lemma cut3_app (X y : bytes) :
  let m := (length X / 3 * 3)%nat in
  let n := (length (skipn m X ++ y) / 3 * 3)%nat in
  (length (X ++ y) / 3 * 3 = m + n)%nat /\ (m <= length X)%nat /\ (m mod 3 = 0)%nat.
Proof.
  cbv zeta. rewrite !length_app, length_skipn. split; [|split]; div_mod_lia.
Qed.

Lemma write_after (enc : Encoding) (X y : bytes) :
  exists t,
    StringDecoder.write (Session.decoder_after enc X) y =
      (Session.decoder_after enc (X ++ y), t) /\
    Session.text_after enc (X ++ y) = Session.text_after enc X ++ t.
Proof.
  destruct enc.
  - (* utf8 *)
    cbn [Session.decoder_after Session.text_after StringDecoder.write].
    rewrite run_app. cbn [fst snd].
    destruct (Utf8.run (fst (Utf8.run Utf8.init X)) y) as [st' out] eqn:E.
    exists out. cbn [fst snd]. split; reflexivity.
  - (* base64 *)
    cbn [Session.decoder_after Session.text_after StringDecoder.write].
    destruct (cut3_app X y) as (E & Hm & Hm3). cbv zeta in E.
    set (m := (length X / 3 * 3)%nat) in *.
    set (all := skipn m X ++ y) in *.
    set (n := (length all / 3 * 3)%nat) in *.
    exists (Base64.encode (firstn n all)). rewrite E.
    assert (Hall : skipn m (X ++ y) = all).
    { unfold all. now rewrite skipn_app_le. }
    split.
    + f_equal. f_equal. rewrite Nat.add_comm, <- skipn_skipn. now rewrite Hall.
    + rewrite firstn_add, Hall. rewrite firstn_app_le by assumption.
      apply encode_app. rewrite length_firstn.
      replace (Nat.min m (length X)) with m by lia. assumption.
Qed.

Lemma end_after (enc : Encoding) (X y : bytes) :
  Session.text_after enc X ++ StringDecoder.end_ (Session.decoder_after enc X) y
  = Buffer.toString (X ++ y) enc.
Proof.
  destruct enc.
  - cbn [Session.decoder_after Session.text_after StringDecoder.end_ Buffer.toString].
    unfold Utf8.decode. rewrite run_app.
    destruct (Utf8.run (fst (Utf8.run Utf8.init X)) y) as [st' out].
    cbn [fst snd]. now rewrite app_assoc.
  - cbn [Session.decoder_after Session.text_after StringDecoder.end_ Buffer.toString].
    destruct (cut3_app X []) as (_ & Hm & Hm3). cbv zeta in Hm, Hm3.
    set (m := (length X / 3 * 3)%nat) in *.
    rewrite <- encode_app.
    + now rewrite app_assoc, firstn_skipn.
    + rewrite length_firstn. replace (Nat.min m (length X)) with m by lia.
      assumption.
Qed.

Section GetDecoder.
Context {P : Platform}.

Lemma getDecoder_ok (enc : Encoding) (X : bytes) (d : option StringDecoder.t) :
  Session.decoder_ok enc X d ->
  Cipher.getDecoder d enc = Ok (Session.decoder_after enc X).
Proof.
  intros [[-> ->] | ->]; cbn [Cipher.getDecoder].
  - now rewrite decoder_after_nil.
  - rewrite decoder_after_encoding. now destruct enc.
Qed.
End GetDecoder.

(** ** [update] and [final], seen from the whole input *)

Section Transform.
Context {P : Platform}.
Variables (k iv : bytes).

Lemma transform_enc (I x : bytes) (d : option StringDecoder.t) :
  exists out,
    Cipher.transform (Session.enc_ctx k iv I d) x =
      (Session.enc_ctx k iv (I ++ x) d, out) /\
    fst (Session.enc_blocks k iv (I ++ x)) = fst (Session.enc_blocks k iv I) ++ out.
Proof.
  unfold Cipher.transform, Session.enc_ctx.
  cbn [Cipher.dir Cipher.buf Cipher.key Cipher.chain Cipher.decoder].
  unfold Cipher.block_size.
  set (n0 := (length I / 16)%nat).
  set (data := skipn (n0 * 16) I ++ x).
  set (n := (length data / 16)%nat).
  assert (Hn0 : (16 * n0 <= length I)%nat) by (unfold n0; div_mod_lia).
  assert (Hn1 : (length (I ++ x) / 16 = n0 + n)%nat).
  { unfold n, data, n0. rewrite !length_app, length_skipn. div_mod_lia. }
  assert (Hdata : skipn (16 * n0) (I ++ x) = data).
  { unfold data. rewrite skipn_app_le by assumption.
    now rewrite (Nat.mul_comm 16 n0). }
  unfold Session.enc_blocks. rewrite Hn1.
  rewrite encrypt_blocks_add.
  rewrite encrypt_blocks_app by assumption.
  fold n0. rewrite Hdata.
  destruct (Cipher.encrypt_blocks k
              (snd (Cipher.encrypt_blocks k iv n0 I)) n data) as [out ch] eqn:E.
  exists out. cbn [fst snd]. split; [|reflexivity].
  do 2 f_equal.
  rewrite <- Hdata, skipn_skipn. f_equal. lia.
Qed.

Lemma transform_dec (C x : bytes) (d : option StringDecoder.t) :
  exists out,
    Cipher.transform (Session.dec_ctx k iv C d) x =
      (Session.dec_ctx k iv (C ++ x) d, out) /\
    fst (Session.dec_blocks k iv (C ++ x)) = fst (Session.dec_blocks k iv C) ++ out.
Proof.
  unfold Cipher.transform, Session.dec_ctx.
  cbn [Cipher.dir Cipher.buf Cipher.key Cipher.chain Cipher.decoder].
  unfold Cipher.block_size.
  set (n0 := ((length C - 1) / 16)%nat).
  set (data := skipn (n0 * 16) C ++ x).
  set (n := ((length data - 1) / 16)%nat).
  assert (Hn0 : (16 * n0 <= length C)%nat) by (unfold n0; div_mod_lia).
  assert (Hn1 : ((length (C ++ x) - 1) / 16 = n0 + n)%nat).
  { unfold n, data, n0. rewrite !length_app, length_skipn. div_mod_lia. }
  assert (Hdata : skipn (16 * n0) (C ++ x) = data).
  { unfold data. rewrite skipn_app_le by assumption.
    now rewrite (Nat.mul_comm 16 n0). }
  unfold Session.dec_blocks. rewrite Hn1.
  rewrite decrypt_blocks_add.
  rewrite decrypt_blocks_app by assumption.
  fold n0. rewrite Hdata.
  destruct (Cipher.decrypt_blocks k
              (snd (Cipher.decrypt_blocks k iv n0 C)) n data) as [out ch] eqn:E.
  exists out. cbn [fst snd]. split; [|reflexivity].
  do 2 f_equal.
  rewrite <- Hdata, skipn_skipn. f_equal. lia.
Qed.

Lemma transform_ctx (dir : Cipher.direction) (I x : bytes)
    (d : option StringDecoder.t) :
  exists out,
    Cipher.transform (Session.ctx k iv dir I d) x =
      (Session.ctx k iv dir (I ++ x) d, out) /\
    Session.produced k iv dir (I ++ x) = Session.produced k iv dir I ++ out.
Proof.
  destruct dir; [apply transform_enc | apply transform_dec].
Qed.

Lemma ctx_fields (dir : Cipher.direction) (I : bytes) (d d' : option StringDecoder.t) :
  Cipher.mk (Cipher.dir (Session.ctx k iv dir I d))
            (Cipher.key (Session.ctx k iv dir I d))
            (Cipher.chain (Session.ctx k iv dir I d))
            (Cipher.buf (Session.ctx k iv dir I d)) d'
  = Session.ctx k iv dir I d'.
Proof. now destruct dir. Qed.

Lemma ctx_decoder (dir : Cipher.direction) (I : bytes) (d : option StringDecoder.t) :
  Cipher.decoder (Session.ctx k iv dir I d) = d.
Proof. now destruct dir. Qed.

(** One [update]: the context follows the input, and the text returned
    continues the text returned before. *)
Lemma update_tracks (dir : Cipher.direction) (enc : Encoding) (I : bytes)
    (c : Cipher.t) (data : jsstring) (inEnc : Encoding) :
  Session.tracks dir k iv enc I c ->
  exists c' t,
    Cipher.update c data inEnc enc = Ok (c', t) /\
    Session.tracks dir k iv enc (I ++ Buffer.from data inEnc) c' /\
    Session.text_after enc (Session.produced k iv dir (I ++ Buffer.from data inEnc))
    = Session.text_after enc (Session.produced k iv dir I) ++ t.
Proof.
  intros (d & -> & Hd).
  unfold Cipher.update.
  destruct (transform_ctx dir I (Buffer.from data inEnc) d) as (out & Et & Ep).
  rewrite Et. rewrite ctx_decoder.
  rewrite (getDecoder_ok enc _ d Hd). cbn [bind].
  destruct (write_after enc (Session.produced k iv dir I) out) as (t & Ew & Etxt).
  rewrite Ew. rewrite ctx_fields.
  eexists _, t. split; [reflexivity|]. rewrite Ep. split.
  - eexists. split; [reflexivity|]. right. now rewrite Ep.
  - exact Etxt.
Qed.

Lemma create_tracks (dir : Cipher.direction) (enc : Encoding) (algorithm : string)
    (c : Cipher.t) :
  Cipher.create dir algorithm k iv = Ok c ->
  Session.tracks dir k iv enc [] c /\ length k = 32%nat /\ length iv = 16%nat.
Proof.
  unfold Cipher.create.
  destruct (negb (String.eqb algorithm "aes-256-cbc")); [discriminate|].
  destruct (Nat.eqb_spec (length k) 32); [|discriminate].
  destruct (Nat.eqb_spec (length iv) 16); [|discriminate].
  cbn [negb]. intros [= <-]. split; [|split; assumption].
  exists None. split.
  - now destruct dir.
  - left. split; [reflexivity|]. now destruct dir.
Qed.

Lemma create_ok (dir : Cipher.direction) :
  length k = 32%nat -> length iv = 16%nat ->
  Cipher.create dir "aes-256-cbc" k iv = Ok (Cipher.mk dir k iv [] None).
Proof.
  intros Hk Hiv. unfold Cipher.create. cbn [String.eqb Ascii.eqb Bool.eqb negb].
  now rewrite Hk, Hiv.
Qed.

(** [final] of an encryption. *)
Lemma final_enc (enc : Encoding) (I : bytes) (c : Cipher.t) :
  Session.tracks Cipher.Encrypt k iv enc I c ->
  exists f,
    Cipher.final c enc = Ok f /\
    Session.text_after enc (Session.produced k iv Cipher.Encrypt I) ++ f
    = Buffer.toString (Session.cbc_encrypt k iv I) enc.
Proof.
  intros (d & -> & Hd).
  unfold Cipher.final, Cipher.finish.
  cbn [Session.ctx Session.enc_ctx Cipher.dir Cipher.key Cipher.buf
       Cipher.chain Cipher.decoder bind].
  rewrite (getDecoder_ok enc _ d Hd). cbn [bind].
  eexists. split; [reflexivity|].
  rewrite end_after. reflexivity.
Qed.
End Transform.

Lemma unpad_pad {P : Platform} (rest : bytes) :
  (length rest < 16)%nat ->
  Cipher.pkcs7_unpad (Cipher.pkcs7_pad rest) = Ok rest.
Proof.
  intros Hlen. unfold Cipher.pkcs7_unpad, Cipher.pkcs7_pad, Cipher.block_size.
  set (n := (16 - length rest)%nat).
  assert (Hn : (1 <= n <= 16)%nat) by (unfold n; lia).
  assert (Hlast : last (rest ++ repeat (n2b (N.of_nat n)) n) Byte.x00
                  = n2b (N.of_nat n)).
  { destruct n as [|m]; [lia|].
    replace (repeat (n2b (N.of_nat (S m))) (S m))
      with (repeat (n2b (N.of_nat (S m))) m ++ [n2b (N.of_nat (S m))]).
    - now rewrite app_assoc, last_last.
    - rewrite <- repeat_cons. reflexivity. }
  rewrite Hlast. rewrite b2n_n2b by lia. rewrite Nat2N.id.
  replace (n =? 0)%nat with false by (symmetry; apply Nat.eqb_neq; lia).
  replace (16 <? n)%nat with false by (symmetry; apply Nat.ltb_ge; lia).
  cbn [orb].
  replace (16 - n)%nat with (length rest) by (unfold n; lia).
  rewrite skipn_app_exact, firstn_app_exact by reflexivity.
  replace (forallb _ _) with true; [reflexivity|].
  symmetry. apply forallb_forall. intros b Hb.
  apply repeat_spec in Hb. subst b. rewrite b2n_n2b by lia. apply N.eqb_refl.
Qed.

Lemma pad_length {P : Platform} (rest : bytes) :
  (length rest < 16)%nat -> length (Cipher.pkcs7_pad rest) = 16%nat.
Proof.
  intros H. unfold Cipher.pkcs7_pad, Cipher.block_size.
  rewrite length_app, repeat_length. lia.
Qed.

Section Inverse.
Context {P : Platform} {L : PlatformLaws P}.
Variables (k iv : bytes).
Hypothesis (Hk : length k = 32%nat) (Hiv : length iv = 16%nat).

Lemma enc_blocks_lengths (I : bytes) :
  length (fst (Session.enc_blocks k iv I)) = (16 * (length I / 16))%nat /\
  length (snd (Session.enc_blocks k iv I)) = 16%nat.
Proof.
  unfold Session.enc_blocks.
  apply encrypt_blocks_fst_length; [assumption | assumption | div_mod_lia].
Qed.

Lemma cbc_encrypt_length (I : bytes) :
  length (Session.cbc_encrypt k iv I) = (16 * (length I / 16) + 16)%nat.
Proof.
  unfold Session.cbc_encrypt. rewrite length_app.
  destruct (enc_blocks_lengths I) as [H1 H2]. rewrite H1.
  rewrite aes_encrypt_length; [reflexivity | assumption |].
  rewrite xor_block_length; rewrite pad_length; try lia;
    rewrite length_skipn; div_mod_lia.
Qed.

(** Decrypting a prefix of a ciphertext gives a prefix of the message. *)
Lemma dec_blocks_prefix (I C' tail : bytes) :
  Session.cbc_encrypt k iv I = C' ++ tail ->
  fst (Session.dec_blocks k iv C') = firstn (16 * ((length C' - 1) / 16)) I.
Proof.
  intros HC.
  pose proof (cbc_encrypt_length I) as Hlen. rewrite HC, length_app in Hlen.
  unfold Session.dec_blocks.
  set (n' := ((length C' - 1) / 16)%nat).
  set (n0 := (length I / 16)%nat) in *.
  assert (Hle : (n' <= n0)%nat) by (unfold n'; div_mod_lia).
  assert (Hn'C : (16 * n' <= length C')%nat) by (unfold n'; div_mod_lia).
  assert (HnI : (16 * n0 <= length I)%nat) by (unfold n0; div_mod_lia).
  (* the first n' cipher blocks are the encryption of the first n' blocks *)
  pose proof (encrypt_blocks_fst_length k Hk n' iv I Hiv ltac:(lia)) as [Hl1 _].
  assert (Hpre : firstn (16 * n') C' = fst (Cipher.encrypt_blocks k iv n' I)).
  { transitivity (firstn (16 * n') (Session.cbc_encrypt k iv I)).
    - rewrite HC. now rewrite firstn_app_le.
    - unfold Session.cbc_encrypt, Session.enc_blocks. fold n0.
      replace n0 with (n' + (n0 - n'))%nat by lia.
      rewrite encrypt_blocks_add. cbn [fst snd].
      rewrite <- !app_assoc. now apply firstn_app_exact. }
  rewrite <- (firstn_skipn (16 * n') C') at 1.
  rewrite Hpre.
  rewrite (decrypt_encrypt_blocks k Hk n' iv I _ Hiv ltac:(lia)).
  reflexivity.
Qed.

(** [final] of the decryption of a whole ciphertext. *)
Lemma final_dec (enc : Encoding) (I : bytes) (c : Cipher.t) :
  Session.tracks Cipher.Decrypt k iv enc (Session.cbc_encrypt k iv I) c ->
  exists f,
    Cipher.final c enc = Ok f /\
    Session.text_after enc
      (Session.produced k iv Cipher.Decrypt (Session.cbc_encrypt k iv I)) ++ f
    = Buffer.toString I enc.
Proof.
  intros (d & -> & Hd).
  pose proof (cbc_encrypt_length I) as Hlen.
  destruct (enc_blocks_lengths I) as [Hl1 Hl2].
  set (n0 := (length I / 16)%nat) in *.
  assert (HnI : (16 * n0 <= length I)%nat) by (unfold n0; div_mod_lia).
  assert (Hrest : (length (skipn (n0 * 16) I) < 16)%nat).
  { rewrite length_skipn. unfold n0. div_mod_lia. }
  assert (Hn : ((length (Session.cbc_encrypt k iv I) - 1) / 16 = n0)%nat).
  { rewrite Hlen. div_mod_lia. }
  assert (Hdec : Session.dec_blocks k iv (Session.cbc_encrypt k iv I)
                 = (firstn (16 * n0) I, snd (Session.enc_blocks k iv I))).
  { unfold Session.dec_blocks. rewrite Hn.
    unfold Session.cbc_encrypt, Session.enc_blocks. fold n0.
    now apply decrypt_encrypt_blocks. }
  assert (Hbuf : skipn (n0 * 16) (Session.cbc_encrypt k iv I)
                 = aes_encrypt_block k
                     (Cipher.xor_block (Cipher.pkcs7_pad (skipn (n0 * 16) I))
                        (snd (Session.enc_blocks k iv I)))).
  { unfold Session.cbc_encrypt. fold n0. apply skipn_app_exact.
    rewrite Hl1. lia. }
  assert (Hx : length (Cipher.xor_block (Cipher.pkcs7_pad (skipn (n0 * 16) I))
                         (snd (Session.enc_blocks k iv I))) = 16%nat).
  { rewrite xor_block_length; rewrite pad_length; lia. }
  unfold Cipher.final, Cipher.finish.
  cbn [Session.ctx Session.dec_ctx Cipher.dir Cipher.key Cipher.buf
       Cipher.chain Cipher.decoder Session.produced] in *.
  rewrite Hn, Hdec, Hbuf in *. cbn [fst snd] in *.
  rewrite aes_encrypt_length by assumption.
  cbn [Nat.eqb negb Cipher.block_size].
  rewrite aes_decrypt_encrypt by assumption.
  rewrite xor_block_cancel by (rewrite pad_length; lia).
  rewrite unpad_pad by assumption. cbn [bind].
  rewrite (getDecoder_ok enc _ d Hd). cbn [bind].
  eexists. split; [reflexivity|].
  rewrite end_after. rewrite (Nat.mul_comm n0 16). now rewrite firstn_skipn.
Qed.
End Inverse.

(** ** The small platform satisfies the laws *)

Lemma toy_block_cancel (k b : bytes) :
  Toy.encrypt_block k (Toy.encrypt_block k b) = b.
Proof.
  unfold Toy.encrypt_block. rewrite map_map.
  rewrite <- (map_id b) at 2. apply map_ext. intros x. apply xor_bits_cancel.
Qed.

#[export] Instance toy_laws : PlatformLaws Toy.platform.
Proof.
  split.
  - intros k b _ Hb. cbn. unfold Toy.encrypt_block. now rewrite length_map.
  - intros k b _ _. cbn. apply toy_block_cancel.
  - intros d pw salt it len. cbn. unfold Toy.derive.
    rewrite length_firstn, !length_app, repeat_length. lia.
Qed.

Lemma toy_key_valid : valid_key Toy.key.
Proof. reflexivity. Qed.

Lemma toy_ivv_valid : valid_ivv Toy.ivv.
Proof. reflexivity. Qed.

(** ** Text mode *)

Section Text.
Context {P : Platform} {L : PlatformLaws P}.
Variables (key ivv : jsstring).
Hypothesis (Hkey : valid_key key) (Hivv : valid_ivv ivv).

Local Abbreviation K := (Buffer.from key base64).
Local Abbreviation IV := (Buffer.from ivv base64).

(** The ciphertext of [nativeEncryptText] is the base64 text of the CBC
    encryption of the UTF-8 bytes of the plaintext. *)
Lemma nativeEncryptText_spec (text : jsstring) :
  has_createCipheriv = true ->
  Native.nativeEncryptText key ivv text =
  Ok (Base64.encode (Session.cbc_encrypt K IV (Utf8.encode text))).
Proof.
  intros Hcap. unfold Native.nativeEncryptText. rewrite Hcap. cbn [negb].
  unfold QuickCrypto.createCipheriv, Native.alg.
  rewrite create_ok by assumption. cbn [bind].
  destruct (create_tracks K IV Cipher.Encrypt base64 _ _
              (create_ok K IV Cipher.Encrypt Hkey Hivv)) as (Ht & _ & _).
  destruct (update_tracks K IV Cipher.Encrypt base64 [] _ text utf8 Ht)
    as (c1 & t1 & E1 & Ht1 & Etxt).
  rewrite E1. cbn [bind].
  destruct (final_enc K IV base64 _ c1 Ht1) as (f & E2 & Ef).
  rewrite E2. cbn [bind]. f_equal.
  cbn [app] in Etxt, Ef.
  change (Session.produced K IV Cipher.Encrypt []) with (@nil byte) in Etxt.
  rewrite text_after_nil in Etxt. cbn [app] in Etxt.
  rewrite Etxt in Ef. exact Ef.
Qed.

(** [nativeDecryptText] on such a ciphertext returns the UTF-8 decoding
    of the message. *)
Lemma nativeDecryptText_spec (M : bytes) :
  has_createDecipheriv = true ->
  Native.nativeDecryptText key ivv (Base64.encode (Session.cbc_encrypt K IV M)) =
  Ok (Utf8.decode M).
Proof.
  intros Hcap. unfold Native.nativeDecryptText. rewrite Hcap. cbn [negb].
  unfold QuickCrypto.createDecipheriv.
  rewrite create_ok by assumption. cbn [bind].
  destruct (create_tracks K IV Cipher.Decrypt utf8 _ _
              (create_ok K IV Cipher.Decrypt Hkey Hivv)) as (Ht & _ & _).
  destruct (update_tracks K IV Cipher.Decrypt utf8 [] _
              (Base64.encode (Session.cbc_encrypt K IV M)) base64 Ht)
    as (c1 & t1 & E1 & Ht1 & Etxt).
  rewrite E1. cbn [bind].
  assert (Hfrom : Buffer.from (Base64.encode (Session.cbc_encrypt K IV M)) base64
                  = Session.cbc_encrypt K IV M) by apply decode_encode.
  rewrite Hfrom in Ht1, Etxt. cbn [app] in Ht1, Etxt.
  destruct (final_dec K IV Hkey Hivv utf8 M c1 Ht1) as (f & E2 & Ef).
  rewrite E2. cbn [bind]. f_equal.
  change (Session.produced K IV Cipher.Decrypt []) with (@nil byte) in Etxt.
  rewrite text_after_nil in Etxt. cbn [app] in Etxt.
  rewrite Etxt in Ef. exact Ef.
Qed.

(** [browserEncryptText] hands the same ciphertext to its callback. *)
Lemma browserEncryptText_spec (text : jsstring) :
  has_subtle_importKey = true ->
  Browser.browserEncryptText key ivv text =
  Ok (Base64.encode (Session.cbc_encrypt K IV (Utf8.encode text))).
Proof.
  intros Hcap. unfold Browser.browserEncryptText. rewrite Hcap. cbn [negb].
  unfold Subtle.importKey. cbn [String.eqb Ascii.eqb Bool.eqb negb].
  unfold valid_key in Hkey. rewrite Hkey. cbn [Nat.eqb orb bind].
  unfold Subtle.encrypt, Subtle.has_usage.
  cbn [Subtle.ck_algorithm Subtle.ck_usages Subtle.ck_data existsb
       String.eqb Ascii.eqb Bool.eqb andb orb negb].
  unfold valid_ivv in Hivv. rewrite Hivv. cbn [Nat.eqb negb].
  change (Cipher.mk Cipher.Encrypt K IV [] None)
    with (Session.enc_ctx K IV [] None).
  destruct (transform_enc K IV [] (Utf8.encode text) None) as (out & Et & Eo).
  rewrite Et. cbn [app] in Eo. cbn [bind Cipher.finish Session.enc_ctx Cipher.dir
                                      Cipher.key Cipher.buf Cipher.chain].
  cbn [Buffer.toString]. unfold Session.cbc_encrypt. cbn [app].
  now rewrite Eo.
Qed.
End Text.

(** C1 (amended).  For every key (32 bytes in base64), every IVV (16 bytes
    in base64) and every well-formed plaintext string, also the empty one,
    text-mode encryption succeeds and decrypting its result with the same
    key and IVV returns the plaintext. *)
Theorem text_round_trip {P : Platform} {L : PlatformLaws P}
    (key ivv T : jsstring) :
  has_createCipheriv = true -> has_createDecipheriv = true ->
  valid_key key -> valid_ivv ivv ->
  isWellFormed T = true ->
  exists c,
    Native.nativeEncryptText key ivv T = Ok c /\
    Native.nativeDecryptText key ivv c = Ok T.
Proof.
  intros Hc Hd Hkey Hivv Hwf.
  eexists. split.
  - now apply nativeEncryptText_spec.
  - rewrite nativeDecryptText_spec by assumption.
    now rewrite utf8_decode_encode.
Qed.

(** A string with an unpaired surrogate does not come back: whatever the
    platform, the surrogate returns as U+FFFD. *)
Lemma unpaired_surrogate_lost {P : Platform} {L : PlatformLaws P}
    (key ivv : jsstring) :
  has_createCipheriv = true -> has_createDecipheriv = true ->
  valid_key key -> valid_ivv ivv ->
  exists c,
    Native.nativeEncryptText key ivv [0xD800] = Ok c /\
    Native.nativeDecryptText key ivv c = Ok [0xFFFD].
Proof.
  intros Hc Hd Hkey Hivv. eexists. split.
  - now apply nativeEncryptText_spec.
  - rewrite nativeDecryptText_spec by assumption. reflexivity.
Qed.

(** C8.  For every key (32 bytes in base64) and every IVV (16 bytes in
    base64), text-mode encryption of the empty plaintext succeeds, and its result is not empty: it is the base64 text,
    24 characters long, of the one block that holds the padding.  Where the
    browser provider is present, [browserEncryptText] hands the same text
    to its callback. *)
Theorem encrypt_empty_text {P : Platform} {L : PlatformLaws P}
    (key ivv : jsstring) :
  has_createCipheriv = true ->
  valid_key key -> valid_ivv ivv ->
  exists c,
    Native.nativeEncryptText key ivv [] = Ok c /\
    c <> [] /\
    c = Base64.encode
          (aes_encrypt_block (Buffer.from key base64)
             (Cipher.xor_block (repeat (n2b 16) 16) (Buffer.from ivv base64))) /\
    length c = 24%nat /\
    (has_subtle_importKey = true -> Browser.browserEncryptText key ivv [] = Ok c).
Proof.
  intros Hc Hkey Hivv. eexists. split; [now apply nativeEncryptText_spec|].
  assert (E : Session.cbc_encrypt (Buffer.from key base64) (Buffer.from ivv base64)
                (Utf8.encode [])
              = aes_encrypt_block (Buffer.from key base64)
                  (Cipher.xor_block (repeat (n2b 16) 16) (Buffer.from ivv base64)))
    by reflexivity.
  assert (Hlen : length (Base64.encode
                   (Session.cbc_encrypt (Buffer.from key base64)
                      (Buffer.from ivv base64) (Utf8.encode []))) = 24%nat).
  { rewrite encode_length, cbc_encrypt_length by assumption. reflexivity. }
  split; [|split; [|split]].
  - intros H. rewrite H in Hlen. discriminate.
  - now rewrite E.
  - exact Hlen.
  - intros Hb. now apply browserEncryptText_spec.
Qed.

(** ** Stream operations *)

Lemma write_all_chunks (ws : list jsstring) (w : WriteStream) :
  ws_chunks (Run.write_all ws w) =
    ws_chunks w ++ map (fun d => Buffer.from d (ws_encoding w)) ws /\
  ws_encoding (Run.write_all ws w) = ws_encoding w /\
  ws_id (Run.write_all ws w) = ws_id w /\
  ws_append (Run.write_all ws w) = ws_append w.
Proof.
  revert w. induction ws as [|d ws IH]; intros w.
  - cbn. now rewrite app_nil_r.
  - cbn [Run.write_all fold_left]. fold (Run.write_all ws (ws_write d w)).
    destruct (IH (ws_write d w)) as (E1 & E2 & E3 & E4).
    rewrite E1, E2, E3, E4. cbn [ws_write ws_chunks ws_encoding ws_id ws_append map].
    now rewrite <- app_assoc.
Qed.

Lemma write_all_app (a b : list jsstring) (w : WriteStream) :
  Run.write_all (a ++ b) w = Run.write_all b (Run.write_all a w).
Proof. unfold Run.write_all. apply fold_left_app. Qed.

Section Handlers.
Context {P : Platform}.

Lemma encrypt_onData_eq : Native.encrypt_onData = Run.onData utf8 base64.
Proof. reflexivity. Qed.

Lemma decrypt_onData_eq : Native.decrypt_onData = Run.onData base64 utf8.
Proof. reflexivity. Qed.

Variables (k iv : bytes) (dir : Cipher.direction) (inEnc outEnc : Encoding).

(** The handlers of a run of chunks, one after the other. *)
Lemma onData_fold (chunks : list jsstring) : forall (op : operation) (I : bytes),
  Session.tracks dir k iv outEnc I (op_cipher op) ->
  exists writes,
    Run.feeds dir k iv inEnc outEnc I chunks writes /\
    Session.tracks dir k iv outEnc (I ++ Run.input_bytes inEnc chunks)
      (op_cipher (fold_left (Run.onData inEnc outEnc) chunks op)) /\
    op_input (fold_left (Run.onData inEnc outEnc) chunks op) = op_input op /\
    op_promise (fold_left (Run.onData inEnc outEnc) chunks op) = op_promise op /\
    op_output (fold_left (Run.onData inEnc outEnc) chunks op)
      = Run.write_all writes (op_output op) /\
    op_trace (fold_left (Run.onData inEnc outEnc) chunks op)
      = op_trace op ++ Run.data_actions chunks writes.
Proof.
  induction chunks as [|c cs IH]; intros op I Ht.
  - exists []. cbn [fold_left Run.input_bytes map concat Run.data_actions combine
                    Run.write_all].
    rewrite !app_nil_r. repeat split; try assumption. constructor.
  - cbn [fold_left].
    destruct (update_tracks k iv dir outEnc I (op_cipher op) c inEnc Ht)
      as (c' & w & Eu & Ht' & Etxt).
    assert (E1 : Run.onData inEnc outEnc op c =
                 mk_op c' (op_input op) (ws_write w (op_output op))
                       (op_trace op ++ [Updated c; Written w]) (op_promise op)).
    { unfold Run.onData. now rewrite Eu. }
    rewrite E1.
    destruct (IH (mk_op c' (op_input op) (ws_write w (op_output op))
                    (op_trace op ++ [Updated c; Written w]) (op_promise op))
                 (I ++ Buffer.from c inEnc) Ht')
      as (ws & Hf & Htr & Hin & Hpr & Hout & Htrace).
    exists (w :: ws).
    cbn [op_cipher op_input op_output op_trace op_promise] in *.
    rewrite Hin, Hpr, Hout, Htrace.
    unfold Run.input_bytes in *. cbn [map concat]. rewrite app_assoc.
    repeat split; try assumption; try reflexivity.
    + now constructor.
    + unfold Run.data_actions. cbn [combine map concat fst snd].
      now rewrite <- app_assoc.
Qed.

Lemma feeds_length (chunks writes : list jsstring) (I : bytes) :
  Run.feeds dir k iv inEnc outEnc I chunks writes -> length writes = length chunks.
Proof. induction 1; cbn; congruence. Qed.

(** The texts returned continue each other. *)
Lemma feeds_total (chunks writes : list jsstring) (I : bytes) :
  Run.feeds dir k iv inEnc outEnc I chunks writes ->
  Session.text_after outEnc
    (Session.produced k iv dir (I ++ Run.input_bytes inEnc chunks))
  = Session.text_after outEnc (Session.produced k iv dir I) ++ concat writes.
Proof.
  induction 1 as [I|I c cs w ws Hw Hf IH].
  - cbn. now rewrite !app_nil_r.
  - unfold Run.input_bytes in *. cbn [map concat].
    rewrite app_assoc, IH, Hw. now rewrite <- app_assoc.
Qed.
End Handlers.

Lemma written_app (a b : list action) :
  Run.written (a ++ b) = Run.written a ++ Run.written b.
Proof.
  induction a as [|x a IH]; [reflexivity|].
  destruct x; cbn [app Run.written]; rewrite IH; reflexivity.
Qed.

Lemma written_data_actions (cs ws : list jsstring) :
  length ws = length cs -> Run.written (Run.data_actions cs ws) = ws.
Proof.
  unfold Run.data_actions. revert ws.
  induction cs as [|c cs IH]; intros [|w ws] H; try discriminate; [reflexivity|].
  cbn [combine map concat fst snd app Run.written]. f_equal. apply IH.
  now injection H.
Qed.

Lemma count_final_data (cs ws : list jsstring) :
  length (filter Run.is_final (Run.data_actions cs ws)) = 0%nat.
Proof.
  unfold Run.data_actions. revert ws.
  induction cs as [|c cs IH]; intros [|w ws]; try reflexivity.
  cbn [combine map concat fst snd app filter Run.is_final]. apply IH.
Qed.

Lemma close_data (cs ws : list jsstring) :
  filter Run.is_close (Run.data_actions cs ws) = [].
Proof.
  unfold Run.data_actions. revert ws.
  induction cs as [|c cs IH]; intros [|w ws]; try reflexivity.
  cbn [combine map concat fst snd app filter Run.is_close]. apply IH.
Qed.

Section Start.
Context {P : Platform}.
Variables (key ivv : jsstring).
Hypothesis (Hkey : valid_key key) (Hivv : valid_ivv ivv).
Variables (inputStream : ReadStream) (outputStream : WriteStream)
          (bufferSize : option number).

Local Abbreviation K := (Buffer.from key base64).
Local Abbreviation IV := (Buffer.from ivv base64).

Lemma nativeEncryptStream_ok :
  has_createCipheriv = true ->
  Native.nativeEncryptStream key ivv inputStream outputStream bufferSize =
  Ok (mk_op (Cipher.mk Cipher.Encrypt K IV [] None)
        (rs_open (set_rs_encoding base64
           (set_bufferSize (if truthy bufferSize then bufferSize
                            else rs_bufferSize inputStream) inputStream)))
        (set_append false (set_ws_encoding utf8 outputStream))
        [Opened] None).
Proof.
  intros Hc. unfold Native.nativeEncryptStream. rewrite Hc. cbn [negb].
  unfold QuickCrypto.createCipheriv, Native.alg.
  now rewrite create_ok by assumption.
Qed.

Lemma nativeDecryptStream_ok :
  has_createDecipheriv = true ->
  Native.nativeDecryptStream key ivv inputStream outputStream bufferSize =
  Ok (mk_op (Cipher.mk Cipher.Decrypt K IV [] None)
        (rs_open (set_rs_encoding utf8
           (set_bufferSize (if truthy bufferSize then bufferSize
                            else rs_bufferSize inputStream) inputStream)))
        (set_append false (set_ws_encoding base64 outputStream))
        [Opened] None).
Proof.
  intros Hc. unfold Native.nativeDecryptStream. rewrite Hc. cbn [negb].
  unfold QuickCrypto.createDecipheriv, Native.alg.
  now rewrite create_ok by assumption.
Qed.

Lemma fresh_tracks (dir : Cipher.direction) (enc : Encoding) :
  Session.tracks dir K IV enc [] (Cipher.mk dir K IV [] None).
Proof.
  destruct (create_tracks K IV dir enc _ _ (create_ok K IV dir Hkey Hivv))
    as (Ht & _ & _). exact Ht.
Qed.
End Start.

(** The [onEnd] handler when [final] returns the text [f]. *)
Lemma onEnd_ok {P : Platform} (enc : Encoding) (op : operation) (f : jsstring) :
  Cipher.final (op_cipher op) enc = Ok f ->
  op_promise op = None ->
  op_trace (Native.onEnd enc op) =
    op_trace op ++ Finalized :: (match f with [] => [] | _ => [Written f] end)
                ++ [Closed; Resolved] /\
  op_promise (Native.onEnd enc op) = Some (Ok tt) /\
  op_output (Native.onEnd enc op) =
    match f with [] => op_output op | _ => ws_write f (op_output op) end /\
  op_input (Native.onEnd enc op) = op_input op.
Proof.
  intros Ef Hp. unfold Native.onEnd. rewrite Ef, Hp.
  destruct f as [|u f']; cbn; repeat split; reflexivity.
Qed.

(** C9 (amended).  A [bufferSize] argument that is provided and is truthy,
    that is a number other than zero and [NaN], is stored in the source's
    [bufferSize] field when the operation starts; when the argument is
    omitted, or is zero or [NaN], the field is left as it was. *)
Theorem bufferSize_configuration {P : Platform} (key ivv : jsstring)
    (inputStream : ReadStream) (outputStream : WriteStream)
    (bufferSize : option number) :
  has_createCipheriv = true -> has_createDecipheriv = true ->
  valid_key key -> valid_ivv ivv ->
  let configured :=
    match bufferSize with
    | Some (Size n) => if n =? 0 then rs_bufferSize inputStream else Some (Size n)
    | Some NaN => rs_bufferSize inputStream
    | None => rs_bufferSize inputStream
    end in
  (exists op,
     Native.nativeEncryptStream key ivv inputStream outputStream bufferSize = Ok op /\
     rs_bufferSize (op_input op) = configured) /\
  (exists op,
     Native.nativeDecryptStream key ivv inputStream outputStream bufferSize = Ok op /\
     rs_bufferSize (op_input op) = configured).
Proof.
  intros Hc Hd Hkey Hivv configured. split.
  - eexists. split; [now apply nativeEncryptStream_ok|].
    cbn. unfold configured, truthy.
    destruct bufferSize as [[n|]|]; try reflexivity.
    now destruct (n =? 0).
  - eexists. split; [now apply nativeDecryptStream_ok|].
    cbn. unfold configured, truthy.
    destruct bufferSize as [[n|]|]; try reflexivity.
    now destruct (n =? 0).
Qed.

(** C7.  When the source signals an error, the promise is rejected with
    that error; the sink is not closed, and it holds what the handlers of
    the chunks wrote to it. *)
Theorem source_error_rejects {P : Platform} (key ivv : jsstring)
    (inputStream : ReadStream) (outputStream : WriteStream)
    (bufferSize : option number) (chunks : list jsstring) (err : error) :
  has_createCipheriv = true -> has_createDecipheriv = true ->
  valid_key key -> valid_ivv ivv ->
  (exists op,
     Native.nativeEncryptStream key ivv inputStream outputStream bufferSize = Ok op /\
     let before := fold_left Native.encrypt_onData chunks op in
     let after := Native.encrypt_deliver op chunks (SourceError err) in
     op_promise after = Some (Throw err) /\
     op_output after = op_output before /\
     op_trace after = op_trace before ++ [Logged err; Rejected err] /\
     filter Run.is_close (op_trace after) = []) /\
  (exists op,
     Native.nativeDecryptStream key ivv inputStream outputStream bufferSize = Ok op /\
     let before := fold_left Native.decrypt_onData chunks op in
     let after := Native.decrypt_deliver op chunks (SourceError err) in
     op_promise after = Some (Throw err) /\
     op_output after = op_output before /\
     op_trace after = op_trace before ++ [Logged err; Rejected err] /\
     filter Run.is_close (op_trace after) = []).
Proof.
  intros Hc Hd Hkey Hivv.
  assert (Hno : forall cs ws, filter Run.is_close
                  ([Opened] ++ Run.data_actions cs ws ++ [Logged err; Rejected err]) = []).
  { intros cs ws. cbn [app filter Run.is_close].
    rewrite filter_app, close_data. reflexivity. }
  split.
  - eexists. split; [now apply nativeEncryptStream_ok|].
    set (op := mk_op _ _ _ _ _).
    destruct (onData_fold (Buffer.from key base64) (Buffer.from ivv base64)
                Cipher.Encrypt utf8 base64 chunks op []
                (fresh_tracks key ivv Hkey Hivv _ _))
      as (ws & _ & _ & Hin & Hpr & Hout & Htr).
    cbv zeta. unfold Native.encrypt_deliver. rewrite encrypt_onData_eq.
    unfold Native.onError. cbn [op_promise op_output op_trace].
    rewrite Hpr, Htr. cbn [op op_promise op_trace settle].
    repeat split. rewrite <- app_assoc. apply Hno.
  - eexists. split; [now apply nativeDecryptStream_ok|].
    set (op := mk_op _ _ _ _ _).
    destruct (onData_fold (Buffer.from key base64) (Buffer.from ivv base64)
                Cipher.Decrypt base64 utf8 chunks op []
                (fresh_tracks key ivv Hkey Hivv _ _))
      as (ws & _ & _ & Hin & Hpr & Hout & Htr).
    cbv zeta. unfold Native.decrypt_deliver. rewrite decrypt_onData_eq.
    unfold Native.onError. cbn [op_promise op_output op_trace].
    rewrite Hpr, Htr. cbn [op op_promise op_trace settle].
    repeat split. rewrite <- app_assoc. apply Hno.
Qed.

(** The end of a run whose [final] returns [f]: what the trace, the
    promise and the sink are. *)
Lemma deliver_end {P : Platform} (k iv : bytes) (dir : Cipher.direction)
    (inEnc outEnc : Encoding) (op : operation) (chunks : list jsstring)
    (f : jsstring) :
  Session.tracks dir k iv outEnc [] (op_cipher op) ->
  op_promise op = None ->
  let before := fold_left (Run.onData inEnc outEnc) chunks op in
  Cipher.final (op_cipher before) outEnc = Ok f ->
  let after := Native.onEnd outEnc before in
  op_trace after =
    op_trace before ++ Finalized :: (match f with [] => [] | _ => [Written f] end)
                    ++ [Closed; Resolved] /\
  op_promise after = Some (Ok tt) /\
  length (filter Run.is_final (op_trace after))
    = S (length (filter Run.is_final (op_trace op))) /\
  op_output after =
    match f with [] => op_output before | _ => ws_write f (op_output before) end.
Proof.
  intros Ht Hp before Ef after.
  destruct (onData_fold k iv dir inEnc outEnc chunks op [] Ht)
    as (ws & Hf & Htr & Hin & Hpr & Hout & Htrace).
  fold before in Htr, Hin, Hpr, Hout, Htrace.
  destruct (onEnd_ok outEnc before f Ef) as (E1 & E2 & E3 & E4).
  { now rewrite Hpr. }
  fold after in E1, E2, E3, E4.
  repeat split; try assumption.
  rewrite E1, Htrace, !filter_app, !length_app, count_final_data.
  cbn [filter Run.is_final]. destruct f; cbn; lia.
Qed.

(** C6 (amended).  When the source signals end-of-data and the
    finalization of the cipher context succeeds, which it always does when
    encrypting, the operation has called the finalization exactly once,
    then writes its output to the sink if and only if it is not empty, then
    closes the sink, then resolves, in this order. *)
Theorem end_of_data_sequence {P : Platform} (key ivv : jsstring)
    (inputStream : ReadStream) (outputStream : WriteStream)
    (bufferSize : option number) (chunks : list jsstring) :
  has_createCipheriv = true -> has_createDecipheriv = true ->
  valid_key key -> valid_ivv ivv ->
  (exists op f,
     Native.nativeEncryptStream key ivv inputStream outputStream bufferSize = Ok op /\
     let before := fold_left Native.encrypt_onData chunks op in
     let after := Native.encrypt_deliver op chunks EndOfData in
     Cipher.final (op_cipher before) base64 = Ok f /\
     op_trace after =
       op_trace before ++ Finalized :: (match f with [] => [] | _ => [Written f] end)
                       ++ [Closed; Resolved] /\
     op_promise after = Some (Ok tt) /\
     length (filter Run.is_final (op_trace after)) = 1%nat) /\
  (exists op,
     Native.nativeDecryptStream key ivv inputStream outputStream bufferSize = Ok op /\
     let before := fold_left Native.decrypt_onData chunks op in
     let after := Native.decrypt_deliver op chunks EndOfData in
     forall f,
       Cipher.final (op_cipher before) utf8 = Ok f ->
       op_trace after =
         op_trace before ++ Finalized :: (match f with [] => [] | _ => [Written f] end)
                         ++ [Closed; Resolved] /\
       op_promise after = Some (Ok tt) /\
       length (filter Run.is_final (op_trace after)) = 1%nat).
Proof.
  intros Hc Hd Hkey Hivv. split.
  - set (op := mk_op (Cipher.mk Cipher.Encrypt (Buffer.from key base64)
                        (Buffer.from ivv base64) [] None)
                 (rs_open (set_rs_encoding base64
                    (set_bufferSize (if truthy bufferSize then bufferSize
                                     else rs_bufferSize inputStream) inputStream)))
                 (set_append false (set_ws_encoding utf8 outputStream))
                 [Opened] None).
    pose proof (fresh_tracks key ivv Hkey Hivv Cipher.Encrypt base64) as Ht.
    destruct (onData_fold _ _ Cipher.Encrypt utf8 base64 chunks op [] Ht)
      as (ws & _ & Htr & _).
    destruct (final_enc _ _ base64 _ _ Htr) as (f & Ef & _).
    exists op, f. split; [now apply nativeEncryptStream_ok|].
    cbv zeta. unfold Native.encrypt_deliver, Native.encrypt_onEnd.
    rewrite encrypt_onData_eq.
    destruct (deliver_end _ _ Cipher.Encrypt utf8 base64 op chunks f Ht eq_refl Ef)
      as (E1 & E2 & E3 & _).
    repeat split; assumption.
  - set (op := mk_op (Cipher.mk Cipher.Decrypt (Buffer.from key base64)
                        (Buffer.from ivv base64) [] None)
                 (rs_open (set_rs_encoding utf8
                    (set_bufferSize (if truthy bufferSize then bufferSize
                                     else rs_bufferSize inputStream) inputStream)))
                 (set_append false (set_ws_encoding base64 outputStream))
                 [Opened] None).
    pose proof (fresh_tracks key ivv Hkey Hivv Cipher.Decrypt utf8) as Ht.
    exists op. split; [now apply nativeDecryptStream_ok|].
    cbv zeta. intros f Ef.
    unfold Native.decrypt_deliver, Native.decrypt_onEnd.
    rewrite decrypt_onData_eq in *.
    destruct (deliver_end _ _ Cipher.Decrypt base64 utf8 op chunks f Ht eq_refl Ef)
      as (E1 & E2 & E3 & _).
    repeat split; assumption.
Qed.

(** Whatever the platform, a decrypting run whose source ends without any
    data never settles: [final] throws in the [onEnd] handler, before the
    sink is closed. *)
Lemma decrypt_end_without_data {P : Platform} (key ivv : jsstring)
    (inputStream : ReadStream) (outputStream : WriteStream)
    (bufferSize : option number) :
  has_createDecipheriv = true -> valid_key key -> valid_ivv ivv ->
  exists op,
    Native.nativeDecryptStream key ivv inputStream outputStream bufferSize = Ok op /\
    Cipher.final (op_cipher op) utf8 = Throw WrongFinalBlockLength /\
    op_trace (Native.decrypt_deliver op [] EndOfData) = [Opened; Finalized] /\
    op_promise (Native.decrypt_deliver op [] EndOfData) = None.
Proof.
  intros Hd Hkey Hivv. eexists.
  split; [now apply nativeDecryptStream_ok|]. repeat split.
Qed.

(** ** What reaches the sink *)

Lemma produced_nil {P : Platform} (k iv : bytes) (dir : Cipher.direction) :
  Session.produced k iv dir [] = [].
Proof. now destruct dir. Qed.

(** The texts written in a run that ends with end-of-data, put together. *)
Lemma deliver_end_written {P : Platform} (k iv : bytes) (dir : Cipher.direction)
    (inEnc outEnc : Encoding) (op : operation) (chunks : list jsstring)
    (f : jsstring) :
  Session.tracks dir k iv outEnc [] (op_cipher op) ->
  op_promise op = None -> op_trace op = [Opened] ->
  let before := fold_left (Run.onData inEnc outEnc) chunks op in
  Cipher.final (op_cipher before) outEnc = Ok f ->
  let after := Native.onEnd outEnc before in
  exists ws,
    Run.feeds dir k iv inEnc outEnc [] chunks ws /\
    concat ws = Session.text_after outEnc
                  (Session.produced k iv dir (Run.input_bytes inEnc chunks)) /\
    concat (Run.written (op_trace after)) = concat ws ++ f /\
    op_output after = Run.write_all (ws ++ match f with [] => [] | _ => [f] end)
                        (op_output op) /\
    op_promise after = Some (Ok tt) /\
    op_input after = op_input op.
Proof.
  intros Ht Hp Htr0 before Ef after.
  destruct (onData_fold k iv dir inEnc outEnc chunks op [] Ht)
    as (ws & Hf & Htr & Hin & Hpr & Hout & Htrace).
  fold before in Htr, Hin, Hpr, Hout, Htrace.
  destruct (onEnd_ok outEnc before f Ef) as (E1 & E2 & E3 & E4).
  { now rewrite Hpr. }
  fold after in E1, E2, E3, E4.
  exists ws. split; [assumption|].
  pose proof (feeds_total k iv dir inEnc outEnc chunks ws [] Hf) as Htot.
  cbn [app] in Htot. rewrite produced_nil, text_after_nil in Htot. cbn [app] in Htot.
  split; [now symmetry|].
  split; [|split; [|split]].
  - rewrite E1, Htrace, Htr0. rewrite !written_app.
    rewrite written_data_actions by (eapply feeds_length; eassumption).
    cbn [Run.written app].
    destruct f as [|u f']; cbn [Run.written app concat];
      rewrite concat_app; cbn [concat]; now rewrite ?app_nil_r.
  - rewrite E3, Hout. rewrite write_all_app.
    now destruct f.
  - assumption.
  - now rewrite E4, Hin.
Qed.

(** What an encrypting run writes, put together: the base64 text of the
    encryption of the UTF-8 bytes of the chunks. *)
Lemma encrypt_run_text {P : Platform} (key ivv : jsstring)
    (inputStream : ReadStream) (outputStream : WriteStream)
    (bufferSize : option number) (op : operation) (chunks : list jsstring) :
  has_createCipheriv = true -> valid_key key -> valid_ivv ivv ->
  Native.nativeEncryptStream key ivv inputStream outputStream bufferSize = Ok op ->
  concat (Run.written (op_trace (Native.encrypt_deliver op chunks EndOfData))) =
  Base64.encode
    (Session.cbc_encrypt (Buffer.from key base64) (Buffer.from ivv base64)
       (concat (map Utf8.encode chunks))).
Proof.
  intros Hc Hkey Hivv Hop.
  rewrite nativeEncryptStream_ok in Hop by assumption. injection Hop as <-.
  set (op := mk_op _ _ _ _ _).
  pose proof (fresh_tracks key ivv Hkey Hivv Cipher.Encrypt base64) as Ht.
  destruct (onData_fold _ _ Cipher.Encrypt utf8 base64 chunks op [] Ht)
    as (ws0 & _ & Htr & _).
  destruct (final_enc _ _ base64 _ _ Htr) as (f & Ef & Etxt).
  destruct (deliver_end_written _ _ Cipher.Encrypt utf8 base64 op chunks f
              Ht eq_refl eq_refl Ef) as (ws & _ & Hws & Hw & _).
  unfold Native.encrypt_deliver, Native.encrypt_onEnd.
  rewrite encrypt_onData_eq. rewrite Hw, Hws.
  cbn [app] in Etxt. exact Etxt.
Qed.

(** C5 (amended).  [nativeEncryptStream] sets the read encoding of the
    source to base64 and the write encoding of the sink to UTF-8; every
    chunk that arrives goes to the cipher as it is, as UTF-8 text, without
    being base64-decoded, so that what is written to the sink is the base64
    text of the encryption of the UTF-8 bytes of the chunks.
    [nativeDecryptStream] sets the read encoding of the source to UTF-8 and
    the write encoding of the sink to base64. *)
Theorem stream_encodings {P : Platform} (key ivv : jsstring)
    (inputStream : ReadStream) (outputStream : WriteStream)
    (bufferSize : option number) :
  has_createCipheriv = true -> has_createDecipheriv = true ->
  valid_key key -> valid_ivv ivv ->
  (exists op,
     Native.nativeEncryptStream key ivv inputStream outputStream bufferSize = Ok op /\
     rs_encoding (op_input op) = base64 /\
     ws_encoding (op_output op) = utf8 /\
     forall chunks,
       concat (Run.written (op_trace (Native.encrypt_deliver op chunks EndOfData))) =
       Base64.encode
         (Session.cbc_encrypt (Buffer.from key base64) (Buffer.from ivv base64)
            (concat (map Utf8.encode chunks)))) /\
  (exists op,
     Native.nativeDecryptStream key ivv inputStream outputStream bufferSize = Ok op /\
     rs_encoding (op_input op) = utf8 /\
     ws_encoding (op_output op) = base64).
Proof.
  intros Hc Hd Hkey Hivv. split.
  - eexists. split; [now apply nativeEncryptStream_ok|].
    split; [reflexivity|]. split; [reflexivity|].
    intros chunks.
    apply (encrypt_run_text key ivv inputStream outputStream bufferSize);
      try assumption.
    now apply nativeEncryptStream_ok.
  - eexists. split; [now apply nativeDecryptStream_ok|].
    split; reflexivity.
Qed.

(** Whatever the platform, a chunk of sixteen base64 characters is
    encrypted as sixteen bytes: the text written has the 44 characters of
    three cipher blocks, where the encryption of the twelve bytes the chunk
    decodes to has the 24 characters of two. *)
Lemma chunk_is_not_decoded {P : Platform} {L : PlatformLaws P}
    (key ivv : jsstring) (inputStream : ReadStream) (outputStream : WriteStream)
    (bufferSize : option number) (op : operation) :
  has_createCipheriv = true -> valid_key key -> valid_ivv ivv ->
  Native.nativeEncryptStream key ivv inputStream outputStream bufferSize = Ok op ->
  let chunk := lit "QUJDQUJDQUJDQUJD" in
  concat (Run.written (op_trace (Native.encrypt_deliver op [chunk] EndOfData))) <>
  Base64.encode
    (Session.cbc_encrypt (Buffer.from key base64) (Buffer.from ivv base64)
       (Buffer.from chunk base64)).
Proof.
  intros Hc Hkey Hivv Hop chunk E.
  rewrite (encrypt_run_text key ivv inputStream outputStream bufferSize op [chunk]
             Hc Hkey Hivv Hop) in E.
  apply (f_equal (@length _)) in E.
  rewrite !encode_length, !cbc_encrypt_length in E by assumption.
  vm_compute in E. discriminate.
Qed.

(** ** The chunks of a mock source *)

Lemma chunks_from_concat (n : nat) (s : jsstring) :
  (1 <= n)%nat ->
  forall fuel i, (length s <= fuel + i)%nat ->
  concat (Mock.chunks_from fuel s i n) = skipn i s.
Proof.
  intros Hn. induction fuel as [|fuel IH]; intros i Hf.
  - cbn. now rewrite skipn_all2 by lia.
  - cbn [Mock.chunks_from]. destruct (Nat.ltb_spec i (length s)) as [Hi|Hi].
    + cbn [concat]. rewrite IH by lia. unfold Mock.substring.
      replace (i + n - i)%nat with n by lia.
      rewrite (Nat.add_comm i n), <- skipn_skipn.
      apply firstn_skipn.
    + cbn. now rewrite skipn_all2 by lia.
Qed.

Lemma chunks_from_Forall (Q : N -> Prop) (n : nat) (s : jsstring) :
  Forall Q s ->
  forall fuel i, Forall (Forall Q) (Mock.chunks_from fuel s i n).
Proof.
  intros Hs. induction fuel as [|fuel IH]; intros i; [constructor|].
  cbn [Mock.chunks_from]. destruct (i <? length s)%nat; [|constructor].
  constructor; [|apply IH].
  unfold Mock.substring. apply Forall_firstn, Forall_skipn, Hs.
Qed.

Lemma chunks_from_aligned (n : nat) (s : jsstring) :
  (n mod 4 = 0)%nat -> (length s mod 4 = 0)%nat ->
  forall fuel i, (i mod 4 = 0)%nat ->
  Forall (fun c => (length c mod 4 = 0)%nat) (Mock.chunks_from fuel s i n).
Proof.
  intros Hn Hs. induction fuel as [|fuel IH]; intros i Hi; [constructor|].
  cbn [Mock.chunks_from]. destruct (i <? length s)%nat; [|constructor].
  constructor.
  - unfold Mock.substring. rewrite length_firstn, length_skipn.
    replace (i + n - i)%nat with n by lia.
    destruct (Nat.min_spec n (length s - i)) as [[_ ->]|[_ ->]]; div_mod_lia.
  - apply IH. div_mod_lia.
Qed.

(** ** Base64 text decoded piece by piece *)

Lemma decode_pieces (pieces : list jsstring) : forall (last : jsstring) (p : bytes),
  Forall (fun w => (length w mod 4 = 0)%nat) pieces ->
  concat pieces ++ last = Base64.encode p ->
  concat (map Base64.decode pieces) ++ Base64.decode last = p.
Proof.
  induction pieces as [|w rest IH]; intros last p Hal Heq.
  - cbn in *. rewrite Heq. apply decode_encode.
  - inversion Hal as [|? ? Hw Hrest]; subst.
    cbn [concat map] in *. rewrite <- app_assoc in Heq.
    set (kq := (length w / 4)%nat).
    assert (Hlw : length w = (4 * kq)%nat) by (unfold kq; div_mod_lia).
    destruct (encode_firstn_skipn kq p) as [Hfst Hskp].
    assert (Ew : w = Base64.encode (firstn (3 * kq) p)).
    { rewrite <- Hfst, <- Heq. symmetry. now apply firstn_app_exact. }
    assert (Er : concat rest ++ last = Base64.encode (skipn (3 * kq) p)).
    { rewrite <- Hskp, <- Heq. symmetry. now apply skipn_app_exact. }
    rewrite <- app_assoc. rewrite (IH last _ Hrest Er).
    rewrite Ew at 1. rewrite decode_encode. apply firstn_skipn.
Qed.

(** ** ASCII text in pieces *)

Lemma encode_ascii_pieces (l : list jsstring) :
  Forall (Forall (fun u => u < 128)) l ->
  concat (map Utf8.encode l) = Utf8.encode (concat l).
Proof.
  intros H.
  assert (Hc : Forall (fun u => u < 128) (concat l)).
  { induction H as [|x l Hx _ IH]; [constructor|]. cbn. now apply Forall_app. }
  rewrite (encode_ascii_text _ Hc).
  induction H as [|x l Hx Hl IH]; [reflexivity|].
  cbn [map concat] in *. apply Forall_app in Hc as [_ Hc].
  rewrite IH by assumption. rewrite map_app. f_equal.
  now apply encode_ascii_text.
Qed.

Lemma utf8_encode_ascii_bytes (s : jsstring) :
  Forall (fun u => u < 128) s -> Forall (fun b => b2n b < 128) (Utf8.encode s).
Proof.
  intros H. rewrite encode_ascii_text by assumption. now apply ascii_bytes_of_text.
Qed.

(** ** Decrypting a ciphertext that arrives in pieces *)

Section Pieces.
Context {P : Platform} {L : PlatformLaws P}.
Variables (k iv : bytes).
Hypothesis (Hk : length k = 32%nat) (Hiv : length iv = 16%nat).
Variable M : bytes.
Hypothesis HM : Forall (fun b => b2n b < 128) M.

(** The text returned so far is a whole number of blocks of [M]. *)
Lemma dec_text_prefix (C' tail : bytes) :
  Session.cbc_encrypt k iv M = C' ++ tail ->
  length (Session.text_after utf8 (Session.produced k iv Cipher.Decrypt C'))
  = (16 * ((length C' - 1) / 16))%nat.
Proof.
  intros HC. cbn [Session.text_after Session.produced].
  rewrite (dec_blocks_prefix k iv Hk Hiv M C' tail HC).
  rewrite run_ascii_bytes by now apply Forall_firstn.
  cbn [snd]. rewrite length_map, length_firstn.
  pose proof (cbc_encrypt_length k iv Hk Hiv M) as Hlen.
  rewrite HC, length_app in Hlen. div_mod_lia.
Qed.

Lemma feeds_aligned (chunks writes : list jsstring) (I : bytes) :
  Run.feeds Cipher.Decrypt k iv base64 utf8 I chunks writes ->
  forall tail,
    Session.cbc_encrypt k iv M = (I ++ Run.input_bytes base64 chunks) ++ tail ->
    Forall (fun w => (length w mod 4 = 0)%nat) writes.
Proof.
  induction 1 as [I|I c cs w ws Hw Hf IH]; intros tail HC; [constructor|].
  unfold Run.input_bytes in HC. cbn [map concat] in HC.
  constructor.
  - apply (f_equal (@length _)) in Hw. rewrite length_app in Hw.
    rewrite (dec_text_prefix (I ++ Buffer.from c base64)
               (Run.input_bytes base64 cs ++ tail)) in Hw
      by (unfold Run.input_bytes; rewrite HC; now rewrite !app_assoc).
    rewrite (dec_text_prefix I
               (Buffer.from c base64 ++ Run.input_bytes base64 cs ++ tail)) in Hw
      by (unfold Run.input_bytes; rewrite HC; now rewrite !app_assoc).
    div_mod_lia.
  - apply (IH tail). unfold Run.input_bytes. rewrite HC. now rewrite !app_assoc.
Qed.
End Pieces.

(** ** Round trip through the streams *)

Lemma chunkSize_pos (r : ReadStream) : (1 <= N.to_nat (Mock.chunkSize r))%nat.
Proof.
  unfold Mock.chunkSize. destruct (rs_bufferSize r) as [[n|]|]; try lia.
  destruct (N.eqb_spec n 0); lia.
Qed.

Lemma concat_with_last (ws : list jsstring) (f : jsstring) :
  concat (ws ++ match f with [] => [] | _ => [f] end) = concat ws ++ f.
Proof.
  rewrite concat_app. destruct f; cbn [concat]; now rewrite ?app_nil_r.
Qed.

Lemma map_decode_with_last (ws : list jsstring) (f : jsstring) :
  concat (map Base64.decode (ws ++ match f with [] => [] | _ => [f] end))
  = concat (map Base64.decode ws) ++ Base64.decode f.
Proof.
  rewrite map_app, concat_app. destruct f; cbn [map concat]; now rewrite ?app_nil_r.
Qed.

Section RoundTrip.
Context {P : Platform} {L : PlatformLaws P}.
Variables (key ivv : jsstring).
Hypothesis (Hkey : valid_key key) (Hivv : valid_ivv ivv).

Local Abbreviation K := (Buffer.from key base64).
Local Abbreviation IV := (Buffer.from ivv base64).

(** What the encrypting run leaves in its sink: the base64 text of the
    encryption of the base64 text of the data.  The buffer size has no
    part in it. *)
Lemma encrypt_stream_spec (data : jsstring + bytes) (b1 : option number) :
  has_createCipheriv = true ->
  exists op1,
    Mock.encrypt_stream key ivv data b1 = Ok op1 /\
    op_promise op1 = Some (Ok tt) /\
    Mock.getBuffer (op_output op1) =
      Utf8.encode (Base64.encode
        (Session.cbc_encrypt K IV
           (Utf8.encode (Base64.encode (Mock.buffer_of data))))).
Proof.
  intros Hc. unfold Mock.encrypt_stream.
  rewrite nativeEncryptStream_ok by assumption. cbn [bind].
  set (op0 := mk_op _ _ _ _ _).
  unfold Mock.open.
  cbn [op0 op_input rs_open set_rs_encoding set_bufferSize rs_buffer rs_encoding
       Mock.ReadStream_new Buffer.toString].
  set (S := Base64.encode (Mock.buffer_of data)).
  set (n1 := N.to_nat (Mock.chunkSize _)).
  set (chunks := Mock.chunks_from (length S) S 0 n1).
  assert (Hn1 : (1 <= n1)%nat) by apply chunkSize_pos.
  assert (HS : Forall (fun u => u < 128) S) by apply encode_ascii.
  assert (Hin : Run.input_bytes utf8 chunks = Utf8.encode S).
  { unfold Run.input_bytes. cbn [Buffer.from].
    rewrite encode_ascii_pieces by now apply chunks_from_Forall.
    unfold chunks. rewrite chunks_from_concat by lia. reflexivity. }
  pose proof (fresh_tracks key ivv Hkey Hivv Cipher.Encrypt base64) as Ht.
  destruct (onData_fold _ _ Cipher.Encrypt utf8 base64 chunks op0 [] Ht)
    as (ws0 & _ & Htr & _).
  destruct (final_enc _ _ base64 _ _ Htr) as (f & Ef & Etxt).
  destruct (deliver_end_written _ _ Cipher.Encrypt utf8 base64 op0 chunks f
              Ht eq_refl eq_refl Ef) as (ws & _ & Hws & _ & Hout & Hpr & _).
  eexists. split; [reflexivity|].
  unfold Native.encrypt_deliver, Native.encrypt_onEnd.
  rewrite encrypt_onData_eq.
  split; [exact Hpr|].
  unfold Mock.getBuffer. rewrite Hout.
  destruct (write_all_chunks (ws ++ match f with [] => [] | _ => [f] end)
              (op_output op0)) as (Echunks & _).
  rewrite Echunks. cbn [op0 op_output set_append set_ws_encoding ws_chunks
                        ws_encoding Mock.WriteStream_new app Buffer.from].
  change (fun d : jsstring => Utf8.encode d) with Utf8.encode.
  change (Base64.decode key) with K. change (Base64.decode ivv) with IV.
  cbn [app] in Etxt. rewrite Hin in Etxt, Hws. rewrite <- Hws in Etxt.
  assert (Hall : concat (ws ++ match f with [] => [] | _ => [f] end)
                 = Base64.encode (Session.cbc_encrypt K IV (Utf8.encode S))).
  { now rewrite concat_with_last. }
  rewrite encode_ascii_pieces.
  - now rewrite Hall.
  - apply (proj1 (Forall_concat _ _)).
    pose proof (encode_ascii (Session.cbc_encrypt K IV (Utf8.encode S))) as Ha.
    rewrite <- Hall in Ha. exact Ha.
Qed.

(** Decrypting such a sink with a buffer size that is a multiple of four
    gives the data back. *)
Lemma decrypt_stream_spec (p : bytes) (b2 : option number) :
  has_createDecipheriv = true ->
  (forall n, b2 = Some (Size n) -> n mod 4 = 0) ->
  exists op2,
    Mock.decrypt_stream key ivv
      (Utf8.encode (Base64.encode
         (Session.cbc_encrypt K IV (Utf8.encode (Base64.encode p))))) b2 = Ok op2 /\
    op_promise op2 = Some (Ok tt) /\
    Mock.getBuffer (op_output op2) = p.
Proof.
  intros Hd Hb2. unfold Mock.decrypt_stream.
  rewrite nativeDecryptStream_ok by assumption. cbn [bind].
  set (op0 := mk_op _ _ _ _ _).
  set (M := Utf8.encode (Base64.encode p)).
  set (C := Session.cbc_encrypt K IV M).
  unfold Mock.open.
  cbn [op0 op_input rs_open set_rs_encoding set_bufferSize rs_buffer rs_encoding
       Mock.ReadStream_new Mock.buffer_of Buffer.toString].
  rewrite utf8_decode_encode by (apply ascii_wellFormed, encode_ascii).
  set (S := Base64.encode C).
  set (n2 := N.to_nat (Mock.chunkSize _)).
  set (chunks := Mock.chunks_from (length S) S 0 n2).
  assert (Hn2 : (1 <= n2)%nat) by apply chunkSize_pos.
  assert (Hn2' : (n2 mod 4 = 0)%nat).
  { unfold n2.
    cbv [Mock.chunkSize rs_bufferSize rs_open set_rs_encoding set_bufferSize
         Mock.ReadStream_new truthy].
    destruct b2 as [[n|]|]; try reflexivity.
    specialize (Hb2 n eq_refl).
    destruct (N.eqb_spec n 0) as [->|Hn]; cbn [negb].
    - reflexivity.
    - destruct (N.eqb_spec n 0); [contradiction|]. div_mod_lia. }
  assert (HSlen : (length S mod 4 = 0)%nat).
  { unfold S. rewrite encode_length. div_mod_lia. }
  assert (Hin : Run.input_bytes base64 chunks = C).
  { unfold Run.input_bytes. cbn [Buffer.from].
    change (fun c : jsstring => Base64.decode c) with Base64.decode.
    rewrite <- (app_nil_r (concat (map Base64.decode chunks))).
    change (@nil byte) with (Base64.decode []).
    apply decode_pieces.
    - apply chunks_from_aligned; assumption || reflexivity.
    - rewrite app_nil_r. unfold chunks. now rewrite chunks_from_concat by lia. }
  assert (HM : Forall (fun b => b2n b < 128) M)
    by apply utf8_encode_ascii_bytes, encode_ascii.
  pose proof (fresh_tracks key ivv Hkey Hivv Cipher.Decrypt utf8) as Ht.
  destruct (onData_fold _ _ Cipher.Decrypt base64 utf8 chunks op0 [] Ht)
    as (ws0 & _ & Htr & _).
  cbn [app] in Htr. rewrite Hin in Htr.
  destruct (final_dec K IV Hkey Hivv utf8 M _ Htr) as (f & Ef & Etxt).
  destruct (deliver_end_written _ _ Cipher.Decrypt base64 utf8 op0 chunks f
              Ht eq_refl eq_refl Ef) as (ws & Hf & Hws & _ & Hout & Hpr & _).
  eexists. split; [reflexivity|].
  unfold Native.decrypt_deliver, Native.decrypt_onEnd.
  rewrite decrypt_onData_eq.
  split; [exact Hpr|].
  unfold Mock.getBuffer.
  change (concat (ws_chunks (op_output
            (Native.onEnd utf8 (fold_left (Run.onData base64 utf8) chunks op0))))
          = p).
  rewrite Hout.
  destruct (write_all_chunks (ws ++ match f with [] => [] | _ => [f] end)
              (op_output op0)) as (Echunks & _).
  rewrite Echunks. cbn [op0 op_output set_append set_ws_encoding ws_chunks
                        ws_encoding Mock.WriteStream_new app Buffer.from].
  change (fun d : jsstring => Base64.decode d) with Base64.decode.
  change (Base64.decode key) with K. change (Base64.decode ivv) with IV.
  rewrite map_decode_with_last.
  apply decode_pieces.
  - apply (feeds_aligned K IV Hkey Hivv M HM chunks ws [] Hf []).
    cbn [app]. rewrite Hin. now rewrite app_nil_r.
  - rewrite Hin in Hws. rewrite Hws.
    unfold C. rewrite Etxt. cbn [Buffer.toString]. unfold M.
    apply utf8_decode_encode, ascii_wellFormed, encode_ascii.
Qed.
End RoundTrip.

(** C2 (amended).  Whatever the data and whatever the buffer size of the
    encrypting run, the sink of that run holds the same bytes; and when the
    buffer size of the decrypting run, if one is given, is a multiple of
    four, stream-decrypting these bytes succeeds and leaves in its sink
    exactly the data (and, read as text, exactly the string, when the data
    was a well-formed string). *)
Theorem stream_round_trip {P : Platform} {L : PlatformLaws P}
    (key ivv : jsstring) (data : jsstring + bytes) (b1 b2 : option number) :
  has_createCipheriv = true -> has_createDecipheriv = true ->
  valid_key key -> valid_ivv ivv ->
  (forall n, b2 = Some (Size n) -> n mod 4 = 0) ->
  exists op1 op2,
    Mock.encrypt_stream key ivv data b1 = Ok op1 /\
    op_promise op1 = Some (Ok tt) /\
    (forall b1', exists op1',
       Mock.encrypt_stream key ivv data b1' = Ok op1' /\
       Mock.getBuffer (op_output op1') = Mock.getBuffer (op_output op1)) /\
    Mock.decrypt_stream key ivv (Mock.getBuffer (op_output op1)) b2 = Ok op2 /\
    op_promise op2 = Some (Ok tt) /\
    Mock.getBuffer (op_output op2) = Mock.buffer_of data /\
    (forall s, data = inl s -> isWellFormed s = true ->
               Mock.getString (op_output op2) = s).
Proof.
  intros Hc Hd Hkey Hivv Hb2.
  destruct (encrypt_stream_spec key ivv Hkey Hivv data b1 Hc) as (op1 & E1 & Hp1 & Hb1).
  destruct (decrypt_stream_spec key ivv Hkey Hivv (Mock.buffer_of data) b2 Hd Hb2)
    as (op2 & E2 & Hp2 & Hbuf2).
  exists op1, op2. split; [exact E1|]. split; [exact Hp1|]. split.
  { intros b1'.
    destruct (encrypt_stream_spec key ivv Hkey Hivv data b1' Hc) as (op1' & E1' & _ & Hb1').
    exists op1'. split; [exact E1'|]. now rewrite Hb1', Hb1. }
  rewrite Hb1. split; [exact E2|]. split; [exact Hp2|]. split; [exact Hbuf2|].
  intros s -> Hwf. unfold Mock.getString. rewrite Hbuf2.
  cbn [Mock.buffer_of Buffer.from Buffer.toString].
  now apply utf8_decode_encode.
Qed.

(** ** A buffer size that is not a multiple of four *)

Lemma sextets_length (s : jsstring) : (length (Base64.sextets s) <= length s)%nat.
Proof.
  induction s as [|c s IH]; [cbn; lia|].
  cbn [Base64.sextets length]. cbv zeta.
  destruct (c mod 256 =? Base64.pad); [cbn; lia|].
  destruct (Base64.unbase64 (c mod 256)); cbn [length]; lia.
Qed.

Lemma bytes_of_sextets_length (l : list N) :
  (length (Base64.bytes_of_sextets l) <= 3 * length l / 4)%nat.
Proof.
  remember (length l) as n eqn:Hn. revert l Hn.
  induction n as [n IH] using lt_wf_ind. intros l Hn.
  destruct l as [|a [|b [|c [|d rest]]]]; subst n;
    cbn [Base64.bytes_of_sextets length app]; try (cbn; lia).
  specialize (IH (length rest) ltac:(cbn [length]; lia) rest eq_refl).
  div_mod_lia.
Qed.

Lemma decode_length (s : jsstring) :
  (length (Base64.decode s) <= 3 * length s / 4)%nat.
Proof.
  unfold Base64.decode.
  pose proof (bytes_of_sextets_length (Base64.sextets s)).
  pose proof (sextets_length s). div_mod_lia.
Qed.

(** Chunks of five characters give at most three bytes each. *)
Lemma chunks_of_five (s : jsstring) : forall fuel i,
  (length (Run.input_bytes base64 (Mock.chunks_from fuel s i 5))
   <= 3 * ((length s - i + 4) / 5))%nat.
Proof.
  induction fuel as [|fuel IH]; intros i; [cbn; lia|].
  cbn [Mock.chunks_from]. destruct (Nat.ltb_spec i (length s)) as [Hi|Hi];
    [|cbn; lia].
  specialize (IH (i + 5)%nat).
  unfold Run.input_bytes in *. cbn [map concat Buffer.from] in *.
  rewrite length_app.
  pose proof (decode_length (Mock.substring s i (i + 5))) as Hd.
  unfold Mock.substring in Hd. rewrite length_firstn, length_skipn in Hd.
  unfold Mock.substring. div_mod_lia.
Qed.

(** [final] of a decryption that was not given a whole number of blocks. *)
Lemma final_dec_wrong_length {P : Platform} (k iv : bytes) (enc : Encoding)
    (I : bytes) (c : Cipher.t) :
  Session.tracks Cipher.Decrypt k iv enc I c ->
  (length I < 16)%nat ->
  Cipher.final c enc = Throw WrongFinalBlockLength.
Proof.
  intros (d & -> & _) Hlen.
  unfold Cipher.final, Cipher.finish.
  cbn [Session.ctx Session.dec_ctx Cipher.dir Cipher.buf].
  replace (length (skipn ((length I - 1) / 16 * 16) I) =? Cipher.block_size)%nat
    with false; [reflexivity|].
  symmetry. apply Nat.eqb_neq. rewrite length_skipn.
  unfold Cipher.block_size. div_mod_lia.
Qed.

(** Whatever the platform, the encryption of the empty data is not
    decrypted by a run with buffer size 5: its chunks decode to fewer than
    sixteen bytes, [final] throws, the sink is never closed and the promise
    never settles. *)
Lemma size_five_never_settles {P : Platform} {L : PlatformLaws P}
    (key ivv : jsstring) (b1 : option number) :
  has_createCipheriv = true -> has_createDecipheriv = true ->
  valid_key key -> valid_ivv ivv ->
  exists op1 op2,
    Mock.encrypt_stream key ivv (inr []) b1 = Ok op1 /\
    Mock.decrypt_stream key ivv (Mock.getBuffer (op_output op1)) (Some (Size 5)) = Ok op2 /\
    op_promise op2 = None /\
    filter Run.is_close (op_trace op2) = [].
Proof.
  intros Hc Hd Hkey Hivv.
  destruct (encrypt_stream_spec key ivv Hkey Hivv (inr []) b1 Hc)
    as (op1 & E1 & _ & Hb1).
  exists op1. rewrite Hb1. clear Hb1.
  cbn [Mock.buffer_of Base64.encode Utf8.encode].
  set (C := Session.cbc_encrypt _ _ []).
  assert (HC : length C = 16%nat).
  { unfold C. now rewrite cbc_encrypt_length. }
  unfold Mock.decrypt_stream.
  rewrite nativeDecryptStream_ok by assumption. cbn [bind].
  set (op0 := mk_op _ _ _ _ _).
  unfold Mock.open.
  cbn [op0 op_input rs_open set_rs_encoding set_bufferSize rs_buffer rs_encoding
       Mock.ReadStream_new Mock.buffer_of Buffer.toString].
  rewrite utf8_decode_encode by (apply ascii_wellFormed, encode_ascii).
  change (N.to_nat (Mock.chunkSize _)) with 5%nat.
  set (S := Base64.encode C).
  set (chunks := Mock.chunks_from (length S) S 0 5).
  assert (HS : length S = 24%nat).
  { unfold S. rewrite encode_length, HC. reflexivity. }
  assert (HI : (length (Run.input_bytes base64 chunks) < 16)%nat).
  { pose proof (chunks_of_five S (length S) 0) as Hb. fold chunks in Hb.
    rewrite HS in Hb. change (3 * ((24 - 0 + 4) / 5))%nat with 15%nat in Hb. lia. }
  pose proof (fresh_tracks key ivv Hkey Hivv Cipher.Decrypt utf8) as Ht.
  destruct (onData_fold _ _ Cipher.Decrypt base64 utf8 chunks op0 [] Ht)
    as (ws & _ & Htr & _ & Hpr & _ & Htrace).
  cbn [app] in Htr.
  pose proof (final_dec_wrong_length _ _ utf8 _ _ Htr HI) as Ef.
  eexists. split; [exact E1|]. split; [reflexivity|].
  unfold Native.decrypt_deliver, Native.decrypt_onEnd.
  rewrite decrypt_onData_eq.
  change (Mock.chunks_from (length (Base64.encode C)) (Base64.encode C) 0 5)
    with chunks.
  unfold Native.onEnd. rewrite Ef. cbn [op_promise op_trace].
  rewrite Hpr, Htrace. split; [reflexivity|].
  rewrite !filter_app, close_data. reflexivity.
Qed.

(** ** Key derivation *)

Section Derivation.
Context {P : Platform}.

Lemma nativeGenerateKey_spec (password ivv : jsstring) :
  has_pbkdf2Sync = true ->
  Native.nativeGenerateKey password ivv = Ok (deriveKey password ivv).
Proof.
  intros H. unfold Native.nativeGenerateKey. rewrite H. reflexivity.
Qed.

Lemma browserGenerateKey_spec (password ivv : jsstring) :
  has_subtle_importKey = true ->
  Browser.browserGenerateKey password ivv = Ok (deriveKey password ivv).
Proof.
  intros H. unfold Browser.browserGenerateKey. rewrite H. reflexivity.
Qed.
End Derivation.

(** C4.  With both providers present, the native and the browser key
    derivation return the same key for every password and salt: the base64
    text of PBKDF2-HMAC-SHA256, 100000 iterations, 32 bytes, over the UTF-8
    bytes of the password and the base64-decoded salt. *)
Theorem native_browser_same_key {P : Platform} {L : PlatformLaws P}
    (password ivv : jsstring) :
  has_pbkdf2Sync = true -> has_subtle_importKey = true ->
  Native.nativeGenerateKey password ivv = Browser.browserGenerateKey password ivv /\
  Native.nativeGenerateKey password ivv = Ok (deriveKey password ivv) /\
  valid_key (deriveKey password ivv).
Proof.
  intros Hn Hb.
  rewrite nativeGenerateKey_spec, browserGenerateKey_spec by assumption.
  repeat split.
  unfold valid_key, deriveKey. cbn [Buffer.from].
  rewrite decode_encode. now rewrite pbkdf2_length.
Qed.

(** C3.  In the native and in the browser implementation the fingerprint
    hash is the key derivation applied twice: the key of the first pass is
    the password of the second pass, with the same salt.  With the
    provider present both passes succeed. *)
Theorem hash_is_key_of_key {P : Platform} (password ivv : jsstring) :
  Native.nativeGenerateHash password ivv =
    (k1 <- Native.nativeGenerateKey password ivv ;; Native.nativeGenerateKey k1 ivv) /\
  Browser.browserGenerateHash password ivv =
    (k1 <- Browser.browserGenerateKey password ivv ;; Browser.browserGenerateKey k1 ivv) /\
  (has_pbkdf2Sync = true ->
   exists k1 h,
     Native.nativeGenerateKey password ivv = Ok k1 /\
     Native.nativeGenerateKey k1 ivv = Ok h /\
     Native.nativeGenerateHash password ivv = Ok h /\
     h = deriveFingerprint password ivv) /\
  (has_subtle_importKey = true ->
   exists k1 h,
     Browser.browserGenerateKey password ivv = Ok k1 /\
     Browser.browserGenerateKey k1 ivv = Ok h /\
     Browser.browserGenerateHash password ivv = Ok h /\
     h = deriveFingerprint password ivv).
Proof.
  split; [reflexivity|]. split.
  { unfold Browser.browserGenerateHash.
    destruct (Browser.browserGenerateKey password ivv) as [k1|e]; [|reflexivity].
    cbn [bind]. now destruct (Browser.browserGenerateKey k1 ivv). }
  split.
  - intros H. exists (deriveKey password ivv), (deriveFingerprint password ivv).
    unfold Native.nativeGenerateHash.
    rewrite !nativeGenerateKey_spec by assumption. cbn [bind].
    rewrite nativeGenerateKey_spec by assumption. repeat split.
  - intros H. exists (deriveKey password ivv), (deriveFingerprint password ivv).
    unfold Browser.browserGenerateHash.
    rewrite !browserGenerateKey_spec by assumption. cbn [bind].
    rewrite browserGenerateKey_spec by assumption. repeat split.
Qed.

(** ** The variant with the [base64Encoded] flag *)











Section Variant.
Context {P : Platform}.

Lemma variant_key_raw (password : BrowserVariant.value) (ivv : jsstring) :
  has_subtle_importKey = true ->
  BrowserVariant.browserGenerateKey (Some P) password ivv false =
  Ok (BrowserVariant.U8Array
        (pbkdf2_hmac SHA256
           (match password with
            | BrowserVariant.U8Array b => b
            | BrowserVariant.Str s => Utf8.encode s
            end) (Base64.decode ivv) 100000 32)).
Proof.
  intros H. unfold BrowserVariant.browserGenerateKey. rewrite H. reflexivity.
Qed.

Lemma variant_key_base64 (password : BrowserVariant.value) (ivv : jsstring) :
  has_subtle_importKey = true ->
  BrowserVariant.browserGenerateKey (Some P) password ivv true =
  Ok (BrowserVariant.Str (Base64.encode
        (pbkdf2_hmac SHA256
           (match password with
            | BrowserVariant.U8Array b => b
            | BrowserVariant.Str s => Utf8.encode s
            end) (Base64.decode ivv) 100000 32))).
Proof.
  intros H. unfold BrowserVariant.browserGenerateKey. rewrite H. reflexivity.
Qed.
End Variant.


(** ** The theorems at work on the small platform *)

Section Examples.
#[local] Existing Instance Toy.platform.

Lemma text_round_trip_witness :
exists c,
  Native.nativeEncryptText Toy.key Toy.ivv (lit "Hello, World!") = Ok c /\
  Native.nativeDecryptText Toy.key Toy.ivv c = Ok (lit "Hello, World!").
Proof.
apply (text_round_trip (P := Toy.platform));
  [reflexivity | reflexivity | reflexivity | reflexivity
  | reflexivity].
Defined.

(** C1 as stated fails: the one-unit string U+D800 is a plaintext string,
  and with a valid key and IVV it decrypts to U+FFFD. *)
Lemma text_round_trip_counterexample :
exists c,
  Native.nativeEncryptText Toy.key Toy.ivv [0xD800] = Ok c /\
  Native.nativeDecryptText Toy.key Toy.ivv c = Ok [0xFFFD] /\
  Native.nativeDecryptText Toy.key Toy.ivv c <> Ok [0xD800].
Proof.
destruct (unpaired_surrogate_lost (P := Toy.platform) Toy.key Toy.ivv
            eq_refl eq_refl toy_key_valid toy_ivv_valid) as (c & E1 & E2).
exists c. split; [exact E1|]. split; [exact E2|].
rewrite E2. discriminate.
Qed.

Lemma encrypt_empty_text_witness :
exists c,
  Native.nativeEncryptText Toy.key Toy.ivv [] = Ok c /\
  c <> [] /\
  c = Base64.encode
        (aes_encrypt_block (Buffer.from Toy.key base64)
           (Cipher.xor_block (repeat (n2b 16) 16) (Buffer.from Toy.ivv base64))) /\
  length c = 24%nat /\
  (has_subtle_importKey = true -> Browser.browserEncryptText Toy.key Toy.ivv [] = Ok c).
Proof.
apply (encrypt_empty_text (P := Toy.platform));
  [reflexivity | reflexivity | reflexivity].
Defined.

Lemma bufferSize_configuration_witness :
(exists op,
   Native.nativeEncryptStream Toy.key Toy.ivv
     (Mock.ReadStream_new (inr [])) Mock.WriteStream_new (Some (Size 2048)) = Ok op /\
   rs_bufferSize (op_input op) = Some (Size 2048)) /\
(exists op,
   Native.nativeDecryptStream Toy.key Toy.ivv
     (Mock.ReadStream_new (inr [])) Mock.WriteStream_new (Some (Size 2048)) = Ok op /\
   rs_bufferSize (op_input op) = Some (Size 2048)).
Proof.
apply (bufferSize_configuration (P := Toy.platform) Toy.key Toy.ivv
         (Mock.ReadStream_new (inr [])) Mock.WriteStream_new (Some (Size 2048)));
  [reflexivity | reflexivity | reflexivity | reflexivity].
Defined.

(** C9 as stated fails: zero and [NaN] are values one can provide, and
  the source keeps its own buffer size then. *)
Lemma bufferSize_falsy_counterexample :
(exists op,
   Native.nativeEncryptStream Toy.key Toy.ivv
     (Mock.ReadStream_new (inr [])) Mock.WriteStream_new (Some (Size 0)) = Ok op /\
   rs_bufferSize (op_input op) = Some (Size 1024) /\
   rs_bufferSize (op_input op) <> Some (Size 0)) /\
(exists op,
   Native.nativeEncryptStream Toy.key Toy.ivv
     (Mock.ReadStream_new (inr [])) Mock.WriteStream_new (Some NaN) = Ok op /\
   rs_bufferSize (op_input op) = Some (Size 1024) /\
   rs_bufferSize (op_input op) <> Some NaN).
Proof.
split; eexists; (split; [reflexivity|]); (split; [reflexivity | discriminate]).
Qed.

Lemma source_error_rejects_witness :
let chunks := [lit "QUJD"; lit "RA=="] in
let err := SourceFailure 7 in
(exists op,
   Native.nativeEncryptStream Toy.key Toy.ivv
     (Mock.ReadStream_new (inr [])) Mock.WriteStream_new None = Ok op /\
   let before := fold_left Native.encrypt_onData chunks op in
   let after := Native.encrypt_deliver op chunks (SourceError err) in
   op_promise after = Some (Throw err) /\
   op_output after = op_output before /\
   op_trace after = op_trace before ++ [Logged err; Rejected err] /\
   filter Run.is_close (op_trace after) = []) /\
(exists op,
   Native.nativeDecryptStream Toy.key Toy.ivv
     (Mock.ReadStream_new (inr [])) Mock.WriteStream_new None = Ok op /\
   let before := fold_left Native.decrypt_onData chunks op in
   let after := Native.decrypt_deliver op chunks (SourceError err) in
   op_promise after = Some (Throw err) /\
   op_output after = op_output before /\
   op_trace after = op_trace before ++ [Logged err; Rejected err] /\
   filter Run.is_close (op_trace after) = []).
Proof.
apply (source_error_rejects (P := Toy.platform) Toy.key Toy.ivv
         (Mock.ReadStream_new (inr [])) Mock.WriteStream_new None
         [lit "QUJD"; lit "RA=="] (SourceFailure 7));
  [reflexivity | reflexivity | reflexivity | reflexivity].
Defined.

Lemma end_of_data_sequence_witness :
let chunks := [lit "VVZXUFFSU1xdVFVWV1BRUg=="] in
(exists op f,
   Native.nativeEncryptStream Toy.key Toy.ivv
     (Mock.ReadStream_new (inr [])) Mock.WriteStream_new None = Ok op /\
   let before := fold_left Native.encrypt_onData chunks op in
   let after := Native.encrypt_deliver op chunks EndOfData in
   Cipher.final (op_cipher before) base64 = Ok f /\
   op_trace after =
     op_trace before ++ Finalized :: (match f with [] => [] | _ => [Written f] end)
                     ++ [Closed; Resolved] /\
   op_promise after = Some (Ok tt) /\
   length (filter Run.is_final (op_trace after)) = 1%nat) /\
(exists op f,
   Native.nativeDecryptStream Toy.key Toy.ivv
     (Mock.ReadStream_new (inr [])) Mock.WriteStream_new None = Ok op /\
   let before := fold_left Native.decrypt_onData chunks op in
   let after := Native.decrypt_deliver op chunks EndOfData in
   Cipher.final (op_cipher before) utf8 = Ok f /\
   op_trace after =
     op_trace before ++ Finalized :: (match f with [] => [] | _ => [Written f] end)
                     ++ [Closed; Resolved] /\
   op_promise after = Some (Ok tt) /\
   length (filter Run.is_final (op_trace after)) = 1%nat).
Proof.
destruct (end_of_data_sequence (P := Toy.platform) Toy.key Toy.ivv
            (Mock.ReadStream_new (inr [])) Mock.WriteStream_new None
            [lit "VVZXUFFSU1xdVFVWV1BRUg=="] eq_refl eq_refl eq_refl eq_refl)
  as [Henc (op & Hop & Hdec)].
split; [exact Henc|].
exists op, []. split; [exact Hop|].
assert (Ef : Cipher.final
               (op_cipher (fold_left Native.decrypt_onData
                             [lit "VVZXUFFSU1xdVFVWV1BRUg=="] op)) utf8 = Ok []).
{ injection Hop as <-. vm_compute. reflexivity. }
split; [exact Ef|]. exact (Hdec [] Ef).
Defined.

(** C6 as stated fails: decrypting a source that ends without any data,
  [final] throws; the sink is not closed and the promise stays pending. *)
Lemma end_of_data_counterexample :
exists op,
  Native.nativeDecryptStream Toy.key Toy.ivv
    (Mock.ReadStream_new (inr [])) Mock.WriteStream_new None = Ok op /\
  Cipher.final (op_cipher op) utf8 = Throw WrongFinalBlockLength /\
  op_trace (Native.decrypt_deliver op [] EndOfData) = [Opened; Finalized] /\
  op_promise (Native.decrypt_deliver op [] EndOfData) = None.
Proof.
eexists. split; [reflexivity|]. repeat split.
Qed.

Lemma stream_encodings_witness :
(exists op,
   Native.nativeEncryptStream Toy.key Toy.ivv
     (Mock.ReadStream_new (inr [])) Mock.WriteStream_new None = Ok op /\
   rs_encoding (op_input op) = base64 /\
   ws_encoding (op_output op) = utf8 /\
   forall chunks,
     concat (Run.written (op_trace (Native.encrypt_deliver op chunks EndOfData))) =
     Base64.encode
       (Session.cbc_encrypt (Buffer.from Toy.key base64) (Buffer.from Toy.ivv base64)
          (concat (map Utf8.encode chunks)))) /\
(exists op,
   Native.nativeDecryptStream Toy.key Toy.ivv
     (Mock.ReadStream_new (inr [])) Mock.WriteStream_new None = Ok op /\
   rs_encoding (op_input op) = utf8 /\
   ws_encoding (op_output op) = base64).
Proof.
apply (stream_encodings (P := Toy.platform) Toy.key Toy.ivv
         (Mock.ReadStream_new (inr [])) Mock.WriteStream_new None);
  [reflexivity | reflexivity | reflexivity | reflexivity].
Defined.

(** C5 as stated fails: a chunk of sixteen base64 characters reaches the
  cipher as sixteen bytes of text, not as the twelve bytes it decodes to,
  and the text written to the sink is that of two cipher blocks and the
  padding block, not of one block. *)
Lemma stream_encodings_counterexample :
let chunk := lit "QUJDQUJDQUJDQUJD" in
exists op,
  Native.nativeEncryptStream Toy.key Toy.ivv
    (Mock.ReadStream_new (inr [])) Mock.WriteStream_new None = Ok op /\
  concat (Run.written (op_trace (Native.encrypt_deliver op [chunk] EndOfData))) =
    Base64.encode
      (Session.cbc_encrypt (Buffer.from Toy.key base64) (Buffer.from Toy.ivv base64)
         (Buffer.from chunk utf8)) /\
  concat (Run.written (op_trace (Native.encrypt_deliver op [chunk] EndOfData))) <>
    Base64.encode
      (Session.cbc_encrypt (Buffer.from Toy.key base64) (Buffer.from Toy.ivv base64)
         (Buffer.from chunk base64)).
Proof.
eexists. split; [reflexivity|]. split.
- vm_compute. reflexivity.
- intros H. apply (f_equal (@length _)) in H. vm_compute in H. discriminate.
Qed.

Lemma stream_round_trip_witness :
let data := inl (lit "Stream data test. ") in
exists op1 op2,
  Mock.encrypt_stream Toy.key Toy.ivv data (Some (Size 7)) = Ok op1 /\
  op_promise op1 = Some (Ok tt) /\
  (forall b1', exists op1',
     Mock.encrypt_stream Toy.key Toy.ivv data b1' = Ok op1' /\
     Mock.getBuffer (op_output op1') = Mock.getBuffer (op_output op1)) /\
  Mock.decrypt_stream Toy.key Toy.ivv (Mock.getBuffer (op_output op1)) (Some (Size 8))
    = Ok op2 /\
  op_promise op2 = Some (Ok tt) /\
  Mock.getBuffer (op_output op2) = Mock.buffer_of data /\
  (forall s, data = inl s -> isWellFormed s = true ->
             Mock.getString (op_output op2) = s).
Proof.
apply (stream_round_trip (P := Toy.platform) Toy.key Toy.ivv
         (inl (lit "Stream data test. ")) (Some (Size 7)) (Some (Size 8)));
  [reflexivity | reflexivity | reflexivity | reflexivity |].
intros n [= <-]. reflexivity.
Defined.

(** C2 as stated fails: with a buffer size of 5 the decrypting run decodes
  each chunk of five base64 characters on its own and loses one character
  in every chunk; [final] then throws, the sink holds other bytes than
  the data, and the promise stays pending. *)
Lemma stream_round_trip_counterexample :
let data := inl (lit "Stream data test. Stream data test. Stream data test.") in
exists op1 op2,
  Mock.encrypt_stream Toy.key Toy.ivv data (Some (Size 7)) = Ok op1 /\
  Mock.decrypt_stream Toy.key Toy.ivv (Mock.getBuffer (op_output op1)) (Some (Size 5))
    = Ok op2 /\
  op_promise op2 = None /\
  Mock.getBuffer (op_output op2) <> Mock.buffer_of data.
Proof.
eexists. eexists. split; [reflexivity|]. split; [reflexivity|]. split.
- vm_compute. reflexivity.
- vm_compute. discriminate.
Qed.

Lemma native_browser_same_key_witness :
Native.nativeGenerateKey (lit "testPassword123") Toy.ivv
  = Browser.browserGenerateKey (lit "testPassword123") Toy.ivv /\
Native.nativeGenerateKey (lit "testPassword123") Toy.ivv
  = Ok (deriveKey (lit "testPassword123") Toy.ivv) /\
valid_key (deriveKey (lit "testPassword123") Toy.ivv).
Proof.
apply (native_browser_same_key (P := Toy.platform) (lit "testPassword123") Toy.ivv);
  reflexivity.
Defined.

Lemma hash_is_key_of_key_witness :
(exists k1 h,
   Native.nativeGenerateKey (lit "testPassword123") Toy.ivv = Ok k1 /\
   Native.nativeGenerateKey k1 Toy.ivv = Ok h /\
   Native.nativeGenerateHash (lit "testPassword123") Toy.ivv = Ok h /\
   h = deriveFingerprint (lit "testPassword123") Toy.ivv) /\
(exists k1 h,
   Browser.browserGenerateKey (lit "testPassword123") Toy.ivv = Ok k1 /\
   Browser.browserGenerateKey k1 Toy.ivv = Ok h /\
   Browser.browserGenerateHash (lit "testPassword123") Toy.ivv = Ok h /\
   h = deriveFingerprint (lit "testPassword123") Toy.ivv).
Proof.
destruct (hash_is_key_of_key (P := Toy.platform) (lit "testPassword123") Toy.ivv)
  as (_ & _ & Hn & Hb).
split; [apply Hn | apply Hb]; reflexivity.
Defined.


End Examples.

(** * Part III.  Further properties of the code *)

(** ** Strings with unpaired surrogates *)

Lemma toWellFormed_cons2 (u l : N) (s : jsstring) :
  toWellFormed (u :: l :: s) =
  if is_high_surrogate u then
    if is_low_surrogate l then u :: l :: toWellFormed s
    else Utf8.replacement_char :: toWellFormed (l :: s)
  else if is_low_surrogate u then Utf8.replacement_char :: toWellFormed (l :: s)
  else u :: toWellFormed (l :: s).
Proof. reflexivity. Qed.

Lemma list_ind2 {A} (Q : list A -> Prop) :
  Q [] -> (forall x, Q [x]) ->
  (forall x y l, Q l -> Q (y :: l) -> Q (x :: y :: l)) ->
  forall l, Q l.
Proof.
  intros H0 H1 H2 l.
  assert (H : Q l /\ forall x, Q (x :: l)).
  { induction l as [|y l [IH1 IH2]]; split; auto. }
  apply H.
Qed.

Lemma replacement_plain :
  is_high_surrogate Utf8.replacement_char = false /\
  is_low_surrogate Utf8.replacement_char = false.
Proof. split; reflexivity. Qed.

(** The UTF-8 encoder does not tell a string from its well-formed version. *)
Lemma encode_toWellFormed (s : jsstring) :
  Utf8.encode (toWellFormed s) = Utf8.encode s.
Proof.
  induction s as [|x|x y l IH1 IH2] using list_ind2.
  - reflexivity.
  - cbn [toWellFormed Utf8.encode].
    destruct (is_high_surrogate x) eqn:Hx; [reflexivity|].
    destruct (is_low_surrogate x) eqn:Lx; cbn [Utf8.encode].
    + reflexivity.
    + now rewrite Hx, Lx.
  - rewrite toWellFormed_cons2.
    destruct (is_high_surrogate x) eqn:Hx.
    + destruct (is_low_surrogate y) eqn:Ly.
      * cbn [Utf8.encode]. now rewrite Hx, Ly, IH1.
      * change (Utf8.encode (Utf8.replacement_char :: toWellFormed (y :: l)))
          with (Utf8.encode_code_point Utf8.replacement_char
                  ++ Utf8.encode (toWellFormed (y :: l))).
        rewrite IH2. cbn [Utf8.encode]. now rewrite Hx, Ly.
    + destruct (is_low_surrogate x) eqn:Lx.
      * change (Utf8.encode (Utf8.replacement_char :: toWellFormed (y :: l)))
          with (Utf8.encode_code_point Utf8.replacement_char
                  ++ Utf8.encode (toWellFormed (y :: l))).
        rewrite IH2.
        change (Utf8.encode (x :: y :: l))
          with (if is_high_surrogate x
                then if is_low_surrogate y
                     then Utf8.encode_code_point (Utf8.combine_surrogates x y)
                            ++ Utf8.encode l
                     else Utf8.encode_code_point Utf8.replacement_char
                            ++ Utf8.encode (y :: l)
                else if is_low_surrogate x
                     then Utf8.encode_code_point Utf8.replacement_char
                            ++ Utf8.encode (y :: l)
                     else Utf8.encode_code_point x ++ Utf8.encode (y :: l)).
        now rewrite Hx, Lx.
      * change (Utf8.encode (x :: toWellFormed (y :: l)))
          with (if is_high_surrogate x
                then match toWellFormed (y :: l) with
                     | l0 :: s'' =>
                         if is_low_surrogate l0
                         then Utf8.encode_code_point (Utf8.combine_surrogates x l0)
                                ++ Utf8.encode s''
                         else Utf8.encode_code_point Utf8.replacement_char
                                ++ Utf8.encode (toWellFormed (y :: l))
                     | [] => Utf8.encode_code_point Utf8.replacement_char
                     end
                else if is_low_surrogate x
                     then Utf8.encode_code_point Utf8.replacement_char
                            ++ Utf8.encode (toWellFormed (y :: l))
                     else Utf8.encode_code_point x
                            ++ Utf8.encode (toWellFormed (y :: l))).
        rewrite Hx, Lx, IH2.
        change (Utf8.encode (x :: y :: l))
          with (if is_high_surrogate x
                then if is_low_surrogate y
                     then Utf8.encode_code_point (Utf8.combine_surrogates x y)
                            ++ Utf8.encode l
                     else Utf8.encode_code_point Utf8.replacement_char
                            ++ Utf8.encode (y :: l)
                else if is_low_surrogate x
                     then Utf8.encode_code_point Utf8.replacement_char
                            ++ Utf8.encode (y :: l)
                     else Utf8.encode_code_point x ++ Utf8.encode (y :: l)).
        now rewrite Hx, Lx.
Qed.

Lemma isWellFormed_plain (u : N) (s : jsstring) :
  is_high_surrogate u = false -> is_low_surrogate u = false -> u < 0x10000 ->
  isWellFormed (u :: s) = isWellFormed s.
Proof.
  intros Hu Lu Hlt. cbn [isWellFormed]. rewrite Hu, Lu.
  apply N.ltb_lt in Hlt. now rewrite Hlt.
Qed.

Lemma code_units_Forall (s : jsstring) :
  code_units s -> Forall (fun u => u < 0x10000) s.
Proof.
  unfold code_units. intros H. apply Forall_forall. intros u Hu.
  apply N.ltb_lt. revert u Hu. now apply forallb_forall.
Qed.

Lemma toWellFormed_wellFormed (s : jsstring) :
  code_units s -> isWellFormed (toWellFormed s) = true.
Proof.
  intros Hcu. apply code_units_Forall in Hcu. revert Hcu.
  induction s as [|x|x y l IH1 IH2] using list_ind2; intros Hs.
  - reflexivity.
  - inversion Hs as [|? ? Hx _]; subst.
    cbn [toWellFormed].
    destruct (is_high_surrogate x) eqn:Hh; [reflexivity|].
    destruct (is_low_surrogate x) eqn:Hl; [reflexivity|].
    now rewrite isWellFormed_plain.
  - inversion Hs as [|? ? Hx Hs']; subst.
    inversion Hs' as [|? ? Hy Hl]; subst.
    rewrite toWellFormed_cons2.
    destruct (is_high_surrogate x) eqn:Hh.
    + destruct (is_low_surrogate y) eqn:Ly.
      * cbn [isWellFormed]. rewrite Hh, Ly. now apply IH1.
      * rewrite isWellFormed_plain by (reflexivity || (unfold Utf8.replacement_char; lia)).
        now apply IH2.
    + destruct (is_low_surrogate x) eqn:Lx.
      * rewrite isWellFormed_plain by (reflexivity || (unfold Utf8.replacement_char; lia)).
        now apply IH2.
      * rewrite isWellFormed_plain by assumption. now apply IH2.
Qed.

(** What UTF-8 makes of any string: its well-formed version. *)
Lemma utf8_decode_encode_any (s : jsstring) :
  code_units s -> Utf8.decode (Utf8.encode s) = toWellFormed s.
Proof.
  intros Hs. rewrite <- encode_toWellFormed.
  now apply utf8_decode_encode, toWellFormed_wellFormed.
Qed.

Lemma toWellFormed_id (s : jsstring) :
  isWellFormed s = true -> toWellFormed s = s.
Proof.
  remember (length s) as n eqn:Hn. revert s Hn.
  induction n as [n IH] using lt_wf_ind. intros s Hn Hwf.
  destruct (isWellFormed_cases s Hwf)
    as [-> | [(h & l & s' & -> & Hh & Hl & Hs') | (u & s' & -> & Hh & Hl & Hu & Hs')]].
  - reflexivity.
  - cbn [toWellFormed]. rewrite Hh, Hl.
    now rewrite (IH (length s')) by (cbn [length] in Hn; first [lia | reflexivity | assumption]).
  - cbn [toWellFormed]. rewrite Hh, Hl.
    now rewrite (IH (length s')) by (cbn [length] in Hn; first [lia | reflexivity | assumption]).
Qed.

(** ** Decryption, seen from the whole ciphertext *)

(** A decryption that was not given a whole, positive number of blocks
    cannot be finished. *)
Lemma finish_not_blocks {P : Platform} (k iv : bytes) (I : bytes)
    (d : option StringDecoder.t) :
  (length I = 0 \/ length I mod 16 <> 0)%nat ->
  Cipher.finish (Session.dec_ctx k iv I d) = Throw WrongFinalBlockLength.
Proof.
  intros Hlen. unfold Cipher.finish.
  cbn [Session.dec_ctx Cipher.dir Cipher.buf].
  replace (length (skipn ((length I - 1) / 16 * 16) I) =? Cipher.block_size)%nat
    with false; [reflexivity|].
  symmetry. apply Nat.eqb_neq. rewrite length_skipn.
  unfold Cipher.block_size. div_mod_lia.
Qed.

Lemma final_dec_not_blocks {P : Platform} (k iv : bytes) (enc : Encoding)
    (I : bytes) (c : Cipher.t) :
  Session.tracks Cipher.Decrypt k iv enc I c ->
  (length I = 0 \/ length I mod 16 <> 0)%nat ->
  Cipher.final c enc = Throw WrongFinalBlockLength.
Proof.
  intros (d & -> & _) Hlen.
  unfold Cipher.final. cbn [Session.ctx].
  now rewrite finish_not_blocks.
Qed.

Section WholeCiphertext.
Context {P : Platform} {L : PlatformLaws P}.
Variables (k iv : bytes).
Hypothesis (Hk : length k = 32%nat) (Hiv : length iv = 16%nat).

(** The blocks before the last one, and the last one. *)
Lemma dec_blocks_whole (I : bytes) :
  Session.dec_blocks k iv (Session.cbc_encrypt k iv I)
  = (firstn (16 * (length I / 16)) I, snd (Session.enc_blocks k iv I)).
Proof.
  pose proof (cbc_encrypt_length k iv Hk Hiv I) as Hlen.
  set (n0 := (length I / 16)%nat) in *.
  assert (HnI : (16 * n0 <= length I)%nat) by (unfold n0; div_mod_lia).
  assert (Hn : ((length (Session.cbc_encrypt k iv I) - 1) / 16 = n0)%nat).
  { rewrite Hlen. div_mod_lia. }
  unfold Session.dec_blocks. rewrite Hn.
  unfold Session.cbc_encrypt, Session.enc_blocks. fold n0.
  now apply decrypt_encrypt_blocks.
Qed.

Lemma finish_dec (I : bytes) (d : option StringDecoder.t) :
  Cipher.finish (Session.dec_ctx k iv (Session.cbc_encrypt k iv I) d)
  = Ok (skipn (16 * (length I / 16)) I).
Proof.
  pose proof (cbc_encrypt_length k iv Hk Hiv I) as Hlen.
  destruct (enc_blocks_lengths k iv Hk Hiv I) as [Hl1 Hl2].
  pose proof (dec_blocks_whole I) as Hdec.
  set (n0 := (length I / 16)%nat) in *.
  assert (HnI : (16 * n0 <= length I)%nat) by (unfold n0; div_mod_lia).
  assert (Hrest : (length (skipn (n0 * 16) I) < 16)%nat).
  { rewrite length_skipn. unfold n0. div_mod_lia. }
  assert (Hn : ((length (Session.cbc_encrypt k iv I) - 1) / 16 = n0)%nat).
  { rewrite Hlen. div_mod_lia. }
  assert (Hbuf : skipn (n0 * 16) (Session.cbc_encrypt k iv I)
                 = aes_encrypt_block k
                     (Cipher.xor_block (Cipher.pkcs7_pad (skipn (n0 * 16) I))
                        (snd (Session.enc_blocks k iv I)))).
  { unfold Session.cbc_encrypt. fold n0. apply skipn_app_exact.
    rewrite Hl1. lia. }
  assert (Hx : length (Cipher.xor_block (Cipher.pkcs7_pad (skipn (n0 * 16) I))
                         (snd (Session.enc_blocks k iv I))) = 16%nat).
  { rewrite xor_block_length; rewrite pad_length; lia. }
  unfold Cipher.finish.
  cbn [Session.dec_ctx Cipher.dir Cipher.key Cipher.buf Cipher.chain].
  rewrite Hn, Hdec, Hbuf. cbn [fst snd].
  rewrite aes_encrypt_length by assumption.
  cbn [Nat.eqb negb Cipher.block_size].
  rewrite aes_decrypt_encrypt by assumption.
  rewrite xor_block_cancel by (rewrite pad_length; lia).
  rewrite unpad_pad by assumption.
  now rewrite (Nat.mul_comm n0 16).
Qed.

(** With another IV the context is the same once a block went through:
    only the first block of the output is not. *)
Variable iv' : bytes.

Hypothesis Hiv' : length iv' = 16%nat.

Lemma decrypt_blocks_other_iv (n : nat) (C B : bytes) :
  (1 <= n)%nat -> length B = 16%nat ->
  firstn 16 C = aes_encrypt_block k (Cipher.xor_block B iv) ->
  Cipher.decrypt_blocks k iv' n C =
  (Cipher.xor_block (Cipher.xor_block B iv) iv'
     ++ skipn 16 (fst (Cipher.decrypt_blocks k iv n C)),
   snd (Cipher.decrypt_blocks k iv n C)).
Proof.
  intros Hn HB HC. destruct n as [|m]; [lia|].
  cbn [Cipher.decrypt_blocks]. unfold Cipher.block_size. rewrite HC.
  rewrite aes_decrypt_encrypt by (assumption || (rewrite xor_block_length; lia)).
  destruct (Cipher.decrypt_blocks k _ m (skipn 16 C)) as [out ch].
  cbn [fst snd]. f_equal. f_equal. symmetry. apply skipn_app_exact.
  rewrite !xor_block_length; rewrite ?xor_block_length; lia.
Qed.

Lemma dec_blocks_other_iv (I : bytes) :
  (16 <= length I)%nat ->
  Session.dec_blocks k iv' (Session.cbc_encrypt k iv I) =
  (Cipher.xor_block (Cipher.xor_block (firstn 16 I) iv) iv'
     ++ skipn 16 (firstn (16 * (length I / 16)) I),
   snd (Session.enc_blocks k iv I)).
Proof.
  intros HI.
  pose proof (dec_blocks_whole I) as Hw.
  assert (Hb : length (firstn 16 I) = 16%nat) by (rewrite length_firstn; lia).
  assert (Hc1 : firstn 16 (Session.cbc_encrypt k iv I)
                = aes_encrypt_block k (Cipher.xor_block (firstn 16 I) iv)).
  { unfold Session.cbc_encrypt, Session.enc_blocks.
    destruct (length I / 16)%nat as [|m] eqn:En0; [div_mod_lia|].
    cbn [Cipher.encrypt_blocks]. unfold Cipher.block_size.
    destruct (Cipher.encrypt_blocks k _ m (skipn 16 I)) as [o c].
    cbn [fst snd]. rewrite <- !app_assoc. apply firstn_app_exact.
    apply aes_encrypt_length; [assumption|].
    rewrite xor_block_length; lia. }
  unfold Session.dec_blocks in *.
  rewrite (decrypt_blocks_other_iv _ _ (firstn 16 I)); try assumption.
  - now rewrite Hw.
  - pose proof (cbc_encrypt_length k iv Hk Hiv I) as Hlen.
    rewrite Hlen. div_mod_lia.
Qed.

(** Once a block went through, the context does not remember the IV. *)
Lemma dec_ctx_other_iv (I : bytes) (d : option StringDecoder.t) :
  (16 <= length I)%nat ->
  Session.dec_ctx k iv' (Session.cbc_encrypt k iv I) d
  = Session.dec_ctx k iv (Session.cbc_encrypt k iv I) d.
Proof.
  intros HI. unfold Session.dec_ctx.
  now rewrite dec_blocks_other_iv, dec_blocks_whole.
Qed.

Lemma final_dec_other_iv (enc : Encoding) (I : bytes) (c : Cipher.t) :
  (16 <= length I)%nat ->
  Session.tracks Cipher.Decrypt k iv' enc (Session.cbc_encrypt k iv I) c ->
  exists f,
    Cipher.final c enc = Ok f /\
    Session.text_after enc
      (Session.produced k iv' Cipher.Decrypt (Session.cbc_encrypt k iv I)) ++ f
    = Buffer.toString
        (Cipher.xor_block (Cipher.xor_block (firstn 16 I) iv) iv' ++ skipn 16 I)
        enc.
Proof.
  intros HI (d & -> & Hd).
  unfold Cipher.final. cbn [Session.ctx].
  rewrite dec_ctx_other_iv by assumption.
  rewrite finish_dec. cbn [bind].
  change (Cipher.decoder (Session.dec_ctx k iv (Session.cbc_encrypt k iv I) d))
    with d.
  rewrite (getDecoder_ok enc _ d Hd). cbn [bind].
  eexists. split; [reflexivity|].
  rewrite end_after. cbn [Session.produced].
  rewrite dec_blocks_other_iv by assumption. cbn [fst].
  f_equal. rewrite <- app_assoc. f_equal.
  assert (Hle : (16 <= 16 * (length I / 16))%nat) by div_mod_lia.
  transitivity (skipn 16 (firstn (16 * (length I / 16)) I
                            ++ skipn (16 * (length I / 16)) I)).
  - now rewrite skipn_app_le by (rewrite length_firstn; div_mod_lia).
  - now rewrite firstn_skipn.
Qed.
End WholeCiphertext.

(** ** Text mode, further *)

Lemma importKey_aes {P : Platform} (keyData : bytes) (usages : list string) :
  length keyData = 32%nat ->
  Subtle.importKey "raw" keyData "AES-CBC" usages
  = Ok (Subtle.mk_key "AES-CBC" keyData usages).
Proof.
  intros H. unfold Subtle.importKey. cbn [String.eqb Ascii.eqb Bool.eqb negb].
  now rewrite H.
Qed.

(** [TextDecoder] on the UTF-8 bytes of a well-formed string. *)
Lemma TextDecoder_encode (T : jsstring) :
  isWellFormed T = true ->
  TextDecoder.decode (Utf8.encode T) =
  match T with
  | u :: s => if u =? TextDecoder.byte_order_mark then s else T
  | [] => []
  end.
Proof.
  intros H. unfold TextDecoder.decode. rewrite utf8_decode_encode by assumption.
  destruct T as [|u s]; reflexivity.
Qed.

Section TextFurther.
Context {P : Platform} {L : PlatformLaws P}.
Variables (key ivv : jsstring).
Hypothesis (Hkey : valid_key key) (Hivv : valid_ivv ivv).

Local Abbreviation K := (Buffer.from key base64).
Local Abbreviation IV := (Buffer.from ivv base64).

(** [browserDecryptText] on the ciphertext of the message [M]. *)
Lemma browserDecryptText_spec (M : bytes) :
  has_subtle_importKey = true ->
  Browser.browserDecryptText key ivv (Base64.encode (Session.cbc_encrypt K IV M)) =
  Ok (TextDecoder.decode M).
Proof.
  intros Hcap. unfold Browser.browserDecryptText. rewrite Hcap. cbn [negb].
  rewrite importKey_aes by exact Hkey. cbn [bind].
  unfold Subtle.decrypt, Subtle.has_usage.
  cbn [Subtle.ck_algorithm Subtle.ck_usages Subtle.ck_data existsb
       String.eqb Ascii.eqb Bool.eqb andb orb negb].
  unfold valid_ivv in Hivv. rewrite Hivv. cbn [Nat.eqb negb].
  assert (Hfrom : Buffer.from (Base64.encode (Session.cbc_encrypt K IV M)) base64
                  = Session.cbc_encrypt K IV M) by apply decode_encode.
  rewrite Hfrom.
  change (Cipher.mk Cipher.Decrypt K IV [] None)
    with (Session.dec_ctx K IV [] None).
  destruct (transform_dec K IV [] (Session.cbc_encrypt K IV M) None)
    as (out & Et & Eo).
  rewrite Et. cbn [app] in Eo |- *.
  rewrite (finish_dec K IV Hkey Hivv). cbn [bind].
  rewrite (dec_blocks_whole K IV Hkey Hivv) in Eo.
  change (fst (Session.dec_blocks K IV [])) with (@nil byte) in Eo.
  cbn [fst app] in Eo.
  rewrite <- Eo. now rewrite firstn_skipn.
Qed.

(** Decryption of a text that is not a whole number of blocks. *)
Lemma nativeDecryptText_not_blocks (text : jsstring) :
  has_createDecipheriv = true ->
  (length (Buffer.from text base64) = 0
   \/ length (Buffer.from text base64) mod 16 <> 0)%nat ->
  Native.nativeDecryptText key ivv text = Throw WrongFinalBlockLength.
Proof.
  intros Hcap Hlen. unfold Native.nativeDecryptText. rewrite Hcap. cbn [negb].
  unfold QuickCrypto.createDecipheriv.
  rewrite create_ok by assumption. cbn [bind].
  destruct (create_tracks K IV Cipher.Decrypt utf8 _ _
              (create_ok K IV Cipher.Decrypt Hkey Hivv)) as (Ht & _ & _).
  destruct (update_tracks K IV Cipher.Decrypt utf8 [] _ text base64 Ht)
    as (c1 & t1 & E1 & Ht1 & _).
  rewrite E1. cbn [bind].
  now rewrite (final_dec_not_blocks K IV utf8 _ c1 Ht1).
Qed.

Lemma browserDecryptText_not_blocks (text : jsstring) :
  has_subtle_importKey = true ->
  (length (Buffer.from text base64) = 0
   \/ length (Buffer.from text base64) mod 16 <> 0)%nat ->
  Browser.browserDecryptText key ivv text = Throw WrongFinalBlockLength.
Proof.
  intros Hcap Hlen. unfold Browser.browserDecryptText. rewrite Hcap. cbn [negb].
  rewrite importKey_aes by exact Hkey. cbn [bind].
  unfold Subtle.decrypt, Subtle.has_usage.
  cbn [Subtle.ck_algorithm Subtle.ck_usages Subtle.ck_data existsb
       String.eqb Ascii.eqb Bool.eqb andb orb negb].
  unfold valid_ivv in Hivv. rewrite Hivv. cbn [Nat.eqb negb].
  change (Cipher.mk Cipher.Decrypt K IV [] None)
    with (Session.dec_ctx K IV [] None).
  destruct (transform_dec K IV [] (Buffer.from text base64) None)
    as (out & Et & _).
  rewrite Et. cbn [app].
  now rewrite finish_not_blocks.
Qed.

(** Decryption with another IVV. *)
Lemma nativeDecryptText_other_ivv (ivv' : jsstring) (M : bytes) :
  has_createDecipheriv = true -> valid_ivv ivv' ->
  (16 <= length M)%nat ->
  Native.nativeDecryptText key ivv' (Base64.encode (Session.cbc_encrypt K IV M)) =
  Ok (Buffer.toString
        (Cipher.xor_block (Cipher.xor_block (firstn 16 M) IV)
                          (Buffer.from ivv' base64) ++ skipn 16 M) utf8).
Proof.
  intros Hcap Hivv' HM. unfold Native.nativeDecryptText. rewrite Hcap. cbn [negb].
  unfold QuickCrypto.createDecipheriv.
  rewrite create_ok by assumption. cbn [bind].
  set (IV' := Buffer.from ivv' base64).
  destruct (create_tracks K IV' Cipher.Decrypt utf8 _ _
              (create_ok K IV' Cipher.Decrypt Hkey Hivv')) as (Ht & _ & _).
  destruct (update_tracks K IV' Cipher.Decrypt utf8 [] _
              (Base64.encode (Session.cbc_encrypt K IV M)) base64 Ht)
    as (c1 & t1 & E1 & Ht1 & Etxt).
  rewrite E1. cbn [bind].
  assert (Hfrom : Buffer.from (Base64.encode (Session.cbc_encrypt K IV M)) base64
                  = Session.cbc_encrypt K IV M) by apply decode_encode.
  rewrite Hfrom in Ht1, Etxt. cbn [app] in Ht1, Etxt.
  destruct (final_dec_other_iv K IV Hkey Hivv IV' Hivv' utf8 M c1 HM Ht1)
    as (f & E2 & Ef).
  rewrite E2. cbn [bind]. f_equal.
  change (Session.produced K IV' Cipher.Decrypt []) with (@nil byte) in Etxt.
  rewrite text_after_nil in Etxt. cbn [app] in Etxt.
  rewrite Etxt in Ef. exact Ef.
Qed.
End TextFurther.

(** X1.  The size of a text-mode ciphertext.  For every text, also one that is
    not well formed, [nativeEncryptText] returns base64 text that decodes
    to a whole number of 16-byte blocks, between 1 and 16 bytes more than
    the UTF-8 bytes of the text; the text has four ASCII characters for
    every three of these bytes. *)
Theorem ciphertext_size {P : Platform} {L : PlatformLaws P}
    (key ivv text : jsstring) :
  has_createCipheriv = true -> valid_key key -> valid_ivv ivv ->
  exists c,
    Native.nativeEncryptText key ivv text = Ok c /\
    length (Buffer.from c base64)
      = (16 * (length (Buffer.from text utf8) / 16) + 16)%nat /\
    (length (Buffer.from text utf8) < length (Buffer.from c base64)
       <= length (Buffer.from text utf8) + 16)%nat /\
    length c = (4 * ((length (Buffer.from c base64) + 2) / 3))%nat /\
    Forall (fun u => u < 128) c.
Proof.
  intros Hc Hkey Hivv. eexists.
  split; [now apply nativeEncryptText_spec|].
  cbn [Buffer.from]. rewrite decode_encode, encode_length.
  rewrite cbc_encrypt_length by assumption.
  repeat split; try reflexivity; try div_mod_lia.
  apply encode_ascii.
Qed.

(** X2.  The text round trip of any string.  Decrypting the encryption of a
    string gives the string with every unpaired surrogate replaced by
    U+FFFD and nothing else changed; this is the string itself exactly
    when it is well formed. *)
Theorem round_trip_replaces_unpaired_surrogates
    {P : Platform} {L : PlatformLaws P} (key ivv T : jsstring) :
  has_createCipheriv = true -> has_createDecipheriv = true ->
  valid_key key -> valid_ivv ivv -> code_units T ->
  exists c,
    Native.nativeEncryptText key ivv T = Ok c /\
    Native.nativeDecryptText key ivv c = Ok (toWellFormed T) /\
    (toWellFormed T = T <-> isWellFormed T = true).
Proof.
  intros Hc Hd Hkey Hivv HT. eexists.
  split; [now apply nativeEncryptText_spec|]. split.
  - rewrite nativeDecryptText_spec by assumption.
    now rewrite utf8_decode_encode_any.
  - split.
    + intros E. rewrite <- E. now apply toWellFormed_wellFormed.
    + apply toWellFormed_id.
Qed.

(** X3.  Text that is not a ciphertext.  When the base64 decoding of the text
    is empty or is not a whole number of 16-byte blocks, [nativeDecryptText]
    and [browserDecryptText] throw; nothing is returned, and the callback
    of [browserDecryptText] is not called. *)
Theorem decrypt_text_not_whole_blocks {P : Platform} (key ivv text : jsstring) :
  valid_key key -> valid_ivv ivv ->
  (length (Buffer.from text base64) = 0
   \/ length (Buffer.from text base64) mod 16 <> 0)%nat ->
  (has_createDecipheriv = true ->
   Native.nativeDecryptText key ivv text = Throw WrongFinalBlockLength) /\
  (has_subtle_importKey = true ->
   exists e, Browser.browserDecryptText key ivv text = Throw e).
Proof.
  intros Hkey Hivv Hlen. split; intros Hcap.
  - now apply nativeDecryptText_not_blocks.
  - eexists. now apply browserDecryptText_not_blocks.
Qed.

(** X4.  A key that is not 32 bytes or an IVV that is not 16 bytes.  The four
    native operations that take a key refuse it when the cipher context is
    created: the text functions throw, and the stream functions reject
    before either endpoint is touched. *)
Theorem invalid_key_or_ivv_is_refused {P : Platform}
    (key ivv text : jsstring) (inputStream : ReadStream)
    (outputStream : WriteStream) (bufferSize : option number) :
  has_createCipheriv = true -> has_createDecipheriv = true ->
  ~ (valid_key key /\ valid_ivv ivv) ->
  exists e,
    (e = InvalidKeyLength \/ e = InvalidIV) /\
    Native.nativeEncryptText key ivv text = Throw e /\
    Native.nativeDecryptText key ivv text = Throw e /\
    Native.nativeEncryptStream key ivv inputStream outputStream bufferSize = Throw e /\
    Native.nativeDecryptStream key ivv inputStream outputStream bufferSize = Throw e.
Proof.
  intros Hc Hd Hbad.
  unfold Native.nativeEncryptText, Native.nativeDecryptText,
    Native.nativeEncryptStream, Native.nativeDecryptStream.
  rewrite Hc, Hd. cbn [negb].
  unfold QuickCrypto.createCipheriv, QuickCrypto.createDecipheriv, Native.alg,
    Cipher.create.
  cbn [String.eqb Ascii.eqb Bool.eqb negb].
  unfold valid_key, valid_ivv in Hbad.
  destruct (Nat.eqb_spec (length (Buffer.from key base64)) 32) as [Hk|Hk];
    cbn [negb].
  - destruct (Nat.eqb_spec (length (Buffer.from ivv base64)) 16) as [Hi|Hi];
      cbn [negb bind].
    + exfalso. apply Hbad. now split.
    + exists InvalidIV. repeat split. now right.
  - exists InvalidKeyLength. repeat split. now left.
Qed.

(** X5.  The wrong IVV is not noticed.  A text of at least 16 UTF-8 bytes that
    is decrypted with the right key and another IVV (of 16 bytes) does not
    fail: the bytes after the first 16 are those of the plaintext, and the
    first 16 are those of the plaintext XORed with both IVs. *)
Theorem wrong_ivv_is_not_detected {P : Platform} {L : PlatformLaws P}
    (key ivv ivv' T : jsstring) :
  has_createCipheriv = true -> has_createDecipheriv = true ->
  valid_key key -> valid_ivv ivv -> valid_ivv ivv' ->
  (16 <= length (Buffer.from T utf8))%nat ->
  exists c,
    Native.nativeEncryptText key ivv T = Ok c /\
    Native.nativeDecryptText key ivv' c =
    Ok (Buffer.toString
          (Cipher.xor_block
             (Cipher.xor_block (firstn 16 (Buffer.from T utf8))
                               (Buffer.from ivv base64))
             (Buffer.from ivv' base64)
           ++ skipn 16 (Buffer.from T utf8)) utf8).
Proof.
  intros Hc Hd Hkey Hivv Hivv' HT. eexists.
  split; [now apply nativeEncryptText_spec|].
  now apply nativeDecryptText_other_ivv.
Qed.

(** X6.  The two implementations produce the same ciphertext: for every key,
    IVV and text, what [browserEncryptText] hands to its callback is what
    [nativeEncryptText] returns. *)
Theorem native_browser_same_ciphertext {P : Platform} {L : PlatformLaws P}
    (key ivv text : jsstring) :
  has_createCipheriv = true -> has_subtle_importKey = true ->
  valid_key key -> valid_ivv ivv ->
  exists c,
    Native.nativeEncryptText key ivv text = Ok c /\
    Browser.browserEncryptText key ivv text = Ok c.
Proof.
  intros Hc Hs Hkey Hivv. eexists.
  split; [now apply nativeEncryptText_spec | now apply browserEncryptText_spec].
Qed.

(** X7.  The browser round trip.  For a well-formed text that does not start
    with U+FEFF, [browserDecryptText] hands to its callback the text that
    [browserEncryptText] was given, and so it does with the ciphertext of
    [nativeEncryptText]. *)
Theorem browser_text_round_trip {P : Platform} {L : PlatformLaws P}
    (key ivv T : jsstring) :
  has_subtle_importKey = true -> valid_key key -> valid_ivv ivv ->
  isWellFormed T = true ->
  (hd 0 T =? TextDecoder.byte_order_mark) = false ->
  exists c,
    Browser.browserEncryptText key ivv T = Ok c /\
    Browser.browserDecryptText key ivv c = Ok T /\
    (has_createCipheriv = true -> Native.nativeEncryptText key ivv T = Ok c).
Proof.
  intros Hs Hkey Hivv Hwf Hbom. eexists.
  split; [now apply browserEncryptText_spec|]. split.
  - rewrite browserDecryptText_spec by assumption.
    rewrite TextDecoder_encode by assumption.
    destruct T as [|u s]; [reflexivity|].
    cbn [hd] in Hbom. now rewrite Hbom.
  - intros Hc. now apply nativeEncryptText_spec.
Qed.

(** X8.  The browser round trip loses a leading U+FEFF.  For a well-formed
    text [T'], the text U+FEFF followed by [T'] comes back from
    [browserDecryptText] as [T'], where [nativeDecryptText] returns the
    whole text for the same ciphertext. *)
Theorem browser_round_trip_drops_byte_order_mark
    {P : Platform} {L : PlatformLaws P} (key ivv T' : jsstring) :
  has_subtle_importKey = true -> has_createDecipheriv = true ->
  valid_key key -> valid_ivv ivv ->
  isWellFormed T' = true ->
  exists c,
    Browser.browserEncryptText key ivv (TextDecoder.byte_order_mark :: T') = Ok c /\
    Browser.browserDecryptText key ivv c = Ok T' /\
    Native.nativeDecryptText key ivv c = Ok (TextDecoder.byte_order_mark :: T').
Proof.
  intros Hs Hd Hkey Hivv Hwf.
  assert (Hwf' : isWellFormed (TextDecoder.byte_order_mark :: T') = true).
  { rewrite isWellFormed_plain; [assumption | reflexivity | reflexivity |].
    unfold TextDecoder.byte_order_mark. lia. }
  eexists. split; [now apply browserEncryptText_spec|]. split.
  - rewrite browserDecryptText_spec by assumption.
    now rewrite TextDecoder_encode by assumption.
  - rewrite nativeDecryptText_spec by assumption.
    now rewrite utf8_decode_encode.
Qed.

(** X9.  A 16-byte key.  [browserEncryptText] takes the key as an AES-CBC key
    of whatever size it has and encrypts with a 128-bit key, where
    [nativeEncryptText], which names aes-256-cbc, throws. *)
Theorem browser_accepts_128_bit_key {P : Platform} (key ivv text : jsstring) :
  has_subtle_importKey = true -> has_createCipheriv = true ->
  length (Buffer.from key base64) = 16%nat -> valid_ivv ivv ->
  (exists c, Browser.browserEncryptText key ivv text = Ok c) /\
  Native.nativeEncryptText key ivv text = Throw InvalidKeyLength.
Proof.
  intros Hs Hc Hkey Hivv. split.
  - unfold Browser.browserEncryptText. rewrite Hs. cbn [negb].
    unfold Subtle.importKey. cbn [String.eqb Ascii.eqb Bool.eqb negb].
    rewrite Hkey. cbn [Nat.eqb orb bind].
    unfold Subtle.encrypt, Subtle.has_usage.
    cbn [Subtle.ck_algorithm Subtle.ck_usages Subtle.ck_data existsb
         String.eqb Ascii.eqb Bool.eqb andb orb negb].
    unfold valid_ivv in Hivv. rewrite Hivv. cbn [Nat.eqb negb].
    destruct (Cipher.transform _ _) as [c1 body] eqn:Et.
    assert (Hdir : Cipher.dir c1 = Cipher.Encrypt).
    { unfold Cipher.transform in Et. cbn [Cipher.dir] in Et.
      destruct (Cipher.encrypt_blocks _ _ _ _) in Et. now injection Et as <- _. }
    unfold Cipher.finish. rewrite Hdir. cbn [bind]. eexists. reflexivity.
  - unfold Native.nativeEncryptText. rewrite Hc. cbn [negb].
    unfold QuickCrypto.createCipheriv, Native.alg, Cipher.create.
    cbn [String.eqb Ascii.eqb Bool.eqb negb]. now rewrite Hkey.
Qed.

(** ** Generated keys and IVVs *)

Lemma deriveKey_valid {P : Platform} {L : PlatformLaws P}
    (password ivv : jsstring) :
  valid_key (deriveKey password ivv).
Proof.
  unfold valid_key, deriveKey. cbn [Buffer.from].
  rewrite decode_encode. now rewrite pbkdf2_length.
Qed.

(** X10.  [nativeGenerateIvv].  When the provider returns the 16 bytes it is
    asked for, the result is their base64 text: 24 characters that decode
    to these bytes, an IVV of the right size.  Without [randomBytes] the
    function throws. *)
Theorem nativeGenerateIvv_valid (random : N -> bytes) :
  length (random 16) = 16%nat ->
  (exists ivv,
     Native.nativeGenerateIvv (Some random) = Ok ivv /\
     Buffer.from ivv base64 = random 16 /\
     valid_ivv ivv /\ length ivv = 24%nat) /\
  Native.nativeGenerateIvv None
    = Throw (NotSupported "nativeCrypto.randomBytes is not supported").
Proof.
  intros H. split; [|reflexivity].
  eexists. split; [reflexivity|].
  unfold valid_ivv. cbn [Buffer.from Buffer.toString].
  rewrite decode_encode, encode_length, H. repeat split.
Qed.

(** X11.  From a password to a round trip.  With the IVV of [nativeGenerateIvv]
    and the key that [nativeGenerateKey] derives from any password and
    this IVV, text encryption succeeds and decryption returns the text;
    the same holds with the key of [browserGenerateKey]. *)
Theorem generated_key_round_trip {P : Platform} {L : PlatformLaws P}
    (random : N -> bytes) (password T : jsstring) :
  has_pbkdf2Sync = true -> has_createCipheriv = true ->
  has_createDecipheriv = true ->
  length (random 16) = 16%nat -> isWellFormed T = true ->
  exists ivv key c,
    Native.nativeGenerateIvv (Some random) = Ok ivv /\
    Native.nativeGenerateKey password ivv = Ok key /\
    (has_subtle_importKey = true ->
     Browser.browserGenerateKey password ivv = Ok key) /\
    Native.nativeEncryptText key ivv T = Ok c /\
    Native.nativeDecryptText key ivv c = Ok T.
Proof.
  intros Hp Hc Hd Hr Hwf.
  set (ivv := Buffer.toString (random 16) base64).
  assert (Hivv : valid_ivv ivv).
  { unfold valid_ivv, ivv. cbn [Buffer.from Buffer.toString].
    now rewrite decode_encode. }
  pose proof (deriveKey_valid password ivv) as Hkey.
  exists ivv, (deriveKey password ivv). eexists.
  split; [reflexivity|].
  split; [now apply nativeGenerateKey_spec|].
  split; [intros Hs; now apply browserGenerateKey_spec|].
  split; [now apply nativeEncryptText_spec|].
  rewrite nativeDecryptText_spec by assumption.
  now rewrite utf8_decode_encode.
Qed.

(** ** Stream mode, further *)

(** UTF-8 text in well-formed pieces. *)
Lemma encode_app_wellFormed (a b : jsstring) :
  isWellFormed a = true -> Utf8.encode (a ++ b) = Utf8.encode a ++ Utf8.encode b.
Proof.
  remember (length a) as n eqn:Hn. revert a Hn.
  induction n as [n IH] using lt_wf_ind. intros a Hn Hwf.
  destruct (isWellFormed_cases a Hwf)
    as [-> | [(h & l & s' & -> & Hh & Hl & Hs') | (u & s' & -> & Hh & Hl & Hu & Hs')]].
  - reflexivity.
  - cbn [app Utf8.encode]. rewrite Hh, Hl. rewrite <- app_assoc. f_equal.
    apply (IH (length s')); cbn [length] in Hn; first [lia | reflexivity | assumption].
  - cbn [app Utf8.encode]. rewrite Hh, Hl. rewrite <- app_assoc. f_equal.
    apply (IH (length s')); cbn [length] in Hn; first [lia | reflexivity | assumption].
Qed.

Lemma encode_wellFormed_pieces (l : list jsstring) :
  Forall (fun c => isWellFormed c = true) l ->
  concat (map Utf8.encode l) = Utf8.encode (concat l).
Proof.
  induction 1 as [|c l Hc _ IH]; [reflexivity|].
  cbn [map concat]. rewrite IH. symmetry. now apply encode_app_wellFormed.
Qed.

(** X12.  Chunks that are not cut inside a surrogate pair.  Whatever the pieces
    in which a source delivers a text, when each piece is well formed the
    texts that [nativeEncryptStream] writes are, put together, what
    [nativeEncryptText] returns for the whole text. *)
Theorem encrypt_stream_any_chunking {P : Platform} {L : PlatformLaws P}
    (key ivv : jsstring) (inputStream : ReadStream) (outputStream : WriteStream)
    (bufferSize : option number) (chunks : list jsstring) :
  has_createCipheriv = true -> valid_key key -> valid_ivv ivv ->
  forallb isWellFormed chunks = true ->
  exists op c,
    Native.nativeEncryptStream key ivv inputStream outputStream bufferSize = Ok op /\
    Native.nativeEncryptText key ivv (concat chunks) = Ok c /\
    concat (Run.written (op_trace (Native.encrypt_deliver op chunks EndOfData))) = c /\
    op_promise (Native.encrypt_deliver op chunks EndOfData) = Some (Ok tt).
Proof.
  intros Hc Hkey Hivv Hwf.
  assert (Hwf' : Forall (fun c => isWellFormed c = true) chunks)
    by (apply Forall_forall; now apply forallb_forall).
  pose proof (nativeEncryptStream_ok key ivv Hkey Hivv inputStream outputStream
                bufferSize Hc) as Hop.
  eexists. eexists. split; [exact Hop|].
  split; [now apply nativeEncryptText_spec|]. split.
  - rewrite (encrypt_run_text key ivv inputStream outputStream bufferSize _ chunks
               Hc Hkey Hivv Hop).
    now rewrite encode_wellFormed_pieces.
  - set (op := mk_op _ _ _ _ _).
    pose proof (fresh_tracks key ivv Hkey Hivv Cipher.Encrypt base64) as Ht.
    destruct (onData_fold _ _ Cipher.Encrypt utf8 base64 chunks op [] Ht)
      as (ws0 & _ & Htr & _).
    destruct (final_enc _ _ base64 _ _ Htr) as (f & Ef & _).
    unfold Native.encrypt_deliver, Native.encrypt_onEnd.
    rewrite encrypt_onData_eq.
    now destruct (deliver_end _ _ Cipher.Encrypt utf8 base64 op chunks f Ht eq_refl Ef)
      as (_ & E2 & _).
Qed.

(** X13.  Stream decryption of a text-mode ciphertext.  When a source delivers
    the ciphertext of a well-formed text in pieces whose lengths are
    multiples of four, the texts that [nativeDecryptStream] writes are, put
    together, the plaintext, and the operation resolves. *)
Theorem decrypt_stream_aligned_chunks {P : Platform} {L : PlatformLaws P}
    (key ivv : jsstring) (inputStream : ReadStream) (outputStream : WriteStream)
    (bufferSize : option number) (chunks : list jsstring) (T : jsstring) :
  has_createCipheriv = true -> has_createDecipheriv = true ->
  valid_key key -> valid_ivv ivv ->
  isWellFormed T = true ->
  forallb (fun c => (length c mod 4 =? 0)%nat) chunks = true ->
  Native.nativeEncryptText key ivv T = Ok (concat chunks) ->
  exists op,
    Native.nativeDecryptStream key ivv inputStream outputStream bufferSize = Ok op /\
    concat (Run.written (op_trace (Native.decrypt_deliver op chunks EndOfData))) = T /\
    op_promise (Native.decrypt_deliver op chunks EndOfData) = Some (Ok tt).
Proof.
  intros Hc Hd Hkey Hivv Hwf Hal' Henc.
  assert (Hal : Forall (fun c => (length c mod 4 = 0)%nat) chunks).
  { apply Forall_forall. intros c Hin.
    apply Nat.eqb_eq. revert c Hin. now apply forallb_forall. }
  rewrite nativeEncryptText_spec in Henc by assumption.
  injection Henc as Henc.
  set (K := Buffer.from key base64) in *. set (IV := Buffer.from ivv base64) in *.
  set (M := Utf8.encode T) in *.
  pose proof (nativeDecryptStream_ok key ivv Hkey Hivv inputStream outputStream
                bufferSize Hd) as Hop.
  eexists. split; [exact Hop|].
  set (op := mk_op _ _ _ _ _).
  assert (Hin : Run.input_bytes base64 chunks = Session.cbc_encrypt K IV M).
  { unfold Run.input_bytes. cbn [Buffer.from].
    change (fun c : jsstring => Base64.decode c) with Base64.decode.
    rewrite <- (app_nil_r (concat (map Base64.decode chunks))).
    change (@nil byte) with (Base64.decode []).
    apply decode_pieces; [assumption|]. rewrite app_nil_r. now symmetry. }
  pose proof (fresh_tracks key ivv Hkey Hivv Cipher.Decrypt utf8) as Ht.
  destruct (onData_fold _ _ Cipher.Decrypt base64 utf8 chunks op [] Ht)
    as (ws0 & _ & Htr & _).
  cbn [app] in Htr. rewrite Hin in Htr.
  destruct (final_dec K IV Hkey Hivv utf8 M _ Htr) as (f & Ef & Etxt).
  destruct (deliver_end_written _ _ Cipher.Decrypt base64 utf8 op chunks f
              Ht eq_refl eq_refl Ef) as (ws & _ & Hws & Hw & _ & Hpr & _).
  unfold Native.decrypt_deliver, Native.decrypt_onEnd.
  rewrite decrypt_onData_eq. split; [|exact Hpr].
  rewrite Hw, Hws. fold K IV. rewrite Hin, Etxt.
  cbn [Buffer.toString]. now apply utf8_decode_encode.
Qed.

(** X14.  A truncated file.  When what the chunks of the source decode to is
    empty or is not a whole number of 16-byte blocks, [nativeDecryptStream]
    never settles: the finalization throws in the end handler, which then
    neither writes, nor closes the sink, nor resolves, nor rejects. *)
Theorem truncated_stream_never_settles {P : Platform}
    (key ivv : jsstring) (inputStream : ReadStream) (outputStream : WriteStream)
    (bufferSize : option number) (chunks : list jsstring) :
  has_createDecipheriv = true -> valid_key key -> valid_ivv ivv ->
  (length (concat (map (fun c => Buffer.from c base64) chunks)) = 0
   \/ length (concat (map (fun c => Buffer.from c base64) chunks)) mod 16 <> 0)%nat ->
  exists op,
    Native.nativeDecryptStream key ivv inputStream outputStream bufferSize = Ok op /\
    let before := fold_left Native.decrypt_onData chunks op in
    let after := Native.decrypt_deliver op chunks EndOfData in
    op_promise after = None /\
    op_trace after = op_trace before ++ [Finalized] /\
    op_output after = op_output before /\
    filter Run.is_close (op_trace after) = [].
Proof.
  intros Hd Hkey Hivv Hlen.
  pose proof (nativeDecryptStream_ok key ivv Hkey Hivv inputStream outputStream
                bufferSize Hd) as Hop.
  eexists. split; [exact Hop|].
  set (op := mk_op _ _ _ _ _).
  pose proof (fresh_tracks key ivv Hkey Hivv Cipher.Decrypt utf8) as Ht.
  destruct (onData_fold _ _ Cipher.Decrypt base64 utf8 chunks op [] Ht)
    as (ws & _ & Htr & _ & Hpr & _ & Htrace).
  cbn [app] in Htr.
  pose proof (final_dec_not_blocks _ _ utf8 _ _ Htr Hlen) as Ef.
  cbv zeta. unfold Native.decrypt_deliver, Native.decrypt_onEnd.
  rewrite decrypt_onData_eq.
  unfold Native.onEnd. rewrite Ef. cbn [op_promise op_trace op_output].
  rewrite Hpr, Htrace. repeat split.
  cbn [op op_trace]. rewrite !filter_app, close_data. reflexivity.
Qed.

(** X15.  The last write of an encryption.  Whatever the chunks, the
    finalization of [nativeEncryptStream] returns exactly 24 characters,
    so that the test of its length never fails: the sink receives one write
    for every chunk and one more, and the operation resolves. *)
Theorem encrypt_stream_final_write {P : Platform} {L : PlatformLaws P}
    (key ivv : jsstring) (inputStream : ReadStream) (outputStream : WriteStream)
    (bufferSize : option number) (chunks : list jsstring) :
  has_createCipheriv = true -> valid_key key -> valid_ivv ivv ->
  exists op f,
    Native.nativeEncryptStream key ivv inputStream outputStream bufferSize = Ok op /\
    let before := fold_left Native.encrypt_onData chunks op in
    let after := Native.encrypt_deliver op chunks EndOfData in
    Cipher.final (op_cipher before) base64 = Ok f /\
    length f = 24%nat /\
    op_trace after = op_trace before ++ [Finalized; Written f; Closed; Resolved] /\
    length (ws_chunks (op_output after))
      = (length (ws_chunks outputStream) + length chunks + 1)%nat.
Proof.
  intros Hc Hkey Hivv.
  pose proof (nativeEncryptStream_ok key ivv Hkey Hivv inputStream outputStream
                bufferSize Hc) as Hop.
  set (op := mk_op _ _ _ _ _) in Hop.
  pose proof (fresh_tracks key ivv Hkey Hivv Cipher.Encrypt base64) as Ht.
  destruct (onData_fold _ _ Cipher.Encrypt utf8 base64 chunks op [] Ht)
    as (ws0 & _ & Htr & _).
  destruct (final_enc _ _ base64 _ _ Htr) as (f & Ef & Etxt).
  exists op, f. split; [exact Hop|]. cbv zeta.
  assert (Hf : length f = 24%nat).
  { apply (f_equal (@length _)) in Etxt. rewrite length_app in Etxt.
    cbn [Buffer.toString Session.text_after Session.produced app] in Etxt.
    rewrite !encode_length, length_firstn in Etxt.
    rewrite cbc_encrypt_length in Etxt by assumption.
    destruct (enc_blocks_lengths _ _ Hkey Hivv
                (Run.input_bytes utf8 chunks)) as [Hl _].
    rewrite Hl in Etxt. div_mod_lia. }
  destruct (deliver_end_written _ _ Cipher.Encrypt utf8 base64 op chunks f
              Ht eq_refl eq_refl Ef) as (ws & Hfeeds & _ & _ & Hout & _).
  destruct (deliver_end _ _ Cipher.Encrypt utf8 base64 op chunks f Ht eq_refl Ef)
    as (E1 & _).
  unfold Native.encrypt_deliver, Native.encrypt_onEnd.
  rewrite encrypt_onData_eq.
  destruct f as [|u f']; [discriminate|].
  split; [exact Ef|]. split; [exact Hf|]. split; [exact E1|].
  cbv beta iota in Hout. rewrite Hout.
  rewrite (proj1 (write_all_chunks _ _)), length_app, length_map, length_app.
  rewrite (feeds_length _ _ _ _ _ _ _ _ Hfeeds). cbn [length op op_output
    set_append set_ws_encoding ws_chunks]. lia.
Qed.

(** ** The test doubles, further *)

Lemma substring_length (s : jsstring) (i n : nat) :
  length (Mock.substring s i (i + n)) = Nat.min n (length s - i).
Proof.
  unfold Mock.substring. rewrite length_firstn, length_skipn.
  now replace (i + n - i)%nat with n by lia.
Qed.

Lemma chunks_from_bounds (n : nat) (s : jsstring) :
  (1 <= n)%nat ->
  forall fuel i,
    Forall (fun c => (1 <= length c <= n)%nat) (Mock.chunks_from fuel s i n).
Proof.
  intros Hn. induction fuel as [|fuel IH]; intros i; [constructor|].
  cbn [Mock.chunks_from]. destruct (Nat.ltb_spec i (length s)); [|constructor].
  constructor; [|apply IH]. rewrite substring_length. lia.
Qed.

Lemma chunks_from_full (n : nat) (s : jsstring) :
  forall fuel i,
    Forall (fun c => length c = n) (removelast (Mock.chunks_from fuel s i n)).
Proof.
  induction fuel as [|fuel IH]; intros i; [constructor|].
  cbn [Mock.chunks_from]. destruct (Nat.ltb_spec i (length s)); [|constructor].
  specialize (IH (i + n)%nat).
  destruct fuel as [|fuel']; [constructor|].
  cbn [Mock.chunks_from] in *.
  destruct (Nat.ltb_spec (i + n) (length s)); [|constructor].
  cbn [removelast] in *.
  constructor; [|exact IH]. rewrite substring_length. lia.
Qed.

Lemma chunks_from_count (n : nat) (s : jsstring) :
  (1 <= n)%nat ->
  forall fuel i, (length s <= fuel + i)%nat ->
  length (Mock.chunks_from fuel s i n) = ((length s - i + n - 1) / n)%nat.
Proof.
  intros Hn. induction fuel as [|fuel IH]; intros i Hf.
  - cbn [Mock.chunks_from length]. symmetry. apply Nat.div_small. lia.
  - cbn [Mock.chunks_from]. destruct (Nat.ltb_spec i (length s)) as [Hi|Hi].
    + cbn [length]. rewrite IH by lia.
      destruct (Nat.le_gt_cases (i + n) (length s)) as [Hle|Hgt].
      * replace (length s - i + n - 1)%nat
          with (length s - (i + n) + n - 1 + 1 * n)%nat by lia.
        rewrite Nat.div_add by lia. lia.
      * replace (length s - (i + n) + n - 1)%nat with (n - 1)%nat by lia.
        rewrite (Nat.div_small (n - 1) n) by lia.
        apply (Nat.div_unique _ n 1 (length s - i - 1)); lia.
    + cbn [length]. symmetry. apply Nat.div_small. lia.
Qed.

(** X16.  What the mock source delivers.  [open] cuts the text of its buffer, in
    the encoding of the source, into chunks of [bufferSize] characters
    (1024 when the size is 0, [NaN] or not set): every chunk but the last has
    exactly that size, none is empty, their number is the length divided by
    the size, rounded up, and put together they are the text; then the
    source signals the end. *)
Theorem mock_source_chunks (r : ReadStream) :
  let text := Buffer.toString (rs_buffer r) (rs_encoding r) in
  let size := N.to_nat (Mock.chunkSize r) in
  let chunks := fst (Mock.open r) in
  concat chunks = text /\
  snd (Mock.open r) = EndOfData /\
  Forall (fun c => (1 <= length c <= size)%nat) chunks /\
  Forall (fun c => length c = size) (removelast chunks) /\
  length chunks = ((length text + size - 1) / size)%nat.
Proof.
  cbv zeta. unfold Mock.open. cbn [fst snd].
  pose proof (chunkSize_pos r) as Hn.
  split; [now rewrite chunks_from_concat by lia|].
  split; [reflexivity|].
  split; [now apply chunks_from_bounds|].
  split; [apply chunks_from_full|].
  rewrite chunks_from_count by lia. now rewrite Nat.sub_0_r.
Qed.

(** X17.  Stream encryption and text encryption.  What [nativeEncryptStream]
    leaves in the mock sink is, read as text, what [nativeEncryptText]
    returns for the base64 text of the data, whatever the buffer size; so
    [nativeDecryptText] turns the contents of the sink into the base64
    text of the data, not into the data. *)
Theorem stream_encryption_is_text_encryption {P : Platform} {L : PlatformLaws P}
    (key ivv : jsstring) (data : jsstring + bytes) (b1 : option number) :
  has_createCipheriv = true -> has_createDecipheriv = true ->
  valid_key key -> valid_ivv ivv ->
  exists op c,
    Mock.encrypt_stream key ivv data b1 = Ok op /\
    Native.nativeEncryptText key ivv (Buffer.toString (Mock.buffer_of data) base64)
      = Ok c /\
    Mock.getString (op_output op) = c /\
    Native.nativeDecryptText key ivv (Mock.getString (op_output op))
      = Ok (Buffer.toString (Mock.buffer_of data) base64).
Proof.
  intros Hc Hd Hkey Hivv.
  destruct (encrypt_stream_spec key ivv Hkey Hivv data b1 Hc) as (op & E & _ & Hb).
  exists op. eexists. split; [exact E|].
  split; [now apply nativeEncryptText_spec|].
  assert (Hs : Mock.getString (op_output op)
               = Base64.encode
                   (Session.cbc_encrypt (Buffer.from key base64)
                      (Buffer.from ivv base64)
                      (Utf8.encode (Base64.encode (Mock.buffer_of data))))).
  { unfold Mock.getString. rewrite Hb. cbn [Buffer.toString].
    apply utf8_decode_encode, ascii_wellFormed, encode_ascii. }
  split; [exact Hs|].
  rewrite Hs. rewrite nativeDecryptText_spec by assumption.
  cbn [Buffer.toString]. f_equal.
  apply utf8_decode_encode, ascii_wellFormed, encode_ascii.
Qed.

(** X18.  The size of an encrypted stream.  For data of [n] bytes the mock sink
    of [nativeEncryptStream] holds the base64 text of whole cipher blocks
    over the base64 text of the data: more than 16/9 of [n] bytes, and at
    most 248/9 bytes above that. *)
Theorem encrypted_stream_size {P : Platform} {L : PlatformLaws P}
    (key ivv : jsstring) (data : jsstring + bytes) (b1 : option number) :
  has_createCipheriv = true -> valid_key key -> valid_ivv ivv ->
  exists op,
    Mock.encrypt_stream key ivv data b1 = Ok op /\
    let n := length (Mock.buffer_of data) in
    let size := length (Mock.getBuffer (op_output op)) in
    size = (4 * ((16 * (4 * ((n + 2) / 3) / 16) + 16 + 2) / 3))%nat /\
    (16 * n < 9 * size <= 16 * n + 248)%nat.
Proof.
  intros Hc Hkey Hivv.
  destruct (encrypt_stream_spec key ivv Hkey Hivv data b1 Hc) as (op & E & _ & Hb).
  exists op. split; [exact E|]. cbv zeta. rewrite Hb.
  rewrite (encode_ascii_text _ (encode_ascii _)), length_map, encode_length.
  rewrite cbc_encrypt_length by assumption.
  rewrite (encode_ascii_text _ (encode_ascii _)), length_map, encode_length.
  split; [reflexivity | div_mod_lia].
Qed.

(** ** The variant of browser.ts, further *)

(** X20.  Raw keys of the variant.  Once [browserInit] has stored the crypto
    object, the bytes that the variant's [browserGenerateKey] returns
    without base64 are those of the base64 key, which is the key of
    src/browser.ts; given to the variant's [browserDecryptText] they
    decrypt what [browserEncryptText] encrypted with the base64 key.
    Before [browserInit] the same call throws a TypeError. *)
Theorem variant_raw_key_decrypts {P : Platform} {L : PlatformLaws P}
    (browserCrypto : option Platform) (password ivv T : jsstring) :
  has_subtle_importKey = true -> valid_ivv ivv ->
  isWellFormed T = true ->
  (hd 0 T =? TextDecoder.byte_order_mark) = false ->
  let initialised := BrowserVariant.browserInit P browserCrypto in
  exists key raw c,
    Browser.browserGenerateKey password ivv = Ok key /\
    BrowserVariant.browserGenerateKey initialised (BrowserVariant.Str password) ivv true
      = Ok (BrowserVariant.Str key) /\
    BrowserVariant.browserGenerateKey initialised (BrowserVariant.Str password) ivv false
      = Ok (BrowserVariant.U8Array raw) /\
    key = Buffer.toString raw base64 /\
    length raw = 32%nat /\
    Browser.browserEncryptText key ivv T = Ok c /\
    BrowserVariant.browserDecryptText initialised (BrowserVariant.U8Array raw) ivv c
      = Ok T /\
    BrowserVariant.browserDecryptText None (BrowserVariant.U8Array raw) ivv c
      = Throw (TypeError "Cannot read properties of undefined (reading 'subtle')").
Proof.
  intros Hs Hivv Hwf Hbom initialised.
  pose proof (deriveKey_valid password ivv) as Hkey.
  exists (deriveKey password ivv). eexists. eexists.
  split; [now apply browserGenerateKey_spec|].
  unfold initialised, BrowserVariant.browserInit.
  split; [rewrite variant_key_base64 by assumption; reflexivity|].
  split; [rewrite variant_key_raw by assumption; reflexivity|].
  split; [reflexivity|].
  split; [apply pbkdf2_length|].
  split; [now apply browserEncryptText_spec|].
  split; [|reflexivity].
  transitivity (Browser.browserDecryptText (deriveKey password ivv) ivv
                  (Base64.encode
                     (Session.cbc_encrypt (Buffer.from (deriveKey password ivv) base64)
                        (Buffer.from ivv base64) (Utf8.encode T)))).
  - unfold BrowserVariant.browserDecryptText, Browser.browserDecryptText, deriveKey.
    cbn [Buffer.from]. now rewrite !decode_encode.
  - rewrite browserDecryptText_spec by assumption.
    rewrite TextDecoder_encode by assumption.
    destruct T as [|u s]; [reflexivity|].
    cbn [hd] in Hbom. now rewrite Hbom.
Qed.

(** ** Passwords and fingerprints *)

(** X22.  Passwords that differ in unpaired surrogates only.  The key and the
    hash are derived from the UTF-8 bytes of the password, so that two
    passwords with the same well-formed version have the same key and the
    same hash, in the native and in the browser implementation. *)
Theorem passwords_with_unpaired_surrogates_collide {P : Platform}
    (password password' ivv : jsstring) :
  toWellFormed password = toWellFormed password' ->
  Native.nativeGenerateKey password ivv = Native.nativeGenerateKey password' ivv /\
  Native.nativeGenerateHash password ivv = Native.nativeGenerateHash password' ivv /\
  Browser.browserGenerateKey password ivv = Browser.browserGenerateKey password' ivv /\
  Browser.browserGenerateHash password ivv = Browser.browserGenerateHash password' ivv.
Proof.
  intros H.
  assert (E : Utf8.encode password = Utf8.encode password').
  { now rewrite <- (encode_toWellFormed password),
                <- (encode_toWellFormed password'), H. }
  assert (E1 : Native.nativeGenerateKey password ivv
               = Native.nativeGenerateKey password' ivv).
  { unfold Native.nativeGenerateKey, QuickCrypto.pbkdf2Sync. now rewrite E. }
  assert (E2 : Browser.browserGenerateKey password ivv
               = Browser.browserGenerateKey password' ivv).
  { unfold Browser.browserGenerateKey. now rewrite E. }
  unfold Native.nativeGenerateHash, Browser.browserGenerateHash.
  rewrite E1, E2. repeat split.
Qed.

(** X23.  One fingerprint on every platform.  With the providers present, the
    hash of a password and an IVV is the same 44 characters, the base64
    text of 32 bytes, from [nativeGenerateHash], from [browserGenerateHash]
    and, once [browserInit] has stored the crypto object, from the
    variant's [browserGenerateHash] with [base64Encoded]. *)
Theorem fingerprints_agree {P : Platform} {L : PlatformLaws P}
    (browserCrypto : option Platform) (password ivv : jsstring) :
  has_pbkdf2Sync = true -> has_subtle_importKey = true ->
  exists h,
    Native.nativeGenerateHash password ivv = Ok h /\
    Browser.browserGenerateHash password ivv = Ok h /\
    BrowserVariant.browserGenerateHash
      (BrowserVariant.browserInit P browserCrypto) password ivv true = Ok h /\
    length h = 44%nat /\
    length (Buffer.from h base64) = 32%nat.
Proof.
  intros Hp Hs. exists (deriveFingerprint password ivv).
  split; [|split; [|split; [|split]]].
  - unfold Native.nativeGenerateHash.
    rewrite nativeGenerateKey_spec by assumption. cbn [bind].
    now rewrite nativeGenerateKey_spec by assumption.
  - unfold Browser.browserGenerateHash.
    rewrite browserGenerateKey_spec by assumption. cbn [bind].
    now rewrite browserGenerateKey_spec by assumption.
  - unfold BrowserVariant.browserGenerateHash, BrowserVariant.browserInit.
    rewrite variant_key_base64 by assumption. cbn [bind].
    rewrite variant_key_base64 by assumption. reflexivity.
  - unfold deriveFingerprint, deriveKey at 1.
    now rewrite encode_length, pbkdf2_length.
  - apply deriveKey_valid.
Qed.

(** ** The further properties at work on the small platform *)

Section FurtherExamples.
#[local] Existing Instance Toy.platform.

Ltac evaluated := vm_compute; first [reflexivity | lia].

Lemma ciphertext_size_witness :
exists c,
  Native.nativeEncryptText Toy.key Toy.ivv (lit "Hello, World!") = Ok c /\
  length (Buffer.from c base64)
    = (16 * (length (Buffer.from (lit "Hello, World!") utf8) / 16) + 16)%nat /\
  (length (Buffer.from (lit "Hello, World!") utf8) < length (Buffer.from c base64)
     <= length (Buffer.from (lit "Hello, World!") utf8) + 16)%nat /\
  length c = (4 * ((length (Buffer.from c base64) + 2) / 3))%nat /\
  Forall (fun u => u < 128) c.
Proof.
apply (ciphertext_size (P := Toy.platform) Toy.key Toy.ivv (lit "Hello, World!"));
  evaluated.
Defined.

Lemma round_trip_replaces_unpaired_surrogates_witness :
let T := [72; 0xDC00; 0xD83D; 0xDE00; 0xD800] in
exists c,
  Native.nativeEncryptText Toy.key Toy.ivv T = Ok c /\
  Native.nativeDecryptText Toy.key Toy.ivv c = Ok (toWellFormed T) /\
  (toWellFormed T = T <-> isWellFormed T = true).
Proof.
apply (round_trip_replaces_unpaired_surrogates (P := Toy.platform)
         Toy.key Toy.ivv [72; 0xDC00; 0xD83D; 0xDE00; 0xD800]);
  evaluated.
Defined.

Lemma decrypt_text_not_whole_blocks_witness :
(has_createDecipheriv = true ->
 Native.nativeDecryptText Toy.key Toy.ivv (lit "Hello, World!")
   = Throw WrongFinalBlockLength) /\
(has_subtle_importKey = true ->
 exists e, Browser.browserDecryptText Toy.key Toy.ivv (lit "Hello, World!")
             = Throw e).
Proof.
apply (decrypt_text_not_whole_blocks (P := Toy.platform)
         Toy.key Toy.ivv (lit "Hello, World!"));
  [evaluated | evaluated | right; evaluated].
Defined.

Lemma invalid_key_or_ivv_is_refused_witness :
exists e,
  (e = InvalidKeyLength \/ e = InvalidIV) /\
  Native.nativeEncryptText [] Toy.ivv (lit "Hello") = Throw e /\
  Native.nativeDecryptText [] Toy.ivv (lit "Hello") = Throw e /\
  Native.nativeEncryptStream [] Toy.ivv (Mock.ReadStream_new (inr []))
    Mock.WriteStream_new None = Throw e /\
  Native.nativeDecryptStream [] Toy.ivv (Mock.ReadStream_new (inr []))
    Mock.WriteStream_new None = Throw e.
Proof.
apply (invalid_key_or_ivv_is_refused (P := Toy.platform) [] Toy.ivv (lit "Hello")
         (Mock.ReadStream_new (inr [])) Mock.WriteStream_new None);
  [evaluated | evaluated | evaluated].
Defined.

Lemma wrong_ivv_is_not_detected_witness :
let T := lit "Hello, World! Hello!" in
exists c,
  Native.nativeEncryptText Toy.key Toy.ivv T = Ok c /\
  Native.nativeDecryptText Toy.key Toy.other_ivv c =
  Ok (Buffer.toString
        (Cipher.xor_block
           (Cipher.xor_block (firstn 16 (Buffer.from T utf8))
                             (Buffer.from Toy.ivv base64))
           (Buffer.from Toy.other_ivv base64)
         ++ skipn 16 (Buffer.from T utf8)) utf8).
Proof.
apply (wrong_ivv_is_not_detected (P := Toy.platform) Toy.key Toy.ivv Toy.other_ivv
         (lit "Hello, World! Hello!"));
  [evaluated | evaluated | evaluated | evaluated | evaluated
  | evaluated].
Defined.

Lemma native_browser_same_ciphertext_witness :
exists c,
  Native.nativeEncryptText Toy.key Toy.ivv (lit "Hello, World!") = Ok c /\
  Browser.browserEncryptText Toy.key Toy.ivv (lit "Hello, World!") = Ok c.
Proof.
apply (native_browser_same_ciphertext (P := Toy.platform) Toy.key Toy.ivv
         (lit "Hello, World!")); evaluated.
Defined.

Lemma browser_text_round_trip_witness :
exists c,
  Browser.browserEncryptText Toy.key Toy.ivv (lit "Hello, World!") = Ok c /\
  Browser.browserDecryptText Toy.key Toy.ivv c = Ok (lit "Hello, World!") /\
  (has_createCipheriv = true ->
   Native.nativeEncryptText Toy.key Toy.ivv (lit "Hello, World!") = Ok c).
Proof.
apply (browser_text_round_trip (P := Toy.platform) Toy.key Toy.ivv
         (lit "Hello, World!")); evaluated.
Defined.

Lemma browser_round_trip_drops_byte_order_mark_witness :
exists c,
  Browser.browserEncryptText Toy.key Toy.ivv
    (TextDecoder.byte_order_mark :: lit "Hello") = Ok c /\
  Browser.browserDecryptText Toy.key Toy.ivv c = Ok (lit "Hello") /\
  Native.nativeDecryptText Toy.key Toy.ivv c
    = Ok (TextDecoder.byte_order_mark :: lit "Hello").
Proof.
apply (browser_round_trip_drops_byte_order_mark (P := Toy.platform)
         Toy.key Toy.ivv (lit "Hello")); evaluated.
Defined.

Lemma browser_accepts_128_bit_key_witness :
(exists c, Browser.browserEncryptText Toy.ivv Toy.ivv (lit "Hello, World!") = Ok c) /\
Native.nativeEncryptText Toy.ivv Toy.ivv (lit "Hello, World!")
  = Throw InvalidKeyLength.
Proof.
apply (browser_accepts_128_bit_key (P := Toy.platform) Toy.ivv Toy.ivv
         (lit "Hello, World!")); evaluated.
Defined.

Lemma nativeGenerateIvv_valid_witness :
(exists ivv,
   Native.nativeGenerateIvv (Some Toy.counting_bytes) = Ok ivv /\
   Buffer.from ivv base64 = Toy.counting_bytes 16 /\
   valid_ivv ivv /\ length ivv = 24%nat) /\
Native.nativeGenerateIvv None
  = Throw (NotSupported "nativeCrypto.randomBytes is not supported").
Proof.
apply (nativeGenerateIvv_valid Toy.counting_bytes). evaluated.
Defined.

Lemma generated_key_round_trip_witness :
exists ivv key c,
  Native.nativeGenerateIvv (Some Toy.counting_bytes) = Ok ivv /\
  Native.nativeGenerateKey (lit "testPassword123") ivv = Ok key /\
  (has_subtle_importKey = true ->
   Browser.browserGenerateKey (lit "testPassword123") ivv = Ok key) /\
  Native.nativeEncryptText key ivv (lit "Hello, World!") = Ok c /\
  Native.nativeDecryptText key ivv c = Ok (lit "Hello, World!").
Proof.
apply (generated_key_round_trip (P := Toy.platform) Toy.counting_bytes
         (lit "testPassword123") (lit "Hello, World!")); evaluated.
Defined.

Lemma encrypt_stream_any_chunking_witness :
let chunks := [lit "SGVs"; lit "bG8sIFdv"; lit "cmxkIQ=="] in
exists op c,
  Native.nativeEncryptStream Toy.key Toy.ivv (Mock.ReadStream_new (inr []))
    Mock.WriteStream_new None = Ok op /\
  Native.nativeEncryptText Toy.key Toy.ivv (concat chunks) = Ok c /\
  concat (Run.written (op_trace (Native.encrypt_deliver op chunks EndOfData))) = c /\
  op_promise (Native.encrypt_deliver op chunks EndOfData) = Some (Ok tt).
Proof.
apply (encrypt_stream_any_chunking (P := Toy.platform) Toy.key Toy.ivv
         (Mock.ReadStream_new (inr [])) Mock.WriteStream_new None
         [lit "SGVs"; lit "bG8sIFdv"; lit "cmxkIQ=="]); evaluated.
Defined.

Lemma decrypt_stream_aligned_chunks_witness :
let chunks := [lit "DSMrLC5u"; lit "YxsiNikiZkNC"; lit "QQ=="] in
exists op,
  Native.nativeDecryptStream Toy.key Toy.ivv (Mock.ReadStream_new (inr []))
    Mock.WriteStream_new None = Ok op /\
  concat (Run.written (op_trace (Native.decrypt_deliver op chunks EndOfData)))
    = lit "Hello, World!" /\
  op_promise (Native.decrypt_deliver op chunks EndOfData) = Some (Ok tt).
Proof.
apply (decrypt_stream_aligned_chunks (P := Toy.platform) Toy.key Toy.ivv
         (Mock.ReadStream_new (inr [])) Mock.WriteStream_new None
         [lit "DSMrLC5u"; lit "YxsiNikiZkNC"; lit "QQ=="] (lit "Hello, World!"));
  evaluated.
Defined.

Lemma truncated_stream_never_settles_witness :
let chunks := [lit "DSMrLC5u"; lit "YxsiNikiZkNC"] in
exists op,
  Native.nativeDecryptStream Toy.key Toy.ivv (Mock.ReadStream_new (inr []))
    Mock.WriteStream_new None = Ok op /\
  let before := fold_left Native.decrypt_onData chunks op in
  let after := Native.decrypt_deliver op chunks EndOfData in
  op_promise after = None /\
  op_trace after = op_trace before ++ [Finalized] /\
  op_output after = op_output before /\
  filter Run.is_close (op_trace after) = [].
Proof.
apply (truncated_stream_never_settles (P := Toy.platform) Toy.key Toy.ivv
         (Mock.ReadStream_new (inr [])) Mock.WriteStream_new None
         [lit "DSMrLC5u"; lit "YxsiNikiZkNC"]);
  [evaluated | evaluated | evaluated | right; evaluated].
Defined.

Lemma encrypt_stream_final_write_witness :
let chunks := [lit "SGVs"; lit "bG8sIFdv"; lit "cmxkIQ=="] in
exists op f,
  Native.nativeEncryptStream Toy.key Toy.ivv (Mock.ReadStream_new (inr []))
    Mock.WriteStream_new None = Ok op /\
  let before := fold_left Native.encrypt_onData chunks op in
  let after := Native.encrypt_deliver op chunks EndOfData in
  Cipher.final (op_cipher before) base64 = Ok f /\
  length f = 24%nat /\
  op_trace after = op_trace before ++ [Finalized; Written f; Closed; Resolved] /\
  length (ws_chunks (op_output after))
    = (length (ws_chunks Mock.WriteStream_new) + length chunks + 1)%nat.
Proof.
apply (encrypt_stream_final_write (P := Toy.platform) Toy.key Toy.ivv
         (Mock.ReadStream_new (inr [])) Mock.WriteStream_new None
         [lit "SGVs"; lit "bG8sIFdv"; lit "cmxkIQ=="]); evaluated.
Defined.

Lemma stream_encryption_is_text_encryption_witness :
let data := inl (lit "Stream data test. ") in
exists op c,
  Mock.encrypt_stream Toy.key Toy.ivv data (Some (Size 7)) = Ok op /\
  Native.nativeEncryptText Toy.key Toy.ivv
    (Buffer.toString (Mock.buffer_of data) base64) = Ok c /\
  Mock.getString (op_output op) = c /\
  Native.nativeDecryptText Toy.key Toy.ivv (Mock.getString (op_output op))
    = Ok (Buffer.toString (Mock.buffer_of data) base64).
Proof.
apply (stream_encryption_is_text_encryption (P := Toy.platform) Toy.key Toy.ivv
         (inl (lit "Stream data test. ")) (Some (Size 7))); evaluated.
Defined.

Lemma encrypted_stream_size_witness :
let data := inl (lit "Stream data test. ") in
exists op,
  Mock.encrypt_stream Toy.key Toy.ivv data (Some (Size 7)) = Ok op /\
  let n := length (Mock.buffer_of data) in
  let size := length (Mock.getBuffer (op_output op)) in
  size = (4 * ((16 * (4 * ((n + 2) / 3) / 16) + 16 + 2) / 3))%nat /\
  (16 * n < 9 * size <= 16 * n + 248)%nat.
Proof.
apply (encrypted_stream_size (P := Toy.platform) Toy.key Toy.ivv
         (inl (lit "Stream data test. ")) (Some (Size 7))); evaluated.
Defined.

Lemma variant_raw_key_decrypts_witness :
let initialised := BrowserVariant.browserInit Toy.platform None in
exists key raw c,
  Browser.browserGenerateKey (lit "testPassword123") Toy.ivv = Ok key /\
  BrowserVariant.browserGenerateKey initialised
    (BrowserVariant.Str (lit "testPassword123")) Toy.ivv true
    = Ok (BrowserVariant.Str key) /\
  BrowserVariant.browserGenerateKey initialised
    (BrowserVariant.Str (lit "testPassword123")) Toy.ivv false
    = Ok (BrowserVariant.U8Array raw) /\
  key = Buffer.toString raw base64 /\
  length raw = 32%nat /\
  Browser.browserEncryptText key Toy.ivv (lit "Hello, World!") = Ok c /\
  BrowserVariant.browserDecryptText initialised (BrowserVariant.U8Array raw)
    Toy.ivv c = Ok (lit "Hello, World!") /\
  BrowserVariant.browserDecryptText None (BrowserVariant.U8Array raw) Toy.ivv c
    = Throw (TypeError "Cannot read properties of undefined (reading 'subtle')").
Proof.
apply (variant_raw_key_decrypts (P := Toy.platform) None (lit "testPassword123")
         Toy.ivv (lit "Hello, World!")); evaluated.
Defined.

Lemma passwords_with_unpaired_surrogates_collide_witness :
let password := [112; 0xD800; 119] in
let password' := [112; 0xDFFF; 119] in
Native.nativeGenerateKey password Toy.ivv
  = Native.nativeGenerateKey password' Toy.ivv /\
Native.nativeGenerateHash password Toy.ivv
  = Native.nativeGenerateHash password' Toy.ivv /\
Browser.browserGenerateKey password Toy.ivv
  = Browser.browserGenerateKey password' Toy.ivv /\
Browser.browserGenerateHash password Toy.ivv
  = Browser.browserGenerateHash password' Toy.ivv.
Proof.
apply (passwords_with_unpaired_surrogates_collide (P := Toy.platform)
         [112; 0xD800; 119] [112; 0xDFFF; 119] Toy.ivv). evaluated.
Defined.

Lemma fingerprints_agree_witness :
exists h,
  Native.nativeGenerateHash (lit "testPassword123") Toy.ivv = Ok h /\
  Browser.browserGenerateHash (lit "testPassword123") Toy.ivv = Ok h /\
  BrowserVariant.browserGenerateHash
    (BrowserVariant.browserInit Toy.platform None)
    (lit "testPassword123") Toy.ivv true = Ok h /\
  length h = 44%nat /\
  length (Buffer.from h base64) = 32%nat.
Proof.
apply (fingerprints_agree (P := Toy.platform) None (lit "testPassword123") Toy.ivv);
  evaluated.
Defined.

End FurtherExamples.
